(** * Kinetics simulator: particle kinematics and reaction matching

    A shallow embedding of [src/index.ts] (the version with [getAvgPos],
    [cooldownDist] and the pause flag): the [Vector], [Particle] and
    [Reaction] classes and the tick driver [updateFrame].

    - A JavaScript [number] is an IEEE 754 binary64 value.  The model is
      written once over an interface [Number] of the arithmetic the code
      uses, and instantiated twice: at Rocq's primitive binary64 floats,
      which is what the program runs on, and at exact real arithmetic in
      which a division by zero is an explicit undefined value.
    - Particles are objects with identity that several arrays alias
      (the live list, a neighbour list, the list of consumed particles).
      They live in a [heap], a list addressed by allocation index, and the
      arrays hold references.
    - An array that a callee mutates in place ([splice], [push]) is passed
      in and handed back.
    - Where a statement is about rounding, [value] is the real number a
      binary64 value stands for, and [rounds] says that the result of an
      operation is within a relative error of the exact one. *)

From Stdlib Require Import ZArith List String Bool Lia Floats Reals Lra.
From Stdlib Require Import DecimalString.
From stdpp Require Import base list.

Local Open Scope Z_scope.

(** ** Numbers *)

(** The operations of [number] the simulation uses.  [num_of_Z] gives the
    integer literals and array lengths; [nlt], [nle] and [neq] are [<],
    [<=] and [===]. *)
Class Number (num : Type) : Type := {
  num_of_Z : Z -> num;
  nadd : num -> num -> num;
  nsub : num -> num -> num;
  nmul : num -> num -> num;
  ndiv : num -> num -> num;
  nsqrt : num -> num;
  nlt : num -> num -> bool;
  nle : num -> num -> bool;
  neq : num -> num -> bool
}.

Declare Scope num_scope.
Delimit Scope num_scope with num.
Notation "a + b" := (nadd a b) : num_scope.
Notation "a - b" := (nsub a b) : num_scope.
Notation "a * b" := (nmul a b) : num_scope.
Notation "a / b" := (ndiv a b) : num_scope.
Notation "a <? b" := (nlt a b) : num_scope.
Notation "a >? b" := (nlt b a) (only parsing) : num_scope.
Notation "a <=? b" := (nle a b) : num_scope.
Notation "a =? b" := (neq a b) : num_scope.
Notation "# z" := (num_of_Z z) (at level 1, format "# z") : num_scope.

(** Lifecycle tag of a particle: the string union
    ["active" | "cooldown" | "removed"]. *)
Inductive ParticleState : Type := active | cooldown | removed.

Definition state_eqb (a b : ParticleState) : bool :=
  match a, b with
  | active, active | cooldown, cooldown | removed, removed => true
  | _, _ => false
  end.

(** A reference to a [Particle] object: its index in the heap. *)
Abbreviation ref := nat.

(** [type molFormula]; the coefficient is an integer in every rule. *)
Record molFormula : Type := mkMolFormula {
  mol_formula : string;
  molCoeff : Z
}.

(** [class Reaction]. *)
Record Reaction : Type := mkReaction {
  name : string;
  reactants : list molFormula;
  products : list molFormula;
  reversible : bool
}.

Section Model.
Context {num : Type} {NUM : Number num}.
Local Open Scope num_scope.

(** ** Vector *)

Record Vector : Type := mkVector { x : num; y : num }.

Definition getCopy (v : Vector) : Vector := mkVector (x v) (y v).

(** [x ** 2] is taken as [x * x]. *)
Definition getMagnitude (v : Vector) : num :=
  nsqrt (x v * x v + y v * y v).

Definition getScaled (v : Vector) (scaler : num) : Vector :=
  mkVector (scaler * x v) (scaler * y v).

Definition getNeg (v : Vector) : Vector := getScaled v #(-1).

Definition getAddition (v other : Vector) : Vector :=
  mkVector (x v + x other) (y v + y other).

Definition getDifference (v other : Vector) : Vector :=
  mkVector (x other - x v) (y other - y v).

Definition getNormalized (v : Vector) : Vector :=
  let mag := getMagnitude v in
  if mag =? #0 then mkVector #0 #0
  else mkVector (x v / mag) (y v / mag).

(** The assignments [v.x = a], [v.y = a] on a vector held in a local. *)
Definition set_x (v : Vector) (a : num) : Vector := mkVector a (y v).
Definition set_y (v : Vector) (a : num) : Vector := mkVector (x v) a.

Definition getDist (pos1 pos2 : Vector) : num :=
  nsqrt ((x pos1 - x pos2) * (x pos1 - x pos2)
         + (y pos1 - y pos2) * (y pos1 - y pos2)).

(** ** Particle *)

Record dimensions : Type := mkDimensions { height : num; width : num }.

Record Particle : Type := mkParticle {
  formula : string;
  color : string;
  radius : num;
  pos : Vector;
  vel : Vector;
  temperature : num;
  state : ParticleState;
  cooldownDist : num
}.

Definition set_state (p : Particle) (s : ParticleState) : Particle :=
  mkParticle (formula p) (color p) (radius p) (pos p) (vel p)
             (temperature p) s (cooldownDist p).

(** [Particle.changeTemperature]. *)
Definition changeTemperature (p : Particle) (newTemp : num) : Particle :=
  if temperature p =? #0 then p
  else
    let speedScaler := getMagnitude (vel p) / temperature p in
    let newVel := getScaled (getNormalized (vel p)) (speedScaler * newTemp) in
    mkParticle (formula p) (color p) (radius p) (pos p) newVel
               newTemp (state p) (cooldownDist p).

(** The four boundary tests of [Particle.update], in source order, on the
    locals [newPos] and [newVel]. *)
Definition reflect (canvas : dimensions) (r : num) (newPos newVel : Vector)
  : Vector * Vector :=
  let '(newPos, newVel) :=
    if x newPos - r <? #0
    then (set_x newPos r, set_x newVel (x newVel * #(-1)))
    else (newPos, newVel) in
  let '(newPos, newVel) :=
    if x newPos + r >? width canvas
    then (set_x newPos (width canvas - r), set_x newVel (x newVel * #(-1)))
    else (newPos, newVel) in
  let '(newPos, newVel) :=
    if y newPos - r <? #0
    then (set_y newPos r, set_y newVel (y newVel * #(-1)))
    else (newPos, newVel) in
  if y newPos + r >? height canvas
  then (set_y newPos (height canvas - r), set_y newVel (y newVel * #(-1)))
  else (newPos, newVel).

(** [Particle.update]. *)
Definition update (canvas : dimensions) (p : Particle) : Particle :=
  let newVel := getCopy (vel p) in
  let newPos := getAddition (pos p) (vel p) in
  let '(newPos, newVel) := reflect canvas (radius p) newPos newVel in
  let cd :=
    if cooldownDist p >? #0
    then cooldownDist p - getMagnitude newVel
    else cooldownDist p in
  if (cd <=? #0) || state_eqb (state p) active
  then mkParticle (formula p) (color p) (radius p) newPos newVel
                  (temperature p) active #0
  else mkParticle (formula p) (color p) (radius p) newPos newVel
                  (temperature p) (state p) cd.

End Model.

Arguments Vector : clear implicits.
Arguments Particle : clear implicits.
Arguments dimensions : clear implicits.

(** ** The environment and the simulation state *)

Section Simulation.
Context {num : Type} {NUM : Number num}.
Local Open Scope num_scope.

(** What the program takes from its host: [Math.random] (the value of its
    n-th call), [Math.cos], [Math.sin], [Math.PI], the canvas passed to
    [Particle.update], and the rule list, which is filled once at start-up
    and never changed. *)
Record Env : Type := mkEnv {
  Math_random : nat -> num;
  Math_cos : num -> num;
  Math_sin : num -> num;
  Math_PI : num;
  canvas : dimensions num;
  reactionList : list Reaction
}.

(** The module-level variables.  [heap] holds every [Particle] object
    allocated so far; [randomCalls] counts the calls of [Math.random].
    An array holds only objects that exist, so a reference is always
    inside the heap ([wf] below, kept by every tick); the functions leave
    a reference outside it alone. *)
Record World : Type := mkWorld {
  heap : list (Particle num);
  particleList : list ref;
  particleCreationQueue : list ref;
  containerPaused : bool;
  containerTemperature : num;
  randomCalls : nat
}.

Definition RADIUS : num := #10.
Definition COOLDOWN_DIST : num := #2 * RADIUS.
(** The literal [0.5]. *)
Definition MAX_SPEED_SCALER : num := #1 / #2.

Definition getRotated (E : Env) (v : Vector num) (theta : num) : Vector num :=
  mkVector (x v * Math_cos E theta - y v * Math_sin E theta)
           (x v * Math_sin E theta + y v * Math_cos E theta).

(** [getRandFloat], at the [n]-th call of [Math.random]. *)
Definition getRandFloat (E : Env) (n : nat) (min max : num) : num :=
  Math_random E n * (max - min) + min.

(** [getParticleColor] over [formulaColorMap]. *)
Definition getParticleColor (f : string) : string :=
  if String.eqb f "A" then "blue"
  else if String.eqb f "B" then "red"
  else if String.eqb f "C" then "orange"
  else "black".

(** [createParticle]; it calls [Math.random] twice, the [n]-th and the
    next call.  The position vector is shared by the caller's particles,
    and no code writes to a vector that a particle holds. *)
Definition createParticle (E : Env) (f : string) (position : Vector num)
    (temp : num) (cooldownDistance : num) (n : nat) : Particle num :=
  let speedVec := mkVector temp #0 in
  let speedScaler :=
    getRandFloat E n (#1 - MAX_SPEED_SCALER) (#1 + MAX_SPEED_SCALER) in
  let angle := getRandFloat E (S n) #0 (#2 * Math_PI E) in
  let velocity := getRotated E (getScaled speedVec speedScaler) angle in
  if negb (cooldownDistance =? #0)
  then mkParticle f (getParticleColor f) RADIUS position velocity temp
                  cooldown cooldownDistance
  else mkParticle f (getParticleColor f) RADIUS position velocity temp
                  active #0.

(** [removeParticles]: every listed object gets the state ["removed"]. *)
Definition removeParticles (particles : list ref) (h : list (Particle num))
  : list (Particle num) :=
  foldl (fun h r => alter (fun p => set_state p removed) r h) h particles.

(** [getAvgPos] of the objects behind [particles]. *)
Definition getAvgPos (h : list (Particle num)) (particles : list ref)
  : Vector num :=
  match particles with
  | [] => mkVector #0 #0
  | _ =>
    let total :=
      foldl (fun t r =>
               match h !! r with
               | Some p => (fst t + x (pos p), snd t + y (pos p))
               | None => t
               end) (#0, #0) particles in
    let len := #(Z.of_nat (length particles)) in
    mkVector (fst total / len) (snd total / len)
  end.

(** ** Reaction *)

(** The callback of [filter] in the matching loops. *)
Definition matches (h : list (Particle num)) (f : string) (r : ref) : bool :=
  match h !! r with
  | Some p => state_eqb (state p) active && String.eqb (formula p) f
  | None => false
  end.

(** The loop shared by [getFwdConsumedParticles] and
    [getRevConsumedParticles] over the required side.  The array
    [intersectingParticles] is the caller's: [splice(0, minAmount)] takes
    its first [minAmount] entries out of it, and the array so far is what
    the caller is left with, also on [null]. *)
Fixpoint consumeLoop (h : list (Particle num)) (required : list molFormula)
    (intersectingParticles consumedParticles : list ref)
  : option (list ref) * list ref :=
  match required with
  | [] => (Some consumedParticles, intersectingParticles)
  | mf :: rest =>
    let matchingParticles :=
      List.filter (matches h (mol_formula mf)) intersectingParticles in
    if (Z.of_nat (length matchingParticles) <? molCoeff mf)%Z
    then (None, intersectingParticles)
    else
      let minAmount := Z.to_nat (molCoeff mf) in
      consumeLoop h rest (drop minAmount intersectingParticles)
                  (consumedParticles ++ take minAmount intersectingParticles)
  end.

Definition getFwdConsumedParticles (h : list (Particle num)) (rx : Reaction)
    (intersectingParticles : list ref) : option (list ref) * list ref :=
  consumeLoop h (reactants rx) intersectingParticles [].

Definition getRevConsumedParticles (h : list (Particle num)) (rx : Reaction)
    (intersectingParticles : list ref) : option (list ref) * list ref :=
  consumeLoop h (products rx) intersectingParticles [].

(** The inner [for] of the production loops: [coeff] particles of one
    species. *)
Fixpoint createMany (E : Env) (f : string) (loc : Vector num) (temp : num)
    (coeff : nat) (n : nat) : list (Particle num) * nat :=
  match coeff with
  | O => ([], n)
  | S k =>
    let p := createParticle E f loc temp COOLDOWN_DIST n in
    let '(ps, n') := createMany E f loc temp k (2 + n)%nat in
    (p :: ps, n')
  end.

Fixpoint produceLoop (E : Env) (side : list molFormula) (loc : Vector num)
    (temp : num) (n : nat) : list (Particle num) * nat :=
  match side with
  | [] => ([], n)
  | mf :: rest =>
    let '(ps, n1) :=
      createMany E (mol_formula mf) loc temp (Z.to_nat (molCoeff mf)) n in
    let '(qs, n2) := produceLoop E rest loc temp n1 in
    (ps ++ qs, n2)
  end.

Definition getFwdProducedParticles (E : Env) (rx : Reaction)
    (reactionLocation : Vector num) (temp : num) (n : nat) :=
  produceLoop E (products rx) reactionLocation temp n.

Definition getRevProducedParticles (E : Env) (rx : Reaction)
    (reactionLocation : Vector num) (temp : num) (n : nat) :=
  produceLoop E (reactants rx) reactionLocation temp n.

(** Marking the consumed particles and queueing the new ones: the body of
    either successful branch of [attemptReaction].  The new objects are
    allocated at the end of the heap, in creation order. *)
Definition fire (consumed : list ref) (produced : list (Particle num) * nat)
    (w : World) : World :=
  let h := removeParticles consumed (heap w) in
  mkWorld (h ++ fst produced) (particleList w)
          (particleCreationQueue w ++ seq (length h) (length (fst produced)))
          (containerPaused w) (containerTemperature w) (snd produced).

(** [Reaction.attemptReaction]: the result, the caller's array
    [intersectingParticles] as the call leaves it, and the new state. *)
Definition attemptReaction (E : Env) (rx : Reaction)
    (intersectingParticles : list ref) (temp : num) (w : World)
  : bool * list ref * World :=
  let '(fwdConsumed, intersectingParticles) :=
    getFwdConsumedParticles (heap w) rx intersectingParticles in
  match fwdConsumed with
  | Some consumed =>
    let loc := getAvgPos (removeParticles consumed (heap w)) consumed in
    (true, intersectingParticles,
     fire consumed (getFwdProducedParticles E rx loc temp (randomCalls w)) w)
  | None =>
    let '(revConsumed, intersectingParticles) :=
      getRevConsumedParticles (heap w) rx intersectingParticles in
    match reversible rx, revConsumed with
    | true, Some consumed =>
      let loc := getAvgPos (removeParticles consumed (heap w)) consumed in
      (true, intersectingParticles,
       fire consumed (getRevProducedParticles E rx loc temp (randomCalls w)) w)
    | _, _ => (false, intersectingParticles, w)
    end
  end.

(** ** The tick driver *)

(** The [while] loop of [updateFrame] over the live list: a removed
    particle is spliced out, any other is updated in place. *)
Fixpoint sweep (c : dimensions num) (l : list ref) (h : list (Particle num))
  : list ref * list (Particle num) :=
  match l with
  | [] => ([], h)
  | r :: rest =>
    match h !! r with
    | Some p =>
      if state_eqb (state p) removed then sweep c rest h
      else
        let '(l', h') := sweep c rest (<[r := update c p]> h) in
        (r :: l', h')
    | None => let '(l', h') := sweep c rest h in (r :: l', h')
    end
  end.

(** The neighbour list built for [particle1]. *)
Definition availableParticles (h : list (Particle num)) (l : list ref)
    (r1 : ref) (particle1 : Particle num) : list ref :=
  r1 :: List.filter
          (fun r2 =>
             negb (Nat.eqb r2 r1) &&
             match h !! r2 with
             | Some particle2 =>
               state_eqb (state particle2) active &&
               (getDist (pos particle1) (pos particle2)
                <? radius particle1 + radius particle2)
             | None => false
             end) l.

(** The loop over [reactionList], left at the first success; every rule
    gets the same array. *)
Fixpoint tryReactions (E : Env) (rules : list Reaction)
    (available : list ref) (w : World) : World :=
  match rules with
  | [] => w
  | rx :: rest =>
    let '(rxnSuccessful, available, w') :=
      attemptReaction E rx available (containerTemperature w) w in
    if rxnSuccessful then w' else tryReactions E rest available w'
  end.

(** The collision loop over the live list. *)
Fixpoint collide (E : Env) (todo : list ref) (w : World) : World :=
  match todo with
  | [] => w
  | r1 :: rest =>
    match heap w !! r1 with
    | Some particle1 =>
      if state_eqb (state particle1) active
      then collide E rest
             (tryReactions E (reactionList E)
                (availableParticles (heap w) (particleList w) r1 particle1) w)
      else collide E rest w
    | None => collide E rest w
    end
  end.

(** The first half of a tick: the queue is pushed onto the live list and
    cleared, and the live list is swept. *)
Definition mergeAndSweep (E : Env) (w : World) : World :=
  let merged := particleList w ++ particleCreationQueue w in
  let '(l, h) := sweep (canvas E) merged (heap w) in
  mkWorld h l [] (containerPaused w) (containerTemperature w) (randomCalls w).

(** [updateFrame]; drawing reads the state and is left out. *)
Definition updateFrame (E : Env) (w : World) : World :=
  if containerPaused w then w
  else
    let w1 := mergeAndSweep E w in
    collide E (particleList w1) w1.

(** The neighbour lists the collision loop builds, in order: the arrays
    [availableParticles] handed to the rules.  It follows [collide] and
    keeps what that loop passes to [tryReactions]. *)
Fixpoint neighbourLists (E : Env) (todo : list ref) (w : World)
  : list (list ref) :=
  match todo with
  | [] => []
  | r1 :: rest =>
    match heap w !! r1 with
    | Some particle1 =>
      if state_eqb (state particle1) active
      then
        let available :=
          availableParticles (heap w) (particleList w) r1 particle1 in
        available
          :: neighbourLists E rest (tryReactions E (reactionList E) available w)
      else neighbourLists E rest w
    | None => neighbourLists E rest w
    end
  end.

End Simulation.

Arguments Env : clear implicits.
Arguments World : clear implicits.

(** ** The two instances of [Number] *)

(** Binary64, the numbers the program runs on. *)
Definition float_of_Z (z : Z) : float :=
  match z with
  | Z0 => 0%float
  | Zpos _ => PrimFloat.of_uint63 (Uint63.of_Z z)
  | Zneg p => (- PrimFloat.of_uint63 (Uint63.of_Z (Zpos p)))%float
  end.

#[export] Instance float_Number : Number float := {|
  num_of_Z := float_of_Z;
  nadd := PrimFloat.add;
  nsub := PrimFloat.sub;
  nmul := PrimFloat.mul;
  ndiv := PrimFloat.div;
  nsqrt := PrimFloat.sqrt;
  nlt := PrimFloat.ltb;
  nle := PrimFloat.leb;
  neq := PrimFloat.eqb
|}.

(** Exact arithmetic: a real number, or [None] for a value that is not
    one (the quotient by zero, the root of a negative number).  Every
    operation hands [None] on and every comparison with it is false, as
    with NaN. *)
Abbreviation xreal := (option R).

Definition xlift2 (f : R -> R -> R) (a b : xreal) : xreal :=
  match a, b with
  | Some u, Some v => Some (f u v)
  | _, _ => None
  end.

Definition xdiv (a b : xreal) : xreal :=
  match a, b with
  | Some u, Some v => if Req_dec_T v 0 then None else Some (u / v)%R
  | _, _ => None
  end.

Definition xsqrt (a : xreal) : xreal :=
  match a with
  | Some u => if Rlt_dec u 0 then None else Some (sqrt u)
  | None => None
  end.

Definition xcmp (c : R -> R -> bool) (a b : xreal) : bool :=
  match a, b with
  | Some u, Some v => c u v
  | _, _ => false
  end.

#[export] Instance xreal_Number : Number xreal := {|
  num_of_Z := fun z => Some (IZR z);
  nadd := xlift2 Rplus;
  nsub := xlift2 Rminus;
  nmul := xlift2 Rmult;
  ndiv := xdiv;
  nsqrt := xsqrt;
  nlt := xcmp (fun u v => if Rlt_dec u v then true else false);
  nle := xcmp (fun u v => if Rle_dec u v then true else false);
  neq := xcmp (fun u v => if Req_dec_T u v then true else false)
|}.


(** ** Predicates used in the statements *)

Section Predicates.
Context {num : Type} {NUM : Number num}.

(** Every reference held by the live list or the queue points into the
    heap: the arrays only ever hold objects that were created. *)
Definition wf (w : World num) : Prop :=
  Forall (fun r : ref => (r < length (heap w))%nat)
         (particleList w ++ particleCreationQueue w).

(** How many candidates are active particles of species [f]. *)
Definition available (h : list (Particle num)) (f : string)
    (candidates : list ref) : nat :=
  length (List.filter (matches h f) candidates).

(** The stoichiometric condition of one side of a rule on a candidate
    list: each required species has at least its coefficient of active
    candidates. *)
Definition satisfiable (h : list (Particle num)) (side : list molFormula)
    (candidates : list ref) : Prop :=
  Forall (fun mf => (molCoeff mf <= Z.of_nat (available h (mol_formula mf) candidates))%Z)
         side.

(** The state of the object behind a reference. *)
Definition stateOf (h : list (Particle num)) (r : ref)
  : option ParticleState :=
  state <$> h !! r.

(** A particle exactly as a production loop creates it at temperature
    [temp]: never updated, never consumed. *)
Definition asCreated (E : Env num) (temp : num) (p : Particle num) : Prop :=
  exists f loc n, p = createParticle E f loc temp COOLDOWN_DIST n.

(** The state of the collision phase of a tick that began with [n0]
    objects in the heap: the live list holds objects from before the
    tick, the queue holds exactly the objects allocated since, in order,
    and each of those is as it was created. *)
Definition tickInv (E : Env num) (n0 : nat) (temp : num) (w : World num)
  : Prop :=
  Forall (fun r : ref => (r < n0)%nat) (particleList w)
  /\ (n0 <= length (heap w))%nat
  /\ particleCreationQueue w = seq n0 (length (heap w) - n0)
  /\ containerTemperature w = temp
  /\ containerPaused w = false
  /\ (forall q : ref, (n0 <= q)%nat -> (q < length (heap w))%nat ->
        exists p, heap w !! q = Some p /\ asCreated E temp p).

End Predicates.

(** ** Concrete data for the examples, in binary64 *)

(** A host whose [Math.random] always returns 0.5: every speed factor
    drawn is 1 and every angle is pi, where [Math.cos] is -1 and
    [Math.sin] is the binary64 value next to 0 given here. *)
Definition hostEnv (c : dimensions float) (rules : list Reaction)
  : Env float :=
  mkEnv (fun _ => 0.5%float) (fun _ => (-1)%float)
        (fun _ => 0x1.1a62633145c07p-53%float) 0x1.921fb54442d18p+1%float
        c rules.

Definition square800 : dimensions float := mkDimensions 800%float 800%float.

(** An active particle as [createParticle] makes it, with a chosen
    position and velocity. *)
Definition particleAt (f : string) (px py vx vy : float) : Particle float :=
  mkParticle f (getParticleColor f) 10%float (mkVector px py)
             (mkVector vx vy) 2%float active 0%float.

(** The rule of the repository, [2A <=> 2B]. *)
Definition rxn1 : Reaction :=
  mkReaction "rxn1" [mkMolFormula "A" 2] [mkMolFormula "B" 2] true.

(** [A + B <=> C + D]. *)
Definition rxnABCD : Reaction :=
  mkReaction "rxnABCD" [mkMolFormula "A" 1; mkMolFormula "B" 1]
             [mkMolFormula "C" 1; mkMolFormula "D" 1] true.

(** [A + B -> C], not reversible. *)
Definition rxnABC : Reaction :=
  mkReaction "rxnABC" [mkMolFormula "A" 1; mkMolFormula "B" 1]
             [mkMolFormula "C" 1] false.

(** [A -> B], not reversible. *)
Definition rxnAB : Reaction :=
  mkReaction "rxnAB" [mkMolFormula "A" 1] [mkMolFormula "B" 1] false.

(** [2B -> C], not reversible. *)
Definition rxnBBC : Reaction :=
  mkReaction "rxnBBC" [mkMolFormula "B" 2] [mkMolFormula "C" 1] false.

(** Overlapping particles at rest, by species. *)
Definition restingHeap (species : list string) : list (Particle float) :=
  map (fun f => particleAt f 400 400 0 0) species.

(** A running world at temperature 2 whose live list is the whole heap. *)
Definition worldOf (h : list (Particle float)) : World float :=
  mkWorld h (seq 0 (length h)) [] false 2%float 0.

(** Two A created at one point at temperature 20, flying apart at speed
    15 each, a speed [createParticle] gives at that temperature. *)
Definition fastPair : World float :=
  mkWorld
    [mkParticle "A" "blue" 10%float (mkVector 400%float 400%float)
                (mkVector 15%float 0%float) 20%float active 0%float;
     mkParticle "A" "blue" 10%float (mkVector 400%float 400%float)
                (mkVector (-15)%float 0%float) 20%float active 0%float]
    [0; 1]%nat [] false 20%float 0.

(** Two A at rest at different points, ten apart in x and four in y: they
    overlap, and their average position is neither's. *)
Definition restingPair : World float :=
  worldOf [particleAt "A" 400 400 0 0; particleAt "A" 410 404 0 0].

(** A particle in exact arithmetic, by velocity and temperature. *)
Definition idealParticle (vx vy t : R) : Particle xreal :=
  mkParticle "A" "blue" (Some 10%R) (mkVector (Some 400%R) (Some 400%R))
             (mkVector (Some vx) (Some vy)) (Some t) active (Some 0%R).

(** ** The rest of the program: labels, handlers, start-up *)

(** [Number.prototype.toString] on an integer coefficient. *)
Definition toString (n : Z) : string := NilZero.string_of_int (Z.to_int n).

(** The [for] loops of [getFormula]: each term is appended with a
    trailing [" + "]. *)
Definition appendTerms (output : string) (side : list molFormula) : string :=
  fold_left
    (fun out mf =>
       (out ++ ((toString (molCoeff mf) ++ mol_formula mf) ++ " + "))%string)
    side output.

(** [Reaction.getFormula].  [substring(0, n)] takes [n] as 0 when it is
    negative. *)
Definition getFormula (rx : Reaction) : string :=
  let output := appendTerms "" (reactants rx) in
  let output := substring 0 (String.length output - 2) output in
  let output :=
    (output ++ (if reversible rx then "-> " else "<=> "))%string in
  let output := appendTerms output (products rx) in
  substring 0 (String.length output - 2) output.

(** The terms of one side of a rule, joined by [" + "]. *)
Definition joinTerms (side : list molFormula) : string :=
  String.concat " + "
    (map (fun mf => (toString (molCoeff mf) ++ mol_formula mf)%string) side).

Section Handlers.
Context {num : Type} {NUM : Number num}.
Local Open Scope num_scope.

(** [getAvgSpeed] of the objects behind [particles]. *)
Definition getAvgSpeed (h : list (Particle num)) (particles : list ref)
  : num :=
  foldl (fun totalSpeed r =>
           match h !! r with
           | Some p => totalSpeed + getMagnitude (vel p)
           | None => totalSpeed
           end) #0 particles
  / #(Z.of_nat (length particles)).

(** The function [changeTemperature(particles, temperature)]; the method
    of [Particle] has the name in this file. *)
Definition changeTemperatureAll (particles : list ref) (temp : num)
    (w : World num) : World num :=
  mkWorld
    (foldl (fun h r => alter (fun p => changeTemperature p temp) r h)
           (heap w) particles)
    (particleList w) (particleCreationQueue w) (containerPaused w)
    temp (randomCalls w).

(** [tempSlider.oninput], with the slider's value as a number. *)
Definition tempSlider_oninput (value : num) (w : World num) : World num :=
  let newTemp := #20 * value in
  let w := changeTemperatureAll (particleList w) newTemp w in
  changeTemperatureAll (particleCreationQueue w) newTemp w.

(** [particleList.push(createParticle(f, position, containerTemperature))],
    as the start-up loop and the mouse handler do it: the particle is
    created with the default [cooldownDist = 0]. *)
Definition pushNewParticle (E : Env num) (f : string)
    (position : Vector num) (w : World num) : World num :=
  mkWorld
    (heap w ++ [createParticle E f position (containerTemperature w) #0
                               (randomCalls w)])
    (particleList w ++ [length (heap w)])
    (particleCreationQueue w) (containerPaused w) (containerTemperature w)
    (2 + randomCalls w)%nat.

(** The [mousedown] listener of the canvas, at the cursor position. *)
Definition canvas_mousedown (E : Env num) (mousePos : Vector num)
    (w : World num) : World num :=
  pushNewParticle E "A" mousePos w.

(** [pauseButton.onclick]; the button's label is output. *)
Definition pauseButton_onclick (w : World num) : World num :=
  mkWorld (heap w) (particleList w) (particleCreationQueue w)
          (negb (containerPaused w)) (containerTemperature w) (randomCalls w).

(** The state the script sets up before the first frame: ten A at
    (400, 400), temperature 2, not paused. *)
Fixpoint seed (E : Env num) (count : nat) (w : World num) : World num :=
  match count with
  | O => w
  | S k => seed E k (pushNewParticle E "A" (mkVector #400 #400) w)
  end.

Definition initialWorld (E : Env num) : World num :=
  seed E 10 (mkWorld [] [] [] false #2 0).

(** What happens between two returns to the browser: a frame of the
    timer, or one of the three listeners.  Each runs to its end. *)
Inductive Event : Type :=
| Frame
| MouseDown (mousePos : Vector num)
| TempSlider (value : num)
| PauseClick.

Definition handle (E : Env num) (w : World num) (ev : Event) : World num :=
  match ev with
  | Frame => updateFrame E w
  | MouseDown mousePos => canvas_mousedown E mousePos w
  | TempSlider value => tempSlider_oninput value w
  | PauseClick => pauseButton_onclick w
  end.

Definition run (E : Env num) (events : list Event) (w : World num)
  : World num :=
  foldl (handle E) w events.

(** *** Predicates for the statements *)

(** The number of particles one side of a rule stands for. *)
Definition total (side : list molFormula) : nat :=
  foldr (fun mf n => (Z.to_nat (molCoeff mf) + n)%nat) O side.

(** The species one side of a rule names, coefficient-many times each. *)
Definition speciesOf (side : list molFormula) : list string :=
  flat_map (fun mf => replicate (Z.to_nat (molCoeff mf)) (mol_formula mf))
           side.

(** Whether the object behind a reference is in the state ["removed"]. *)
Definition isRemoved (h : list (Particle num)) (r : ref) : bool :=
  match h !! r with
  | Some p => state_eqb (state p) removed
  | None => false
  end.

(** A particle as the program makes them: of radius [RADIUS], and of
    species A or of a species that some rule names. *)
Definition knownParticle (E : Env num) (p : Particle num) : Prop :=
  radius p = RADIUS
  /\ (formula p = "A"%string
      \/ exists rx, rx ∈ reactionList E
           /\ formula p ∈ map mol_formula (reactants rx ++ products rx)).

(** What every state the program reaches satisfies: references are
    valid, no object is held twice by the live list and the queue, and
    every particle is a known one. *)
Definition reachableInv (E : Env num) (w : World num) : Prop :=
  wf w
  /\ NoDup (particleList w ++ particleCreationQueue w)
  /\ Forall (knownParticle E) (heap w).

(** A particle that differs from [p] at most by having been marked
    removed. *)
Definition sameOrRemoved (p p' : Particle num) : Prop :=
  p' = p \/ p' = set_state p removed.

End Handlers.

Arguments Event : clear implicits.

(** *** The concentration sliders of [src/index.js] *)

Section Concentration.
Context {num : Type} {NUM : Number num}.
Local Open Scope num_scope.

(** What the functions below take from the host besides [Env]:
    [Math.floor], [Math.ceil] and the rectangle [CANVAS_DIMENSIONS]. *)
Record Host : Type := mkHost {
  Math_floor : num -> num;
  Math_ceil : num -> num;
  CANVAS_DIMENSIONS : dimensions num
}.

(** [getRandInt], at the [n]-th call of [Math.random]. *)
Definition getRandInt (E : Env num) (H : Host) (n : nat) (min max : num)
  : num :=
  let min := Math_ceil H min in
  let max := Math_floor H max in
  Math_floor H (Math_random E n * (max - min + #1)) + min.

(** [getRandPos]: two calls of [Math.random], x first. *)
Definition getRandPos (E : Env num) (H : Host) (n : nat)
    (d : dimensions num) : Vector num :=
  mkVector (getRandInt E H n #0 (width d))
           (getRandInt E H (S n) #0 (height d)).

(** The test both [countSpecies] and the filter of [changeConcentration]
    make: not removed, and of the species. *)
Definition ofSpecies (h : list (Particle num)) (f : string) (r : ref)
  : bool :=
  match h !! r with
  | Some p => negb (state_eqb (state p) removed) && String.eqb (formula p) f
  | None => false
  end.

(** [countSpecies]. *)
Definition countSpecies (h : list (Particle num)) (particles : list ref)
    (f : string) : nat :=
  foldl (fun count r => if ofSpecies h f r then (count + 1)%nat else count)
        O particles.

(** How a call ends: it returns, or it throws with the state as it is
    then. *)
Inductive Outcome : Type :=
| Returned (w : World num)
| Threw (w : World num).

(** The first [while] of [changeConcentration]: the head of
    [speciesParticles] is marked removed and shifted out while the array
    is longer than the target.  On an empty array that is still longer
    (a negative target), [speciesParticles[0]] is [undefined] and the
    assignment to its [state] throws: the result is then [None] beside
    the heap. *)
Fixpoint removeExcess (targetAmount : Z) (speciesParticles : list ref)
    (h : list (Particle num)) : list (Particle num) * option (list ref) :=
  match speciesParticles with
  | [] => if (0 >? targetAmount)%Z then (h, None) else (h, Some [])
  | r :: rest =>
    if (Z.of_nat (length speciesParticles) >? targetAmount)%Z
    then removeExcess targetAmount rest
                      (alter (fun p => set_state p removed) r h)
    else (h, Some speciesParticles)
  end.

(** The second [while]: one new particle per missing one, at a random
    position, pushed onto the queue.  [getRandPos] is evaluated before
    [createParticle] runs: four calls of [Math.random] per particle. *)
Fixpoint addMissing (E : Env num) (H : Host) (f : string) (missing : nat)
    (w : World num) : World num :=
  match missing with
  | O => w
  | S k =>
    let position := getRandPos E H (randomCalls w) (CANVAS_DIMENSIONS H) in
    let particle :=
      createParticle E f position (containerTemperature w) #0
                     (2 + randomCalls w)%nat in
    addMissing E H f k
      (mkWorld (heap w ++ [particle]) (particleList w)
               (particleCreationQueue w ++ [length (heap w)])
               (containerPaused w) (containerTemperature w)
               (4 + randomCalls w)%nat)
  end.

(** [changeConcentration], for an integer target. *)
Definition changeConcentration (E : Env num) (H : Host) (targetAmount : Z)
    (f : string) (w : World num) : Outcome :=
  let speciesParticles :=
    List.filter (ofSpecies (heap w) f) (particleList w) in
  if (Z.of_nat (length speciesParticles) =? targetAmount)%Z then Returned w
  else
    let '(h, remaining) := removeExcess targetAmount speciesParticles (heap w) in
    let w1 := mkWorld h (particleList w) (particleCreationQueue w)
                      (containerPaused w) (containerTemperature w)
                      (randomCalls w) in
    match remaining with
    | None => Threw w1
    | Some speciesParticles =>
      Returned
        (addMissing E H f
           (Z.to_nat (targetAmount - Z.of_nat (length speciesParticles))) w1)
    end.

End Concentration.

Arguments Host : clear implicits.
Arguments Outcome : clear implicits.

(** *** Exact arithmetic *)

Definition xlift1 (f : R -> R) (a : xreal) : xreal :=
  match a with
  | Some u => Some (f u)
  | None => None
  end.

(** A host whose [Math.cos], [Math.sin] and [Math.PI] are the real ones
    and whose [Math.random] returns the given real numbers. *)
Definition idealEnv (random : nat -> R) (c : dimensions xreal)
    (rules : list Reaction) : Env xreal :=
  mkEnv (fun n => Some (random n)) (xlift1 cos) (xlift1 sin) (Some PI)
        c rules.

(** A host whose [Math.floor] and [Math.ceil] are the real ones. *)
Definition idealHost (c : dimensions xreal) : Host xreal :=
  mkHost (xlift1 (fun u => IZR (Int_part u)))
         (xlift1 (fun u => (- IZR (Int_part (- u)))%R)) c.

(** A vector and a particle whose numbers are all real. *)
Definition realVector (v : Vector xreal) : Prop :=
  exists a b : R, v = mkVector (Some a) (Some b).

Definition realCanvas (c : dimensions xreal) : Prop :=
  exists hh ww : R, c = mkDimensions (Some hh) (Some ww).

Definition realParticle (p : Particle xreal) : Prop :=
  realVector (pos p) /\ realVector (vel p)
  /\ (exists r : R, radius p = Some r)
  /\ (exists d : R, cooldownDist p = Some d).

(** *** Binary64 values and rounding *)

(** The real number a finite binary64 value stands for: the signed
    mantissa times the power of 2; 0 for the others. *)
Definition SF2R (f : spec_float) : R :=
  match f with
  | S754_finite s m e =>
    (IZR (if s then Z.neg m else Z.pos m)
     * (if (0 <=? e)%Z then IZR (2 ^ e) else / IZR (2 ^ (- e))))%R
  | _ => 0%R
  end.

Definition value (f : float) : R := SF2R (Prim2SF f).

(** Neither NaN nor an infinity. *)
Definition finite (f : float) : bool :=
  match Prim2SF f with
  | S754_zero _ | S754_finite _ _ _ => true
  | S754_infinity _ | S754_nan => false
  end.

(** [v] is within the relative error [u] of [exact]. *)
Definition within (u : R) (exact v : R) : Prop :=
  (Rabs (v - exact) <= u * Rabs exact)%R.

(** The result [f] of an operation is a number, within the relative
    error [u] of the exact result [exact] of the operation on the values
    of its operands: what IEEE 754 rounding gives, with [u = 2^-53],
    when the result neither underflows nor overflows. *)
Definition rounds (u : R) (exact : R) (f : float) : Prop :=
  finite f = true /\ within u exact (value f).

(** [b] is [a] up to [n] such roundings: each of the two is at least the
    other times [(1 - u)^n]. *)
Definition near (u : R) (n : nat) (a b : R) : Prop :=
  (a * (1 - u) ^ n <= b /\ b * (1 - u) ^ n <= a)%R.

(** Every operation of [v.getMagnitude() / t] rounds: the two squares,
    their sum, the root and the quotient. *)
Definition ratioRounds (u : R) (v : Vector float) (t : float) : Prop :=
  let xx := (x v * x v)%float in
  let yy := (y v * y v)%float in
  rounds u (value (x v) * value (x v)) xx
  /\ rounds u (value (y v) * value (y v)) yy
  /\ rounds u (value xx + value yy) (xx + yy)%float
  /\ rounds u (sqrt (value (xx + yy)%float)) (getMagnitude v)
  /\ rounds u (value (getMagnitude v) / value t) (getMagnitude v / t)%float.

(** Every further operation of [changeTemperature] rounds: the product
    [speedScaler * temperature], the two quotients of [getNormalized]
    when the magnitude is not 0, and the two products of [getScaled]. *)
Definition rescaleRounds (u : R) (p : Particle float) (newTemp : float)
  : Prop :=
  let mag := getMagnitude (vel p) in
  let speedScaler := (mag / temperature p)%float in
  let scaler := (speedScaler * newTemp)%float in
  let unit := getNormalized (vel p) in
  rounds u (value speedScaler * value newTemp) scaler
  /\ ((mag =? 0)%float = false ->
      rounds u (value (x (vel p)) / value mag) (x (vel p) / mag)%float
      /\ rounds u (value (y (vel p)) / value mag) (y (vel p) / mag)%float)
  /\ rounds u (value scaler * value (x unit)) (scaler * x unit)%float
  /\ rounds u (value scaler * value (y unit)) (scaler * y unit)%float.

(** * Theorems *)

(** ** Stoichiometric matching *)

Section MatchingFacts.
Context {num : Type} {NUM : Number num}.
Implicit Types (h : list (Particle num)) (cands acc rest : list ref).
Implicit Types (side : list molFormula).

Lemma take_plus_drop {A} (l : list A) (n k : nat) :
  take (n + k) l = take n l ++ take k (drop n l).
Proof.
  revert l; induction n as [|n IH]; intros [|a l]; simpl; auto.
  - now destruct k.
  - now rewrite IH.
Qed.

(** What the matching loop hands back is a split of the candidate array
    at some index: the consumed particles are its first entries, whatever
    their state or species, and the rest is left in the array. *)
Lemma consumeLoop_shape h side : forall cands acc res rest,
  consumeLoop h side cands acc = (res, rest) ->
  exists k, rest = drop k cands /\
            forall c, res = Some c -> c = acc ++ take k cands.
Proof.
  induction side as [|mf side IH]; simpl; intros cands acc res rest Hrun.
  - inversion Hrun; subst. exists O. split; [reflexivity|].
    intros c [= <-]. now rewrite take_0, app_nil_r.
  - destruct (Z.of_nat _ <? molCoeff mf)%Z.
    + inversion Hrun; subst. exists O. split; [reflexivity|]. discriminate.
    + apply IH in Hrun as (k & -> & Hc).
      exists (Z.to_nat (molCoeff mf) + k)%nat. split.
      * now rewrite drop_drop.
      * intros c Hres. rewrite (Hc c Hres), take_plus_drop.
        now rewrite app_assoc.
Qed.

Lemma available_drop h f cands (n : nat) :
  (available h f (drop n cands) <= available h f cands)%nat.
Proof.
  unfold available.
  rewrite <- (take_drop n cands) at 2.
  rewrite List.filter_app, length_app. lia.
Qed.

(** All or nothing, the part that holds: a species short of its
    coefficient among the candidates makes the match fail.  The function
    reads the heap and returns none, so no particle changes state. *)
Lemma consumeLoop_insufficient h side : forall cands acc,
  Exists (fun mf =>
            (Z.of_nat (available h (mol_formula mf) cands) < molCoeff mf)%Z)
         side ->
  fst (consumeLoop h side cands acc) = None.
Proof.
  induction side as [|mf side IH]; intros cands acc Hshort.
  - inversion Hshort.
  - simpl. fold (available h (mol_formula mf) cands).
    destruct (Z.ltb_spec (Z.of_nat (available h (mol_formula mf) cands))
                         (molCoeff mf)) as [Hlt|Hge]; [reflexivity|].
    apply IH. inversion Hshort as [? ? Hhd|? ? Htl]; subst; [lia|].
    eapply Exists_impl; [exact Htl|]. cbv beta. intros mf' Hlt.
    pose proof (available_drop h (mol_formula mf') cands
                  (Z.to_nat (molCoeff mf))). lia.
Qed.

(** With one required species the condition on the counts decides the
    match. *)
Lemma consumeLoop_single h mf cands :
  satisfiable h [mf] cands ->
  consumeLoop h [mf] cands [] =
    (Some (take (Z.to_nat (molCoeff mf)) cands),
     drop (Z.to_nat (molCoeff mf)) cands).
Proof.
  intros Hsat. inversion Hsat as [|? ? Hmf _]; subst.
  simpl. fold (available h (mol_formula mf) cands).
  destruct (Z.ltb_spec (Z.of_nat (available h (mol_formula mf) cands))
                       (molCoeff mf)); [lia|reflexivity].
Qed.

(** The forward direction is tried first: when its match succeeds, it is
    the one that fires, whatever the reverse match would give. *)
Lemma attemptReaction_forward_first (E : Env num) rx cands temp
    (w : World num) c rest :
  getFwdConsumedParticles (heap w) rx cands = (Some c, rest) ->
  attemptReaction E rx cands temp w =
    (true, rest,
     fire c (getFwdProducedParticles E rx
               (getAvgPos (removeParticles c (heap w)) c) temp
               (randomCalls w)) w).
Proof. intros Hfwd. unfold attemptReaction. now rewrite Hfwd. Qed.

(** So a rule with one reactant species fires forward whenever the
    forward condition holds on the candidates. *)
Lemma attemptReaction_single_reactant (E : Env num) rx mf cands temp
    (w : World num) :
  reactants rx = [mf] ->
  satisfiable (heap w) (reactants rx) cands ->
  let consumed := take (Z.to_nat (molCoeff mf)) cands in
  attemptReaction E rx cands temp w =
    (true, drop (Z.to_nat (molCoeff mf)) cands,
     fire consumed (getFwdProducedParticles E rx
                      (getAvgPos (removeParticles consumed (heap w)) consumed)
                      temp (randomCalls w)) w).
Proof.
  intros Hone Hsat consumed. apply attemptReaction_forward_first.
  unfold getFwdConsumedParticles. rewrite Hone in *.
  now apply consumeLoop_single.
Qed.

(** A call that reports failure has changed no particle and queued
    nothing. *)
Lemma attemptReaction_false_unchanged (E : Env num) rx cands temp
    (w w' : World num) rest :
  attemptReaction E rx cands temp w = (false, rest, w') -> w' = w.
Proof.
  unfold attemptReaction.
  destruct (getFwdConsumedParticles (heap w) rx cands) as [[c|] rest1];
    [discriminate|].
  destruct (getRevConsumedParticles (heap w) rx rest1) as [[c|] rest2];
    destruct (reversible rx); try discriminate; now intros [= _ <-].
Qed.

(** A rule that is not reversible and whose forward match fails changes
    no state and reports failure; the reverse match is still run, on the
    caller's array. *)
Lemma attemptReaction_irreversible (E : Env num) rx cands temp (w : World num) :
  reversible rx = false ->
  fst (getFwdConsumedParticles (heap w) rx cands) = None ->
  attemptReaction E rx cands temp w =
    (false,
     snd (getRevConsumedParticles (heap w) rx
            (snd (getFwdConsumedParticles (heap w) rx cands))),
     w).
Proof.
  intros Hrev Hfwd. unfold attemptReaction.
  destruct (getFwdConsumedParticles (heap w) rx cands) as [fwd rest].
  simpl in Hfwd; subst fwd. simpl.
  destruct (getRevConsumedParticles (heap w) rx rest) as [rev rest'].
  rewrite Hrev. reflexivity.
Qed.

End MatchingFacts.

(** C1, at a failing input.  Claim: a non-null consumed list holds only
    active particles of a required species, coefficient-many per species.
    Code: for [2A <=> 2B] and the candidates B, A, A the forward match
    returns the first two candidates, the B and one A; in a tick where
    the three overlap, that B and that A are removed and two B are
    queued. *)
Theorem getFwdConsumedParticles_takes_array_head :
  let h := restingHeap ["B"; "A"; "A"]%string in
  getFwdConsumedParticles h rxn1 [0; 1; 2]%nat = (Some [0; 1]%nat, [2]%nat)
  /\ formula <$> h !! 0%nat = Some "B"%string
  /\ matches h "A"%string 0%nat = false
  /\ map state (heap (updateFrame (hostEnv square800 [rxn1]) (worldOf h)))
     = [removed; removed; active; cooldown; cooldown].
Proof. vm_compute. repeat split; reflexivity. Qed.

(** C2, at a failing input.  Claim: a failed match leaves the caller's
    candidate list as it was.  Code: for [A + B -> C] and the candidates
    A, C (no B) the match returns null and the caller's array has lost
    its first entry; so with the rules [A + B -> C] and [2A <=> 2B], two
    overlapping A never react, which they do under [2A <=> 2B] alone. *)
Theorem failed_match_truncates_candidates :
  let h := restingHeap ["A"; "C"]%string in
  available h "B"%string [0; 1]%nat = 0%nat
  /\ getFwdConsumedParticles h rxnABC [0; 1]%nat = (None, [1]%nat)
  /\ (let w := updateFrame (hostEnv square800 [rxnABC; rxn1])
                           (worldOf (restingHeap ["A"; "A"]%string)) in
      map state (heap w) = [active; active]
      /\ particleCreationQueue w = [])
  /\ map state (heap (updateFrame (hostEnv square800 [rxn1])
                                  (worldOf (restingHeap ["A"; "A"]%string))))
     = [removed; removed; cooldown; cooldown].
Proof. vm_compute. repeat split; reflexivity. Qed.

(** C3, at a failing input.  Claim: when the conditions of both
    directions hold on the candidates, the forward direction fires.
    Code: for [A + B <=> C + D] and the candidates B, A, C, D both
    conditions hold, the forward match fails after taking the B for the
    A, and the reverse direction fires: the A and the C are removed and
    an A and a B are queued. *)
Theorem reverse_fires_though_forward_satisfiable :
  let h := restingHeap ["B"; "A"; "C"; "D"]%string in
  let cands := [0; 1; 2; 3]%nat in
  let E := hostEnv square800 [rxnABCD] in
  satisfiable h (reactants rxnABCD) cands
  /\ satisfiable h (products rxnABCD) cands
  /\ getFwdConsumedParticles h rxnABCD cands = (None, [1; 2; 3]%nat)
  /\ (let '(ok, rest, w) := attemptReaction E rxnABCD cands 2%float (worldOf h) in
      ok = true
      /\ map state (heap w) = [active; removed; removed; active; cooldown; cooldown]
      /\ map formula (heap w) = ["B"; "A"; "C"; "D"; "A"; "B"]%string
      /\ particleCreationQueue w = [4; 5]%nat).
Proof.
  cbv zeta. split; [|split].
  - repeat constructor; vm_compute; discriminate.
  - repeat constructor; vm_compute; discriminate.
  - vm_compute. repeat split; reflexivity.
Qed.

(** C4, at a failing input.  Claim: a rule that is not reversible runs no
    reverse match and leaves the candidate list as the forward attempt
    left it.  Code: for [A -> B] and the single candidate B the forward
    match leaves the array alone, and the reverse match, run before the
    flag is read, empties it; so with the rules [A -> B] and [2B -> C],
    two overlapping B never react, which they do under [2B -> C]
    alone. *)
Theorem irreversible_rule_runs_reverse_match :
  let h := restingHeap ["B"]%string in
  let E := hostEnv square800 [rxnAB] in
  getFwdConsumedParticles h rxnAB [0]%nat = (None, [0]%nat)
  /\ attemptReaction E rxnAB [0]%nat 2%float (worldOf h) = (false, [], worldOf h)
  /\ (let w := updateFrame (hostEnv square800 [rxnAB; rxnBBC])
                           (worldOf (restingHeap ["B"; "B"]%string)) in
      map state (heap w) = [active; active]
      /\ particleCreationQueue w = [])
  /\ map state (heap (updateFrame (hostEnv square800 [rxnBBC])
                                  (worldOf (restingHeap ["B"; "B"]%string))))
     = [removed; removed; cooldown].
Proof. vm_compute. repeat split; reflexivity. Qed.

(** ** Kinematics *)

Section UpdateFacts.
Context {num : Type} {NUM : Number num}.
Local Open Scope num_scope.

(** [update] stores the position and velocity the boundary tests leave. *)
Lemma update_pos_vel (c : dimensions num) (p : Particle num) :
  (pos (update c p), vel (update c p)) =
  reflect c (radius p) (getAddition (pos p) (vel p)) (getCopy (vel p)).
Proof.
  unfold update.
  destruct (reflect c (radius p) _ _) as [newPos newVel].
  now destruct (_ || _).
Qed.

(** The tests of the y axis do not touch the x components and the other
    way round. *)
Lemma reflect_x (c : dimensions num) (r : num) (newPos newVel : Vector num) :
  let out := reflect c r newPos newVel in
  let '(px, vx) :=
    if x newPos - r <? #0 then (r, x newVel * #(-1))
    else (x newPos, x newVel) in
  (x (fst out), x (snd out)) =
  if px + r >? width c then (width c - r, vx * #(-1)) else (px, vx).
Proof.
  unfold reflect.
  destruct (x newPos - r <? #0); simpl;
    destruct (_ >? width c); simpl;
    destruct (_ <? #0); simpl;
    destruct (_ >? height c); reflexivity.
Qed.

Lemma reflect_y (c : dimensions num) (r : num) (newPos newVel : Vector num) :
  let out := reflect c r newPos newVel in
  let '(py, vy) :=
    if y newPos - r <? #0 then (r, y newVel * #(-1))
    else (y newPos, y newVel) in
  (y (fst out), y (snd out)) =
  if py + r >? height c then (height c - r, vy * #(-1)) else (py, vy).
Proof.
  unfold reflect.
  destruct (x newPos - r <? #0); simpl;
    destruct (_ >? width c); simpl;
    destruct (y newPos - r <? #0); simpl;
    destruct (_ >? height c); reflexivity.
Qed.

End UpdateFacts.

(** C7, amended.  In a container at least one particle diameter wide and
    high (the tests [radius + radius > width] and [radius + radius >
    height] are false), [update] clamps and reflects each axis on its
    own: a tentative position past the left (top) wall ends at [radius]
    with that velocity component negated; one past the right (bottom)
    wall and not past the opposite one ends at the size minus the radius
    with that component negated.  A corner crossing meets one case of
    each axis in the same call. *)
Theorem update_reflects_at_walls {num : Type} {NUM : Number num}
    (c : dimensions num) (p : Particle num) :
  let t := getAddition (pos p) (vel p) in
  let p' := update c p in
  ((x t - radius p <? #0)%num = true ->
   (radius p + radius p >? width c)%num = false ->
   x (pos p') = radius p /\ x (vel p') = (x (vel p) * #(-1))%num)
  /\ ((x t - radius p <? #0)%num = false ->
      (x t + radius p >? width c)%num = true ->
      x (pos p') = (width c - radius p)%num
      /\ x (vel p') = (x (vel p) * #(-1))%num)
  /\ ((y t - radius p <? #0)%num = true ->
      (radius p + radius p >? height c)%num = false ->
      y (pos p') = radius p /\ y (vel p') = (y (vel p) * #(-1))%num)
  /\ ((y t - radius p <? #0)%num = false ->
      (y t + radius p >? height c)%num = true ->
      y (pos p') = (height c - radius p)%num
      /\ y (vel p') = (y (vel p) * #(-1))%num).
Proof.
  intros t p'.
  pose proof (update_pos_vel c p) as Hpv.
  pose proof (reflect_x c (radius p) t (getCopy (vel p))) as Hx.
  pose proof (reflect_y c (radius p) t (getCopy (vel p))) as Hy.
  fold t in Hpv. rewrite <- Hpv in Hx, Hy. cbv zeta in Hx, Hy.
  simpl fst in Hx, Hy. simpl snd in Hx, Hy. fold p' in Hx, Hy.
  simpl in Hx, Hy. subst t. simpl.
  split; [|split; [|split]]; intros H1 H2;
    first [ rewrite H1, H2 in Hx; now inversion Hx
          | rewrite H1, H2 in Hy; now inversion Hy ].
Qed.

Lemma update_reflects_at_walls_witness :
  let p' := update square800 (particleAt "A" 5 3 (-10) (-10)) in
  (x (pos p') = 10 /\ x (vel p') = 10)%float
  /\ (y (pos p') = 10 /\ y (vel p') = 10)%float.
Proof.
  destruct (update_reflects_at_walls square800 (particleAt "A" 5 3 (-10) (-10)))
    as (Hleft & _ & Htop & _).
  split; [apply Hleft | apply Htop]; reflexivity.
Defined.

(** C7 as stated fails in a container narrower than the particle: the
    tentative position is past the left wall, the left test puts the
    particle at [radius], the right test then moves it to [width -
    radius] and negates the velocity a second time. *)
Lemma narrow_container_left_crossing :
  let c := mkDimensions 100%float 15%float in
  let p := particleAt "A" 5 50 (-10) 0 in
  let p' := update c p in
  (x (getAddition (pos p) (vel p)) - radius p <? 0)%float = true
  /\ x (pos p') = 5%float
  /\ (x (pos p') =? radius p)%float = false
  /\ x (vel p') = x (vel p).
Proof. vm_compute. repeat split; reflexivity. Qed.

(** [a <= 0] excludes [a > 0] in binary64. *)
Lemma float_leb_zero_not_gt (a : float) :
  (a <=? 0)%float = true -> (0 <? a)%float = false.
Proof.
  rewrite leb_spec, ltb_spec.
  change (Prim2SF 0) with (S754_zero false).
  destruct (Prim2SF a) as [s| s | |s m e]; try destruct s;
    simpl; intros; try reflexivity; discriminate.
Qed.

(** C10.  A particle whose cooldown budget is at most 0 leaves [update]
    active with budget 0, whatever its state was, ["removed"] included. *)
Theorem update_makes_active (c : dimensions float) (p : Particle float) :
  (cooldownDist p <=? 0)%float = true ->
  state (update c p) = active /\ cooldownDist (update c p) = 0%float.
Proof.
  intros Hle. unfold update.
  destruct (reflect c (radius p) _ _) as [newPos newVel].
  change (cooldownDist p >? #0)%num with (0 <? cooldownDist p)%float.
  rewrite (float_leb_zero_not_gt _ Hle).
  change (cooldownDist p <=? #0)%num with (cooldownDist p <=? 0)%float.
  rewrite Hle. simpl. split; reflexivity.
Qed.

Lemma update_makes_active_witness :
  let p := set_state (particleAt "A" 400 400 1 0) removed in
  state p = removed /\ state (update square800 p) = active
  /\ cooldownDist (update square800 p) = 0%float.
Proof.
  split; [reflexivity|].
  apply (update_makes_active square800
           (set_state (particleAt "A" 400 400 1 0) removed)).
  reflexivity.
Defined.

(** ** The pause flag *)

(** C9.  With the pause flag set, any number of ticks leaves the whole
    state as it was: the live list, the queue and every field of every
    particle. *)
Theorem updateFrame_paused {num : Type} {NUM : Number num}
    (E : Env num) (w : World num) (n : nat) :
  containerPaused w = true ->
  Nat.iter n (updateFrame E) w = w.
Proof.
  intros Hp. induction n as [|n IH]; simpl; [reflexivity|].
  rewrite IH. unfold updateFrame. now rewrite Hp.
Qed.

Lemma updateFrame_paused_witness :
  let w := mkWorld (restingHeap ["A"; "A"; "B"]%string) [0; 1]%nat [2]%nat
                   true 2%float 0 in
  Nat.iter 3 (updateFrame (hostEnv square800 [rxn1])) w = w.
Proof.
  apply (updateFrame_paused (hostEnv square800 [rxn1])
           (mkWorld (restingHeap ["A"; "A"; "B"]%string) [0; 1]%nat [2]%nat
                    true 2%float 0) 3).
  reflexivity.
Defined.

(** ** Temperature *)

(** For any arithmetic: nothing happens at temperature 0, and otherwise
    the new temperature is stored and only the velocity changes with it. *)
Lemma changeTemperature_at_zero {num : Type} {NUM : Number num}
    (p : Particle num) (newTemp : num) :
  (temperature p =? #0)%num = true -> changeTemperature p newTemp = p.
Proof. intros Hz. unfold changeTemperature. now rewrite Hz. Qed.

Lemma changeTemperature_stores {num : Type} {NUM : Number num}
    (p : Particle num) (newTemp : num) :
  (temperature p =? #0)%num = false ->
  let p' := changeTemperature p newTemp in
  temperature p' = newTemp
  /\ formula p' = formula p /\ radius p' = radius p /\ pos p' = pos p
  /\ state p' = state p /\ cooldownDist p' = cooldownDist p.
Proof. intros Hz. unfold changeTemperature. rewrite Hz. now repeat split. Qed.

(** The magnitude of a vector with real components is its Euclidean
    norm; the root is never taken of a negative number. *)
Lemma xreal_getMagnitude (vx vy : R) :
  getMagnitude (mkVector (Some vx) (Some vy)) = Some (sqrt (vx * vx + vy * vy)).
Proof.
  unfold getMagnitude. simpl.
  destruct (Rlt_dec (vx * vx + vy * vy) 0) as [Hneg|_]; [nra|reflexivity].
Qed.

Lemma xreal_div (a b : R) : b <> 0%R -> (Some a / Some b)%num = Some (a / b)%R.
Proof. intros Hb. simpl. now destruct (Req_dec_T b 0). Qed.

(** Scaling a unit vector by a non-negative factor gives that length. *)
Lemma scaled_norm (s vx vy m : R) :
  (0 <= s)%R -> (0 < m)%R -> (m * m = vx * vx + vy * vy)%R ->
  sqrt (s * (vx / m) * (s * (vx / m)) + s * (vy / m) * (s * (vy / m))) = s.
Proof.
  intros Hs Hm Hsq.
  replace (s * (vx / m) * (s * (vx / m)) + s * (vy / m) * (s * (vy / m)))%R
    with (s * s)%R.
  - now apply sqrt_square.
  - field_simplify_eq; [nra|lra].
Qed.

(** In exact arithmetic [changeTemperature] does nothing to a particle of
    temperature 0.  Otherwise the temperature becomes [newTemp]; and,
    when [newTemp] is not 0 and has the sign of the old temperature, the
    speed over the temperature is the same number before and after,
    every quotient on the way being by a non-zero number. *)
Lemma changeTemperature_ratio_exact (p : Particle xreal) (newTemp : xreal) :
  (temperature p = Some 0%R -> changeTemperature p newTemp = p)
  /\ (forall t t' vx vy : R,
        temperature p = Some t ->
        newTemp = Some t' ->
        vel p = mkVector (Some vx) (Some vy) ->
        (0 < t * t')%R ->
        let p' := changeTemperature p newTemp in
        let k := (sqrt (vx * vx + vy * vy) / t)%R in
        temperature p' = Some t'
        /\ (getMagnitude (vel p) / temperature p)%num = Some k
        /\ (getMagnitude (vel p') / temperature p')%num = Some k).
Proof.
  split.
  - intros Ht. unfold changeTemperature. rewrite Ht. simpl.
    now destruct (Req_dec_T 0 0).
  - intros t t' vx vy Ht -> Hv Hsign p' k.
    assert (Ht0 : t <> 0%R) by (intros ->; lra).
    assert (Ht'0 : t' <> 0%R) by (intros ->; lra).
    set (m := sqrt (vx * vx + vy * vy)).
    assert (Hm0 : (0 <= m)%R) by apply sqrt_pos.
    assert (Hmm : (m * m = vx * vx + vy * vy)%R)
      by (apply sqrt_sqrt; nra).
    assert (Hq : (0 < t' / t)%R).
    { replace (t' / t)%R with (t * t' * (/ t * / t))%R by (now field).
      pose proof (Rinv_neq_0_compat t Ht0) as Hinv.
      apply Rmult_lt_0_compat; [exact Hsign|nra]. }
    subst p'. unfold changeTemperature. rewrite Ht, Hv.
    change (Some t =? #0)%num
      with (if Req_dec_T t 0 then true else false).
    destruct (Req_dec_T t 0) as [|_]; [contradiction|].
    cbv zeta. cbn [temperature vel].
    rewrite !xreal_getMagnitude. fold m.
    rewrite (xreal_div m t Ht0). fold k.
    split; [reflexivity|]. split; [reflexivity|].
    unfold getNormalized. rewrite xreal_getMagnitude. fold m.
    change (Some m =? #0)%num
      with (if Req_dec_T m 0 then true else false).
    destruct (Req_dec_T m 0) as [Hz|Hnz].
    + unfold getScaled. cbn [x y]. simpl nmul.
      rewrite xreal_getMagnitude.
      match goal with
      | |- context [sqrt ?e] => replace e with 0%R by ring
      end.
      rewrite sqrt_0, (xreal_div 0 t' Ht'0).
      f_equal. unfold k. fold m. rewrite Hz. now field.
    + cbn [x y]. rewrite !(xreal_div _ m Hnz).
      unfold getScaled. cbn [x y]. simpl nmul.
      rewrite xreal_getMagnitude.
      rewrite (scaled_norm (m / t * t') vx vy m); [| |lra|exact Hmm].
      * rewrite (xreal_div _ t' Ht'0). f_equal. unfold k. fold m. now field.
      * replace (m / t * t')%R with (m * (t' / t))%R by (now field).
        apply Rmult_le_pos; lra.
Qed.


(** ** Relative error *)

Section RoundingError.
Local Open Scope R_scope.
Variable u : R.
Hypothesis Hu : 0 <= u < 1.

Lemma shrink_pos (n : nat) : 0 < (1 - u) ^ n.
Proof. apply pow_lt. lra. Qed.

Lemma shrink_le_1 (n : nat) : (1 - u) ^ n <= 1.
Proof.
  induction n as [|n IH]; simpl; [lra|].
  pose proof (shrink_pos n). nra.
Qed.

Lemma near_refl (a : R) : near u 0 a a.
Proof. unfold near. simpl. lra. Qed.

Lemma near_sym (n : nat) (a b : R) : near u n a b -> near u n b a.
Proof. unfold near. tauto. Qed.

Lemma near_nonneg (n : nat) (a b : R) : 0 <= a -> near u n a b -> 0 <= b.
Proof.
  intros Ha [H1 _]. pose proof (shrink_pos n). nra.
Qed.

Lemma near_zero (n : nat) (b : R) : near u n 0 b -> b = 0.
Proof.
  intros [H1 H2]. pose proof (shrink_pos n). nra.
Qed.

Lemma near_pos (n : nat) (a b : R) : 0 < a -> near u n a b -> 0 < b.
Proof.
  intros Ha [H1 _]. pose proof (shrink_pos n). nra.
Qed.

Lemma near_trans (n m : nat) (a b d : R) :
  near u n a b -> near u m b d -> near u (n + m) a d.
Proof.
  intros [H1 H2] [H3 H4]. unfold near. rewrite pow_add.
  pose proof (shrink_pos n). pose proof (shrink_pos m).
  split.
  - apply Rle_trans with (b * (1 - u) ^ m); [|exact H3].
    rewrite <- Rmult_assoc. apply Rmult_le_compat_r; lra.
  - apply Rle_trans with (b * (1 - u) ^ n); [|exact H2].
    rewrite (Rmult_comm ((1 - u) ^ n)), <- Rmult_assoc.
    apply Rmult_le_compat_r; lra.
Qed.

Lemma near_weaken (n m : nat) (a b : R) :
  (n <= m)%nat -> 0 <= a -> near u n a b -> near u m a b.
Proof.
  intros Hnm Ha Hn.
  pose proof (near_nonneg n a b Ha Hn) as Hb.
  destruct Hn as [H1 H2].
  replace m with (n + (m - n))%nat by lia.
  unfold near. rewrite pow_add.
  pose proof (shrink_pos n). pose proof (shrink_pos (m - n)).
  pose proof (shrink_le_1 (m - n)).
  split.
  - apply Rle_trans with (a * (1 - u) ^ n); [|exact H1].
    rewrite <- Rmult_assoc.
    rewrite <- (Rmult_1_r (a * (1 - u) ^ n)) at 2.
    apply Rmult_le_compat_l; [nra|lra].
  - apply Rle_trans with (b * (1 - u) ^ n); [|exact H2].
    rewrite <- Rmult_assoc.
    rewrite <- (Rmult_1_r (b * (1 - u) ^ n)) at 2.
    apply Rmult_le_compat_l; [nra|lra].
Qed.

Lemma near_mult (n m : nat) (a b a' b' : R) :
  0 <= a -> 0 <= a' -> near u n a b -> near u m a' b' ->
  near u (n + m) (a * a') (b * b').
Proof.
  intros Ha Ha' Hn Hm.
  pose proof (near_nonneg n a b Ha Hn) as Hb.
  pose proof (near_nonneg m a' b' Ha' Hm) as Hb'.
  destruct Hn as [H1 H2], Hm as [H3 H4].
  unfold near. rewrite pow_add.
  pose proof (shrink_pos n). pose proof (shrink_pos m).
  split.
  - replace (a * a' * ((1 - u) ^ n * (1 - u) ^ m))
      with ((a * (1 - u) ^ n) * (a' * (1 - u) ^ m)) by ring.
    apply Rmult_le_compat; nra.
  - replace (b * b' * ((1 - u) ^ n * (1 - u) ^ m))
      with ((b * (1 - u) ^ n) * (b' * (1 - u) ^ m)) by ring.
    apply Rmult_le_compat; nra.
Qed.

Lemma near_inv (m : nat) (a b : R) :
  0 < a -> near u m a b -> near u m (/ a) (/ b).
Proof.
  intros Ha Hm. pose proof (near_pos m a b Ha Hm) as Hb.
  destruct Hm as [H1 H2]. pose proof (shrink_pos m).
  unfold near. split.
  - apply Rmult_le_reg_r with (a * b); [nra|].
    replace (/ a * (1 - u) ^ m * (a * b)) with (b * (1 - u) ^ m)
      by (field; lra).
    replace (/ b * (a * b)) with a by (field; lra).
    exact H2.
  - apply Rmult_le_reg_r with (a * b); [nra|].
    replace (/ b * (1 - u) ^ m * (a * b)) with (a * (1 - u) ^ m)
      by (field; lra).
    replace (/ a * (a * b)) with b by (field; lra).
    exact H1.
Qed.

Lemma near_div (n m : nat) (a b a' b' : R) :
  0 <= a -> 0 < a' -> near u n a b -> near u m a' b' ->
  near u (n + m) (a / a') (b / b').
Proof.
  intros Ha Ha' Hn Hm. unfold Rdiv.
  apply near_mult; auto.
  - left. now apply Rinv_0_lt_compat.
  - now apply near_inv.
Qed.

Lemma near_plus (n : nat) (a b a' b' : R) :
  near u n a b -> near u n a' b' -> near u n (a + a') (b + b').
Proof. unfold near. intros [H1 H2] [H3 H4]. split; nra. Qed.

Lemma near_sqrt (n : nat) (a b : R) :
  0 <= a -> near u n a b -> near u n (sqrt a) (sqrt b).
Proof.
  intros Ha Hn. pose proof (near_nonneg n a b Ha Hn) as Hb.
  destruct Hn as [H1 H2].
  pose proof (shrink_pos n). pose proof (shrink_le_1 n).
  pose proof (sqrt_pos a). pose proof (sqrt_pos b).
  pose proof (sqrt_sqrt a Ha). pose proof (sqrt_sqrt b Hb).
  unfold near. split.
  - rewrite <- (sqrt_square (sqrt a * (1 - u) ^ n)) by nra.
    apply sqrt_le_1_alt.
    replace (sqrt a * (1 - u) ^ n * (sqrt a * (1 - u) ^ n))
      with (sqrt a * sqrt a * (1 - u) ^ n * (1 - u) ^ n) by ring.
    nra.
  - rewrite <- (sqrt_square (sqrt b * (1 - u) ^ n)) by nra.
    apply sqrt_le_1_alt.
    replace (sqrt b * (1 - u) ^ n * (sqrt b * (1 - u) ^ n))
      with (sqrt b * sqrt b * (1 - u) ^ n * (1 - u) ^ n) by ring.
    nra.
Qed.

Lemma within_near (exact v : R) :
  within u exact v -> near u 1 (Rabs exact) (Rabs v).
Proof.
  unfold within, near. simpl. rewrite Rmult_1_r.
  unfold Rabs. repeat destruct Rcase_abs; intros; split; nra.
Qed.

Lemma within_sign (exact v : R) :
  within u exact v ->
  (0 <= exact -> 0 <= v) /\ (exact <= 0 -> v <= 0).
Proof.
  unfold within, Rabs. repeat destruct Rcase_abs; intros; split; intros; nra.
Qed.

Lemma within_zero (v : R) : within u 0 v -> v = 0.
Proof.
  unfold within. rewrite Rabs_R0, Rmult_0_r, Rminus_0_r.
  intros Hv. pose proof (Rabs_pos v).
  destruct (Req_dec v 0) as [|Hne]; [assumption|].
  apply Rabs_pos_lt in Hne. lra.
Qed.

(** A result of a non-negative exact value: no absolute values needed. *)
Lemma within_near_pos (exact v : R) :
  0 <= exact -> within u exact v -> near u 1 exact v /\ 0 <= v.
Proof.
  intros He Hw. pose proof (within_near _ _ Hw) as Hn.
  destruct (within_sign _ _ Hw) as [Hs _]. specialize (Hs He).
  rewrite !Rabs_pos_eq in Hn by assumption. auto.
Qed.


Lemma Rabs_quot (a b : R) : b <> 0 -> Rabs (a / b) = Rabs a / Rabs b.
Proof.
  intros Hb. unfold Rdiv. rewrite Rabs_mult. f_equal.
  unfold Rabs. repeat destruct Rcase_abs.
  - field. lra.
  - assert (0 < / b) by (apply Rinv_0_lt_compat; lra). lra.
  - assert (/ b < 0) by (apply Rinv_lt_0_compat; lra). lra.
  - reflexivity.
Qed.

Lemma Rabs_square (a : R) : Rabs a * Rabs a = a * a.
Proof. unfold Rabs. destruct Rcase_abs; ring. Qed.

Lemma quot_sign (a b : R) :
  0 <= a -> b <> 0 -> (0 < b -> 0 <= a / b) /\ (b < 0 -> a / b <= 0).
Proof.
  intros Ha Hb. unfold Rdiv. split; intros Hs.
  - assert (0 < / b) by now apply Rinv_0_lt_compat. nra.
  - assert (/ b < 0) by now apply Rinv_lt_0_compat. nra.
Qed.

(** The speed over the temperature, as computed: the two squares, their
    sum, its root and the quotient, each within [u] of the exact result
    of its operands.  [m] is the exact length. *)
Lemma ratio_near (vx vy t A1 A2 A3 M K : R) :
  t <> 0 ->
  within u (vx * vx) A1 -> within u (vy * vy) A2 ->
  within u (A1 + A2) A3 -> within u (sqrt A3) M -> within u (M / t) K ->
  let m := sqrt (vx * vx + vy * vy) in
  0 <= M /\ near u 3 m M /\ near u 4 (m / Rabs t) (Rabs K)
  /\ (0 < t -> 0 <= K) /\ (t < 0 -> K <= 0).
Proof.
  intros Ht H1 H2 H3 H4 H5 m.
  assert (Hxx : 0 <= vx * vx) by nra.
  assert (Hyy : 0 <= vy * vy) by nra.
  destruct (within_near_pos _ _ Hxx H1) as [N1 P1].
  destruct (within_near_pos _ _ Hyy H2) as [N2 P2].
  assert (Hsum : 0 <= A1 + A2) by lra.
  destruct (within_near_pos _ _ Hsum H3) as [N3 P3].
  destruct (within_near_pos _ _ (sqrt_pos A3) H4) as [N4 P4].
  assert (Nsum : near u 2 (vx * vx + vy * vy) A3).
  { apply (near_trans 1 1 _ (A1 + A2)); [|exact N3].
    now apply near_plus. }
  assert (NM : near u 3 m M).
  { apply (near_trans 2 1 _ (sqrt A3)); [|exact N4].
    apply near_sqrt; [nra|exact Nsum]. }
  assert (Hat : 0 < Rabs t) by now apply Rabs_pos_lt.
  split; [exact P4|]. split; [exact NM|]. split.
  - apply (near_trans 3 1 _ (M / Rabs t)).
    + apply (near_div 3 0); [apply sqrt_pos|exact Hat|exact NM|apply near_refl].
    + replace (M / Rabs t) with (Rabs (M / t)).
      * now apply within_near.
      * rewrite Rabs_quot by exact Ht. now rewrite (Rabs_pos_eq M).
  - destruct (quot_sign M t P4 Ht) as [Q1 Q2].
    destruct (within_sign _ _ H5) as [S1 S2]. split; auto.
Qed.

(** The speed over the temperature after [changeTemperature], as
    computed, against the one before, as computed. *)
Lemma ratio_stable
    (vx vy t t' A1 A2 A3 M K S NX NY WX WY B1 B2 B3 M' K' : R) :
  0 < t * t' ->
  within u (vx * vx) A1 -> within u (vy * vy) A2 ->
  within u (A1 + A2) A3 -> within u (sqrt A3) M -> within u (M / t) K ->
  within u (K * t') S ->
  (M <> 0 -> within u (vx / M) NX /\ within u (vy / M) NY) ->
  (M = 0 -> NX = 0 /\ NY = 0) ->
  within u (S * NX) WX -> within u (S * NY) WY ->
  within u (WX * WX) B1 -> within u (WY * WY) B2 ->
  within u (B1 + B2) B3 -> within u (sqrt B3) M' -> within u (M' / t') K' ->
  near u 28 (Rabs K) (Rabs K') /\ 0 <= K * K'.
Proof.
  intros Hsign H1 H2 H3 H4 H5 HS HN HZ HWX HWY HB1 HB2 HB3 HM' HK'.
  assert (Ht : t <> 0) by (intros ->; lra).
  assert (Ht' : t' <> 0) by (intros ->; lra).
  assert (Hat : 0 < Rabs t) by now apply Rabs_pos_lt.
  assert (Hat' : 0 < Rabs t') by now apply Rabs_pos_lt.
  destruct (ratio_near vx vy t A1 A2 A3 M K Ht H1 H2 H3 H4 H5)
    as (PM & NM & NK & SK1 & SK2).
  destruct (ratio_near WX WY t' B1 B2 B3 M' K' Ht' HB1 HB2 HB3 HM' HK')
    as (PM' & _ & NK' & SK1' & SK2').
  set (m := sqrt (vx * vx + vy * vy)) in *.
  set (m' := sqrt (WX * WX + WY * WY)) in *.
  assert (Hm : 0 <= m) by apply sqrt_pos.
  split.
  2:{ destruct (Rlt_or_le 0 t) as [Hp|Hn].
      - assert (Hp' : 0 < t') by nra.
        specialize (SK1 Hp). specialize (SK1' Hp'). nra.
      - assert (Hn1 : t < 0) by lra. assert (Hn' : t' < 0) by nra.
        specialize (SK2 Hn1). specialize (SK2' Hn'). nra. }
  assert (NS : near u 5 (m / Rabs t * Rabs t') (Rabs S)).
  { apply (near_trans 4 1 _ (Rabs K * Rabs t')).
    - apply (near_mult 4 0); [|lra|exact NK|apply near_refl].
      apply Rmult_le_pos; [exact Hm|]. left. now apply Rinv_0_lt_compat.
    - rewrite <- Rabs_mult. now apply within_near. }
  destruct (Req_dec M 0) as [HM0|HM0].
  - (* the particle is at rest *)
    destruct (HZ HM0) as [-> ->].
    assert (Hm0 : m = 0).
    { apply (near_zero 3). apply near_sym. rewrite <- HM0. exact NM. }
    rewrite Rmult_0_r in HWX, HWY.
    apply within_zero in HWX, HWY. subst WX WY.
    assert (Hm'0 : m' = 0).
    { unfold m'. replace (0 * 0 + 0 * 0) with 0 by ring. apply sqrt_0. }
    rewrite Hm0 in NK. rewrite Hm'0 in NK'.
    unfold Rdiv in NK, NK'. rewrite Rmult_0_l in NK, NK'.
    apply near_zero in NK, NK'. rewrite NK, NK'.
    apply (near_weaken 0 28); [lia|lra|apply near_refl].
  - assert (HMpos : 0 < M) by lra.
    assert (Hmpos : 0 < m).
    { apply (near_pos 3 M); [exact HMpos|now apply near_sym]. }
    destruct (HN HM0) as [HNX HNY].
    set (rho := Rabs t' / Rabs t).
    assert (Hrho : 0 < rho) by (apply Rdiv_lt_0_compat; assumption).
    assert (Hcomp : forall v N W,
               within u (v / M) N -> within u (S * N) W ->
               near u 20 (rho * rho * (v * v)) (W * W)).
    { intros v N W HvN HW.
      assert (NN : near u 4 (Rabs v / m) (Rabs N)).
      { apply (near_trans 3 1 _ (Rabs v / M)).
        - apply (near_div 0 3);
            [apply Rabs_pos|exact Hmpos|apply near_refl|exact NM].
        - replace (Rabs v / M) with (Rabs (v / M)).
          + now apply within_near.
          + rewrite Rabs_quot by exact HM0. now rewrite (Rabs_pos_eq M). }
      assert (NW : near u 10 (rho * Rabs v) (Rabs W)).
      { replace (rho * Rabs v)
          with (m / Rabs t * Rabs t' * (Rabs v / m))
          by (unfold rho; field; lra).
        apply (near_trans 9 1 _ (Rabs S * Rabs N)).
        - apply (near_mult 5 4); [| |exact NS|exact NN].
          + apply Rmult_le_pos; [|lra].
            apply Rmult_le_pos; [exact Hm|].
            left. now apply Rinv_0_lt_compat.
          + apply Rmult_le_pos; [apply Rabs_pos|].
            left. now apply Rinv_0_lt_compat.
        - rewrite <- Rabs_mult. now apply within_near. }
      replace (rho * rho * (v * v)) with (rho * Rabs v * (rho * Rabs v))
        by (rewrite <- (Rabs_square v); ring).
      rewrite <- (Rabs_square W).
      pose proof (Rabs_pos v).
      apply (near_mult 10 10); try assumption; nra. }
    assert (Nm' : near u 20 (rho * m) m').
    { replace (rho * m)
        with (sqrt (rho * rho * (vx * vx) + rho * rho * (vy * vy))).
      - apply near_sqrt; [nra|].
        apply near_plus; [now apply (Hcomp vx NX)|now apply (Hcomp vy NY)].
      - replace (rho * rho * (vx * vx) + rho * rho * (vy * vy))
          with (rho * rho * (vx * vx + vy * vy)) by ring.
        rewrite sqrt_mult by nra. rewrite sqrt_square by lra. reflexivity. }
    assert (NK2 : near u 24 (m / Rabs t) (Rabs K')).
    { replace (m / Rabs t) with (rho * m / Rabs t')
        by (unfold rho; field; lra).
      apply (near_trans 20 4 _ (m' / Rabs t')); [|exact NK'].
      apply (near_div 20 0); [nra|exact Hat'|exact Nm'|apply near_refl]. }
    apply (near_trans 4 24 _ (m / Rabs t)); [|exact NK2].
    now apply near_sym.
Qed.

End RoundingError.

(** ** Rounding in [changeTemperature] *)

Lemma SF2R_finite_neq_0 (s : bool) (m : positive) (e : Z) :
  SF2R (S754_finite s m e) <> 0%R.
Proof.
  unfold SF2R. apply Rmult_integral_contrapositive_currified.
  - destruct s; apply not_0_IZR; discriminate.
  - destruct (Z.leb_spec 0 e).
    + apply not_0_IZR. pose proof (Z.pow_pos_nonneg 2 e). lia.
    + apply Rinv_neq_0_compat, not_0_IZR.
      pose proof (Z.pow_pos_nonneg 2 (- e)). lia.
Qed.

(** The test [f === 0] against the value of [f]. *)
Lemma eqb_zero_value (f : float) :
  (f =? 0)%float = true -> value f = 0%R.
Proof.
  rewrite FloatAxioms.eqb_spec. unfold value.
  change (Prim2SF 0) with (S754_zero false).
  destruct (Prim2SF f) as [s|s| |s m e]; try reflexivity;
    unfold SFeqb; simpl; try destruct s; discriminate.
Qed.

Lemma eqb_zero_false (f : float) :
  finite f = true -> (f =? 0)%float = false -> value f <> 0%R.
Proof.
  rewrite FloatAxioms.eqb_spec. unfold value, finite.
  change (Prim2SF 0) with (S754_zero false).
  destruct (Prim2SF f) as [s|s| |s m e]; intros Hfin Hne;
    try discriminate Hfin.
  - discriminate Hne.
  - apply SF2R_finite_neq_0.
Qed.

Lemma value_0 : value 0%float = 0%R.
Proof. reflexivity. Qed.

(** In exact arithmetic, where a quotient by 0 is undefined, the velocity
    [changeTemperature] leaves is defined whenever the old temperature is
    not 0: both divisions of the call are by numbers that are not 0. *)
Lemma changeTemperature_defined (q : Particle xreal) (t t' vx vy : R) :
  temperature q = Some t -> t <> 0%R ->
  vel q = mkVector (Some vx) (Some vy) ->
  realVector (vel (changeTemperature q (Some t'))).
Proof.
  intros Ht Ht0 Hv. unfold changeTemperature. rewrite Ht, Hv.
  change (Some t =? #0)%num with (if Req_dec_T t 0 then true else false).
  destruct (Req_dec_T t 0) as [|_]; [contradiction|].
  cbv zeta. cbn [vel]. rewrite xreal_getMagnitude.
  set (m := sqrt (vx * vx + vy * vy)).
  rewrite (xreal_div m t Ht0).
  unfold getNormalized. rewrite xreal_getMagnitude. fold m.
  change (Some m =? #0)%num with (if Req_dec_T m 0 then true else false).
  destruct (Req_dec_T m 0) as [Hz|Hnz].
  - unfold getScaled. cbn [x y]. simpl nmul.
    do 2 eexists. reflexivity.
  - cbn [x y]. rewrite !(xreal_div _ m Hnz).
    unfold getScaled. cbn [x y]. simpl nmul.
    do 2 eexists. reflexivity.
Qed.

(** C8, amended.  [changeTemperature] does nothing to a particle whose
    temperature is 0.  Otherwise the temperature becomes [newTemp]; and
    when the old and the new temperature are numbers of one sign, not 0,
    and every operation of the computation rounds within [u], the speed
    over the temperature after the call, as binary64 computes it, is the
    one before the call up to 28 roundings, and of its sign.  No division
    of the call is by 0: in exact arithmetic, where such a quotient is
    undefined, the velocity it leaves is defined. *)
Theorem changeTemperature_keeps_ratio (u : R) (p : Particle float)
    (newTemp : float) :
  let p' := changeTemperature p newTemp in
  ((temperature p =? 0)%float = true -> p' = p)
  /\ ((temperature p =? 0)%float = false -> temperature p' = newTemp)
  /\ ((0 <= u < 1)%R ->
      (0 < value (temperature p) * value newTemp)%R ->
      ratioRounds u (vel p) (temperature p) ->
      rescaleRounds u p newTemp ->
      ratioRounds u (vel p') newTemp ->
      let k := value (getMagnitude (vel p) / temperature p)%float in
      let k' := value (getMagnitude (vel p') / temperature p')%float in
      (Rabs k * (1 - u) ^ 28 <= Rabs k')%R
      /\ (Rabs k' * (1 - u) ^ 28 <= Rabs k)%R
      /\ (0 <= k * k')%R)
  /\ (forall (q : Particle xreal) (t t' vx vy : R),
        temperature q = Some t -> t <> 0%R ->
        vel q = mkVector (Some vx) (Some vy) ->
        realVector (vel (changeTemperature q (Some t')))).
Proof.
  intros p'.
  assert (Hnoop : (temperature p =? 0)%float = true -> p' = p).
  { intros Ht. unfold p', changeTemperature.
    change (temperature p =? #0)%num with (temperature p =? 0)%float.
    now rewrite Ht. }
  assert (Hset : (temperature p =? 0)%float = false ->
                 p' = mkParticle (formula p) (color p) (radius p) (pos p)
                        (getScaled (getNormalized (vel p))
                           (getMagnitude (vel p) / temperature p * newTemp)%float)
                        newTemp (state p) (cooldownDist p)).
  { intros Ht. unfold p', changeTemperature.
    change (temperature p =? #0)%num with (temperature p =? 0)%float.
    now rewrite Ht. }
  split; [exact Hnoop|]. split; [intros Ht; now rewrite (Hset Ht)|].
  split; [|exact changeTemperature_defined].
  intros Hu Hsign Hbefore Hcall Hafter k k'.
  assert (Ht : (temperature p =? 0)%float = false).
  { destruct (temperature p =? 0)%float eqn:Ht; [|reflexivity].
    apply eqb_zero_value in Ht. rewrite Ht in Hsign. lra. }
  specialize (Hset Ht).
  subst k k'. rewrite Hset in *. cbn [vel temperature] in *.
  clear Hnoop Hset p'.
  destruct Hbefore as ((_ & H1) & (_ & H2) & (_ & H3) & (FM & H4) & (_ & H5)).
  destruct Hcall as ((_ & HS) & HN & (_ & HWX) & (_ & HWY)).
  destruct Hafter as ((_ & HB1) & (_ & HB2) & (_ & HB3) & (_ & HM') & (_ & HK')).
  cbv zeta in *.
  unfold getScaled in *. cbn [x y] in *.
  change (@nmul float float_Number) with PrimFloat.mul in *.
  assert (HNZ : (value (getMagnitude (vel p)) <> 0%R ->
                 within u (value (x (vel p)) / value (getMagnitude (vel p)))
                          (value (x (getNormalized (vel p))))
                 /\ within u (value (y (vel p)) / value (getMagnitude (vel p)))
                             (value (y (getNormalized (vel p)))))
                /\ (value (getMagnitude (vel p)) = 0%R ->
                    value (x (getNormalized (vel p))) = 0%R
                    /\ value (y (getNormalized (vel p))) = 0%R)).
  { unfold getNormalized.
    change (getMagnitude (vel p) =? #0)%num
      with (getMagnitude (vel p) =? 0)%float.
    destruct (getMagnitude (vel p) =? 0)%float eqn:Htest; cbn [x y].
    - apply eqb_zero_value in Htest. split; [contradiction|].
      intros _. split; reflexivity.
    - destruct (HN eq_refl) as [(_ & HNX) (_ & HNY)].
      split; [intros _; split; assumption|].
      intros HM0. exfalso. exact (eqb_zero_false _ FM Htest HM0). }
  destruct HNZ as [HNX HNY].
  destruct (ratio_stable u Hu _ _ _ _ _ _ _ _ _ _ _ _ _ _ _ _ _ _ _
              Hsign H1 H2 H3 H4 H5 HS HNX HNY HWX HWY HB1 HB2 HB3 HM' HK')
    as [[Hlow Hhigh] Hsame].
  exact (conj Hlow (conj Hhigh Hsame)).
Qed.

(** The value of a binary64 constant, as a quotient of integers. *)
Ltac float_value c :=
  let sf := eval vm_compute in (Prim2SF c) in
  lazymatch sf with
  | S754_finite ?s ?m ?e =>
    let n := eval vm_compute in (if s then Z.neg m else Z.pos m) in
    let up := eval vm_compute in (0 <=? e)%Z in
    lazymatch up with
    | true =>
      let d := eval vm_compute in (2 ^ e)%Z in
      change (value c) with (IZR n * IZR d)%R
    | false =>
      let d := eval vm_compute in (2 ^ (- e))%Z in
      change (value c) with (IZR n * / IZR d)%R
    end
  | _ => change (value c) with 0%R
  end.

Ltac float_values :=
  repeat match goal with
         | |- context [value ?c] => float_value c
         end.

(** A rounding goal on constants: the result is a number, and the
    inequality is one of rational numbers, after the root, if there is one,
    has been given. *)
Ltac rounds_by_computation :=
  split; [vm_compute; reflexivity|];
  unfold within; float_values;
  repeat match goal with
         | |- context [sqrt ?a] =>
           first [ replace (sqrt a) with 5%R
                     by (replace a with (5 * 5)%R by lra;
                         symmetry; apply sqrt_square; lra)
                 | replace (sqrt a) with 10%R
                     by (replace a with (10 * 10)%R by lra;
                         symmetry; apply sqrt_square; lra) ]
         end;
  unfold Rabs; repeat destruct Rcase_abs; lra.

Lemma changeTemperature_keeps_ratio_witness :
  let u := (/ 9007199254740992)%R in
  let p := particleAt "A" 400 400 3 4 in
  let p' := changeTemperature p 4%float in
  let k := value (getMagnitude (vel p) / temperature p)%float in
  let k' := value (getMagnitude (vel p') / temperature p')%float in
  ((Rabs k * (1 - u) ^ 28 <= Rabs k')%R
   /\ (Rabs k' * (1 - u) ^ 28 <= Rabs k)%R
   /\ (0 <= k * k')%R)
  /\ realVector (vel (changeTemperature (idealParticle 3 4 2) (Some 0%R))).
Proof.
  pose proof (changeTemperature_keeps_ratio
                (/ 9007199254740992)%R
                (particleAt "A" 400 400 3 4) 4%float) as (_ & _ & Hratio & Hdiv).
  split.
  - apply Hratio.
    + lra.
    + float_values. lra.
    + unfold ratioRounds. cbv zeta. repeat split_and; rounds_by_computation.
    + unfold rescaleRounds. cbv zeta.
      split_and; [rounds_by_computation|].
      split_and; [intros _; split_and; rounds_by_computation|].
      split_and; rounds_by_computation.
    + unfold ratioRounds. cbv zeta. repeat split_and; rounds_by_computation.
  - apply (Hdiv (idealParticle 3 4 2) 2%R 0%R 3%R 4%R); try reflexivity.
    lra.
Defined.

(** C8 as stated fails in three ways, shown on a particle of temperature
    2 and velocity (2, 0), whose speed over temperature is 1.  For
    [newTemp = 0] the quotient afterwards is 0/0, not a number, and the
    particle is left at rest with temperature 0, which no later call
    changes.  For [newTemp = -2], of the other sign, it is -1.  For the
    positive [newTemp = 2^-569] the square of the new speed underflows
    and the quotient is 0; a further change to temperature 20 then
    leaves the particle at rest. *)
Lemma changeTemperature_loses_ratio :
  let p := particleAt "A" 400 400 2 0 in
  let ratio (q : Particle float) :=
    (getMagnitude (vel q) / temperature q)%float in
  let tiny := 0x1p-569%float in
  (temperature p =? 0)%float = false
  /\ ratio p = 1%float
  /\ PrimFloat.is_nan (ratio (changeTemperature p 0%float)) = true
  /\ changeTemperature (changeTemperature p 0%float) 2%float
     = changeTemperature p 0%float
  /\ ratio (changeTemperature p (-2)%float) = (-1)%float
  /\ (0 <? tiny)%float = true
  /\ ratio (changeTemperature p tiny) = 0%float
  /\ vel (changeTemperature (changeTemperature p tiny) 20%float)
     = mkVector 0%float 0%float.
Proof. vm_compute. repeat split; reflexivity. Qed.


(** ** The tick *)

Section TickFacts.
Context {num : Type} {NUM : Number num}.
Implicit Types (h : list (Particle num)) (w : World num) (E : Env num).
Implicit Types (l cands consumed : list ref) (r q : ref).
Local Open Scope nat_scope.

Lemma update_state (c : dimensions num) (p : Particle num) :
  state (update c p) = active \/ state (update c p) = state p.
Proof.
  unfold update. destruct (reflect _ _ _ _) as [newPos newVel].
  destruct (_ || _); simpl; auto.
Qed.

Lemma update_state_active (c : dimensions num) (p : Particle num) :
  state p = active -> state (update c p) = active.
Proof. intros Hs. destruct (update_state c p); congruence. Qed.

Lemma update_formula (c : dimensions num) (p : Particle num) :
  formula (update c p) = formula p.
Proof.
  unfold update. destruct (reflect _ _ _ _) as [newPos newVel].
  now destruct (_ || _).
Qed.

Lemma update_radius (c : dimensions num) (p : Particle num) :
  radius (update c p) = radius p.
Proof.
  unfold update. destruct (reflect _ _ _ _) as [newPos newVel].
  now destruct (_ || _).
Qed.

Lemma createParticle_state E f loc temp cd n :
  state (createParticle E f loc temp cd n) <> removed.
Proof. unfold createParticle. now destruct (negb _). Qed.

Lemma asCreated_not_removed E temp (p : Particle num) :
  asCreated E temp p -> state p <> removed.
Proof. intros (f & loc & n & ->). apply createParticle_state. Qed.

Lemma elem_of_List_filter {A} (f : A -> bool) (l : list A) (a : A) :
  a ∈ List.filter f l <-> a ∈ l /\ f a = true.
Proof. rewrite !list_elem_of_In. apply filter_In. Qed.

(** [removeParticles] keeps the heap's size and touches only the listed
    objects, whose other fields it keeps. *)
Lemma removeParticles_length consumed : forall h,
  length (removeParticles consumed h) = length h.
Proof.
  unfold removeParticles.
  induction consumed as [|r l IH]; intros h; simpl; [reflexivity|].
  now rewrite IH, length_alter.
Qed.

Lemma removeParticles_other consumed r : forall h,
  r ∉ consumed -> removeParticles consumed h !! r = h !! r.
Proof.
  unfold removeParticles.
  induction consumed as [|r0 l IH]; intros h Hnot; simpl; [reflexivity|].
  rewrite not_elem_of_cons in Hnot. destruct Hnot as [Hne Hnot].
  rewrite IH by assumption. apply list_lookup_alter_ne. congruence.
Qed.

Lemma removeParticles_listed consumed r : forall h p,
  r ∈ consumed -> h !! r = Some p ->
  removeParticles consumed h !! r = Some (set_state p removed).
Proof.
  unfold removeParticles.
  induction consumed as [|r0 l IH]; intros h p Hin Hp; simpl.
  - now apply elem_of_nil in Hin.
  - destruct (decide (r0 = r)) as [->|Hne].
    + destruct (decide (r ∈ l)) as [Hl|Hl].
      * rewrite (IH _ (set_state p removed) Hl); [reflexivity|].
        now rewrite list_lookup_alter_eq, Hp.
      * fold (removeParticles l (alter (fun p => set_state p removed) r h)).
        rewrite removeParticles_other by assumption.
        now rewrite list_lookup_alter_eq, Hp.
    + apply elem_of_cons in Hin as [->|Hin]; [congruence|].
      apply IH; [assumption|].
      now rewrite list_lookup_alter_ne.
Qed.

(** The production loops return particles as [createParticle] makes
    them. *)
Lemma createMany_asCreated E f loc temp k : forall n,
  Forall (asCreated E temp) (fst (createMany E f loc temp k n)).
Proof.
  induction k as [|k IH]; intros n; simpl; [constructor|].
  specialize (IH (S (S n))).
  destruct (createMany E f loc temp k (S (S n))) as [ps n'].
  simpl in *. constructor; [|assumption]. now exists f, loc, n.
Qed.

Lemma produceLoop_asCreated E side loc temp : forall n,
  Forall (asCreated E temp) (fst (produceLoop E side loc temp n)).
Proof.
  induction side as [|mf side IH]; intros n; simpl; [constructor|].
  pose proof (createMany_asCreated E (mol_formula mf) loc temp
                (Z.to_nat (molCoeff mf)) n) as Hps.
  destruct (createMany _ _ _ _ _ n) as [ps n1].
  specialize (IH n1). destruct (produceLoop E side loc temp n1) as [qs n2].
  simpl in *. now apply Forall_app.
Qed.

(** The consumed particles and the candidates left are candidates. *)
Lemma consumeLoop_subset h side cands res rest :
  consumeLoop h side cands [] = (res, rest) ->
  rest ⊆ cands /\ (forall c, res = Some c -> c ⊆ cands).
Proof.
  intros Hrun. apply consumeLoop_shape in Hrun as (k & -> & Hc).
  split; [apply subseteq_drop|].
  intros c Hres. rewrite (Hc c Hres). simpl. apply subseteq_take.
Qed.

(** Firing keeps the invariant of the collision phase. *)
Lemma fire_tickInv E n0 temp w consumed
    (produced : list (Particle num) * nat) :
  tickInv E n0 temp w ->
  Forall (fun r => r < n0) consumed ->
  Forall (asCreated E temp) (fst produced) ->
  tickInv E n0 temp (fire consumed produced w).
Proof.
  intros (Hlive & Hn0 & Hqueue & Htemp & Hrun & Hnew) Hcons Hprod.
  unfold tickInv, fire. simpl.
  rewrite length_app, removeParticles_length.
  repeat split; try assumption; try lia.
  - rewrite Hqueue.
    replace (length (heap w) + length (fst produced) - n0)
      with ((length (heap w) - n0) + length (fst produced)) by lia.
    rewrite seq_app. do 2 f_equal. lia.
  - intros q Hge Hlt.
    destruct (decide (q < length (heap w))) as [Hold|Hfresh].
    + rewrite lookup_app_l by now rewrite removeParticles_length.
      rewrite removeParticles_other; [now apply Hnew|].
      intros Hin. rewrite Forall_forall in Hcons.
      specialize (Hcons q Hin). lia.
    + rewrite lookup_app_r by (rewrite removeParticles_length; lia).
      rewrite removeParticles_length.
      destruct (lookup_lt_is_Some_2 (fst produced) (q - length (heap w)))
        as [p Hp]; [lia|].
      exists p. split; [assumption|].
      rewrite Forall_lookup in Hprod. eauto.
Qed.

Lemma attemptReaction_tickInv E n0 temp w rx cands ok rest w' :
  tickInv E n0 temp w ->
  Forall (fun r => r < n0) cands ->
  attemptReaction E rx cands temp w = (ok, rest, w') ->
  tickInv E n0 temp w'
  /\ Forall (fun r => r < n0) rest
  /\ particleList w' = particleList w.
Proof.
  intros Hinv Hcands. unfold attemptReaction.
  destruct (getFwdConsumedParticles (heap w) rx cands) as [fwd rest1] eqn:Hfwd.
  apply consumeLoop_subset in Hfwd as [Hrest1 Hfwd].
  assert (Hc1 : Forall (fun r => r < n0) rest1).
  { rewrite Forall_forall in *. auto. }
  destruct fwd as [consumed|].
  - intros [= <- <- <-]. split; [|split; [assumption|reflexivity]].
    apply fire_tickInv; [assumption| |apply produceLoop_asCreated].
    specialize (Hfwd consumed eq_refl).
    rewrite Forall_forall in *. auto.
  - destruct (getRevConsumedParticles (heap w) rx rest1)
      as [rev rest2] eqn:Hrev.
    apply consumeLoop_subset in Hrev as [Hrest2 Hrev].
    assert (Hc2 : Forall (fun r => r < n0) rest2).
    { rewrite Forall_forall in *. auto. }
    destruct (reversible rx), rev as [consumed|];
      intros [= <- <- <-]; try (split; [|split]; easy).
    split; [|split; [assumption|reflexivity]].
    apply fire_tickInv; [assumption| |apply produceLoop_asCreated].
    specialize (Hrev consumed eq_refl).
    rewrite Forall_forall in *. auto.
Qed.

Lemma tryReactions_tickInv E n0 temp rules : forall cands w,
  tickInv E n0 temp w ->
  Forall (fun r => r < n0) cands ->
  tickInv E n0 temp (tryReactions E rules cands w)
  /\ particleList (tryReactions E rules cands w) = particleList w.
Proof.
  induction rules as [|rx rules IH]; intros cands w Hinv Hcands; simpl.
  - now split.
  - assert (Htemp : containerTemperature w = temp) by apply Hinv.
    rewrite Htemp.
    destruct (attemptReaction E rx cands temp w) as [[ok rest] w'] eqn:Hrun.
    apply (attemptReaction_tickInv _ _ _ _ _ _ _ _ _ Hinv Hcands) in Hrun
      as (Hinv' & Hrest & Hlive).
    destruct ok; [now split|].
    destruct (IH rest w' Hinv' Hrest) as [? Hlive']. split; [assumption|].
    congruence.
Qed.

Lemma availableParticles_subset h l r1 (p1 : Particle num) :
  availableParticles h l r1 p1 ⊆ r1 :: l.
Proof.
  intros r. unfold availableParticles. rewrite !elem_of_cons.
  intros [->|Hin]; [now left|right].
  now apply elem_of_List_filter in Hin.
Qed.

Lemma collide_tickInv E n0 temp : forall todo w,
  tickInv E n0 temp w ->
  Forall (fun r => r < n0) todo ->
  tickInv E n0 temp (collide E todo w)
  /\ particleList (collide E todo w) = particleList w.
Proof.
  induction todo as [|r1 todo IH]; intros w Hinv Htodo; simpl.
  - now split.
  - inversion Htodo as [|? ? Hr1 Htodo']; subst.
    destruct (heap w !! r1) as [p1|]; [|now apply IH].
    destruct (state_eqb (state p1) active); [|now apply IH].
    set (cands := availableParticles (heap w) (particleList w) r1 p1).
    assert (Hcands : Forall (fun r => r < n0) cands).
    { rewrite Forall_forall. intros r Hr.
      apply availableParticles_subset, elem_of_cons in Hr as [->|Hr];
        [assumption|].
      destruct Hinv as [Hlive _]. rewrite Forall_forall in Hlive. auto. }
    destruct (tryReactions_tickInv E n0 temp (reactionList E) cands w
                Hinv Hcands) as [Hinv' Hlive].
    destruct (IH _ Hinv' Htodo') as [? Hlive']. split; [assumption|].
    congruence.
Qed.

(** The sweep keeps the heap's size, returns live references only, and
    keeps every reference whose particle is not removed. *)
Lemma sweep_length (c : dimensions num) : forall l h,
  length (snd (sweep c l h)) = length h.
Proof.
  induction l as [|r l IH]; intros h; simpl; [reflexivity|].
  destruct (h !! r) as [p|].
  - destruct (state_eqb (state p) removed); [apply IH|].
    specialize (IH (<[r:=update c p]> h)).
    destruct (sweep c l _) as [l' h']. simpl in *.
    now rewrite IH, length_insert.
  - specialize (IH h). now destruct (sweep c l h).
Qed.

Lemma sweep_subset (c : dimensions num) : forall l h,
  fst (sweep c l h) ⊆ l.
Proof.
  induction l as [|r l IH]; intros h; simpl; [reflexivity|].
  destruct (h !! r) as [p|].
  - destruct (state_eqb (state p) removed).
    + intros q Hq. apply elem_of_cons. right. now apply (IH h).
    + specialize (IH (<[r:=update c p]> h)).
      destruct (sweep c l _) as [l' h']. simpl in *.
      intros q. rewrite !elem_of_cons. intros [->|Hq]; auto.
  - specialize (IH h). destruct (sweep c l h) as [l' h']. simpl in *.
    intros q. rewrite !elem_of_cons. intros [->|Hq]; auto.
Qed.

Lemma state_eqb_removed (s : ParticleState) :
  s <> removed -> state_eqb s removed = false.
Proof. now destruct s. Qed.

Lemma sweep_keeps (c : dimensions num) q : forall l h p,
  q ∈ l -> h !! q = Some p -> state p <> removed ->
  q ∈ fst (sweep c l h).
Proof.
  induction l as [|r l IH]; intros h p Hin Hp Hstate; simpl.
  - now apply elem_of_nil in Hin.
  - destruct (decide (r = q)) as [->|Hne].
    + rewrite Hp, (state_eqb_removed _ Hstate).
      destruct (sweep c l _) as [l' h']. simpl. apply elem_of_cons. now left.
    + apply elem_of_cons in Hin as [->|Hin]; [congruence|].
      destruct (h !! r) as [p0|] eqn:Hr.
      * destruct (state_eqb (state p0) removed); [now apply (IH h p)|].
        specialize (IH (<[r:=update c p0]> h) p Hin).
        rewrite list_lookup_insert_ne in IH by assumption.
        specialize (IH Hp Hstate).
        destruct (sweep c l _) as [l' h']. simpl in *.
        apply elem_of_cons. now right.
      * specialize (IH h p Hin Hp Hstate).
        destruct (sweep c l h) as [l' h']. simpl in *.
        apply elem_of_cons. now right.
Qed.

(** A tick that runs establishes the invariant of its collision phase
    for the state it ends in. *)
Lemma mergeAndSweep_tickInv E w :
  wf w -> containerPaused w = false ->
  tickInv E (length (heap w)) (containerTemperature w) (mergeAndSweep E w)
  /\ particleList (mergeAndSweep E w)
     = fst (sweep (canvas E) (particleList w ++ particleCreationQueue w)
                  (heap w)).
Proof.
  intros Hwf Hrun. unfold mergeAndSweep.
  pose proof (sweep_length (canvas E)
                (particleList w ++ particleCreationQueue w) (heap w)) as Hlen.
  pose proof (sweep_subset (canvas E)
                (particleList w ++ particleCreationQueue w) (heap w)) as Hsub.
  destruct (sweep _ _ _) as [l h]. simpl in *.
  assert (Hl : Forall (fun r => r < length (heap w)) l).
  { unfold wf in Hwf. rewrite Forall_forall in *. auto. }
  unfold tickInv. simpl. rewrite Hlen, Nat.sub_diag.
  repeat split; try assumption; try lia.
Qed.

Lemma updateFrame_tickInv E w :
  wf w -> containerPaused w = false ->
  tickInv E (length (heap w)) (containerTemperature w) (updateFrame E w)
  /\ particleList (updateFrame E w)
     = fst (sweep (canvas E) (particleList w ++ particleCreationQueue w)
                  (heap w)).
Proof.
  intros Hwf Hrun. unfold updateFrame. rewrite Hrun. cbv zeta.
  destruct (mergeAndSweep_tickInv E w Hwf Hrun) as [Hinv Hlist].
  destruct (collide_tickInv E _ _ (particleList (mergeAndSweep E w)) _ Hinv)
    as [Hinv' Hlist']; [apply Hinv|].
  split; [assumption|congruence].
Qed.

(** No neighbour list of the collision phase holds an object allocated
    during the tick. *)
Lemma neighbourLists_old E n0 temp : forall todo w,
  tickInv E n0 temp w ->
  Forall (fun r => r < n0) todo ->
  Forall (Forall (fun r => r < n0)) (neighbourLists E todo w).
Proof.
  induction todo as [|r1 todo IH]; intros w Hinv Htodo; simpl.
  - constructor.
  - inversion Htodo as [|? ? Hr1 Htodo']; subst.
    destruct (heap w !! r1) as [p1|]; [|now apply IH].
    destruct (state_eqb (state p1) active); [|now apply IH].
    set (cands := availableParticles (heap w) (particleList w) r1 p1).
    assert (Hcands : Forall (fun r => r < n0) cands).
    { rewrite Forall_forall. intros r Hr.
      apply availableParticles_subset, elem_of_cons in Hr as [->|Hr];
        [assumption|].
      destruct Hinv as [Hlive _]. rewrite Forall_forall in Hlive. auto. }
    constructor; [assumption|]. apply IH; [|assumption].
    now apply tryReactions_tickInv.
Qed.

Lemma updateFrame_wf E w : wf w -> wf (updateFrame E w).
Proof.
  intros Hwf. destruct (containerPaused w) eqn:Hrun.
  - unfold updateFrame. now rewrite Hrun.
  - destruct (updateFrame_tickInv E w Hwf Hrun)
      as [(Hlive & Hn0 & Hqueue & _) _].
    unfold wf. apply Forall_app. split.
    + eapply Forall_impl; [exact Hlive|]. cbv beta. intros; lia.
    + rewrite Hqueue, Forall_forall. intros q Hq.
      apply elem_of_seq in Hq. lia.
Qed.

End TickFacts.

(** C6.  In a tick that runs from a well-formed state, the live list
    afterwards holds only objects that were live or queued before it; the
    queue afterwards holds exactly the objects allocated during the tick.
    None of these is in the live list or in any neighbour list built in
    the tick, and each is still as it was created (not moved, not swept,
    not consumed).  The next tick puts every one of them in the live list
    and none in its queue. *)
Theorem queued_particles_join_next_tick {num : Type} {NUM : Number num}
    (E : Env num) (w : World num) :
  wf w -> containerPaused w = false ->
  let w1 := mergeAndSweep E w in
  let w' := updateFrame E w in
  let w'' := updateFrame E w' in
  (forall r : ref, r ∈ particleList w' ->
                   r ∈ particleList w ++ particleCreationQueue w)
  /\ particleCreationQueue w'
     = seq (length (heap w)) (length (heap w') - length (heap w))
  /\ (forall q : ref, q ∈ particleCreationQueue w' ->
        (q ∉ particleList w')
        /\ (forall available : list ref,
              available ∈ neighbourLists E (particleList w1) w1 ->
              q ∉ available)
        /\ (exists p, heap w' !! q = Some p
                      /\ asCreated E (containerTemperature w) p)
        /\ q ∈ particleList w''
        /\ q ∉ particleCreationQueue w'').
Proof.
  intros Hwf Hrun w1 w' w''.
  destruct (updateFrame_tickInv E w Hwf Hrun)
    as [(Hlive & Hn0 & Hqueue & Htemp & Hrun' & Hnew) Hlist].
  fold w' in Hlive, Hn0, Hqueue, Htemp, Hrun', Hnew, Hlist.
  pose proof (updateFrame_wf E w Hwf) as Hwf'. fold w' in Hwf'.
  destruct (updateFrame_tickInv E w' Hwf' Hrun')
    as [(_ & _ & Hqueue' & _) Hlist'].
  fold w'' in Hqueue', Hlist'.
  destruct (mergeAndSweep_tickInv E w Hwf Hrun) as [Hinv1 _].
  fold w1 in Hinv1.
  pose proof (neighbourLists_old E _ _ (particleList w1) w1 Hinv1
                ltac:(apply Hinv1)) as Hneigh.
  split; [|split; [exact Hqueue|]].
  - intros r Hr. rewrite Hlist in Hr. now apply sweep_subset in Hr.
  - intros q Hq.
    assert (Hrange : (length (heap w) <= q < length (heap w'))%nat).
    { rewrite Hqueue in Hq. apply elem_of_seq in Hq. lia. }
    destruct (Hnew q) as (p & Hp & Hfresh); [lia..|].
    split; [|split; [|split; [|split]]].
    + intros Hin. rewrite Forall_forall in Hlive.
      specialize (Hlive q Hin). lia.
    + intros available Hav Hin. rewrite Forall_forall in Hneigh.
      specialize (Hneigh available Hav). rewrite Forall_forall in Hneigh.
      specialize (Hneigh q Hin). lia.
    + now exists p.
    + rewrite Hlist'. apply (sweep_keeps _ _ _ _ p).
      * apply elem_of_app. now right.
      * exact Hp.
      * now apply (asCreated_not_removed E (containerTemperature w)).
    + rewrite Hqueue'. intros Hin. apply elem_of_seq in Hin. lia.
Qed.

Lemma queued_particles_join_next_tick_witness :
  let E := hostEnv square800 [rxn1] in
  let w := worldOf (restingHeap ["A"; "A"]%string) in
  let w1 := mergeAndSweep E w in
  let w' := updateFrame E w in
  let w'' := updateFrame E w' in
  particleCreationQueue w' = [2; 3]%nat /\
  (forall r : ref, r ∈ particleList w' ->
                   r ∈ particleList w ++ particleCreationQueue w)
  /\ particleCreationQueue w'
     = seq (length (heap w)) (length (heap w') - length (heap w))
  /\ (forall q : ref, q ∈ particleCreationQueue w' ->
        (q ∉ particleList w')
        /\ (forall available : list ref,
              available ∈ neighbourLists E (particleList w1) w1 ->
              q ∉ available)
        /\ (exists p, heap w' !! q = Some p
                      /\ asCreated E (containerTemperature w) p)
        /\ q ∈ particleList w''
        /\ q ∉ particleCreationQueue w'').
Proof.
  split; [reflexivity|].
  apply (queued_particles_join_next_tick
           (hostEnv square800 [rxn1])
           (worldOf (restingHeap ["A"; "A"]%string))).
  - repeat constructor.
  - reflexivity.
Defined.

(** ** The scenario of the repository's rule *)

Section Scenario.
Context {num : Type} {NUM : Number num}.
Implicit Types (h : list (Particle num)) (r : ref).
Local Open Scope nat_scope.

(** Two distinct live particles, neither removed: the sweep updates both
    and keeps both. *)
Lemma sweep_two (c : dimensions num) h r1 r2 (a1 a2 : Particle num) :
  r1 <> r2 -> h !! r1 = Some a1 -> h !! r2 = Some a2 ->
  state a1 <> removed -> state a2 <> removed ->
  sweep c [r1; r2] h
  = ([r1; r2], <[r2:=update c a2]> (<[r1:=update c a1]> h)).
Proof.
  intros Hne H1 H2 Hs1 Hs2. simpl.
  rewrite H1, (state_eqb_removed _ Hs1).
  rewrite list_lookup_insert_ne by assumption.
  now rewrite H2, (state_eqb_removed _ Hs2).
Qed.

(** Two active A as the only candidates: the forward match of [2A <=>
    2B] takes both. *)
Lemma consume_two_A h r1 r2 (a1 a2 : Particle num) :
  h !! r1 = Some a1 -> h !! r2 = Some a2 ->
  state a1 = active -> state a2 = active ->
  formula a1 = "A"%string -> formula a2 = "A"%string ->
  getFwdConsumedParticles h rxn1 [r1; r2] = (Some [r1; r2], []).
Proof.
  intros H1 H2 Hs1 Hs2 Hf1 Hf2.
  unfold getFwdConsumedParticles. simpl.
  unfold matches. now rewrite H1, H2, Hs1, Hs2, Hf1, Hf2.
Qed.

(** One step of the collision loop. *)
Lemma collide_active (E : Env num) (w : World num) r1 rest
    (particle1 : Particle num) :
  heap w !! r1 = Some particle1 -> state particle1 = active ->
  collide E (r1 :: rest) w
  = collide E rest
      (tryReactions E (reactionList E)
         (availableParticles (heap w) (particleList w) r1 particle1) w).
Proof. intros Hp Hs. simpl. now rewrite Hp, Hs. Qed.

Lemma collide_skip (E : Env num) (w : World num) r1 rest
    (particle1 : Particle num) :
  heap w !! r1 = Some particle1 -> state particle1 <> active ->
  collide E (r1 :: rest) w = collide E rest w.
Proof.
  intros Hp Hs. simpl. rewrite Hp.
  now destruct (state particle1).
Qed.

Lemma scenario_generic (E : Env num) (w : World num) r1 r2
    (a1 a2 : Particle num) :
  reactionList E = [rxn1] -> containerPaused w = false ->
  particleList w = [r1; r2] -> particleCreationQueue w = [] ->
  r1 <> r2 -> heap w !! r1 = Some a1 -> heap w !! r2 = Some a2 ->
  formula a1 = "A"%string -> formula a2 = "A"%string ->
  state a1 = active -> state a2 = active ->
  (getDist (pos (update (canvas E) a1)) (pos (update (canvas E) a2))
   <? radius a1 + radius a2)%num = true ->
  let a1' := update (canvas E) a1 in
  let a2' := update (canvas E) a2 in
  let h2 := <[r2:=a2']> (<[r1:=a1']> (heap w)) in
  let loc := getAvgPos [a1'; a2'] [0; 1] in
  let temp := containerTemperature w in
  let n := randomCalls w in
  updateFrame E w
  = mkWorld (removeParticles [r1; r2] h2
             ++ [createParticle E "B" loc temp COOLDOWN_DIST n;
                 createParticle E "B" loc temp COOLDOWN_DIST (2 + n)])
            [r1; r2] [length (heap w); S (length (heap w))]
            false temp (4 + n).
Proof.
  intros Hrules Hrun Hlive Hqueue Hne H1 H2 Hf1 Hf2 Hs1 Hs2 Hnear
         a1' a2' h2 loc temp n.
  assert (Hr1 : r1 < length (heap w)) by eauto using lookup_lt_Some.
  assert (Hr2 : r2 < length (heap w)) by eauto using lookup_lt_Some.
  assert (H1' : h2 !! r1 = Some a1').
  { unfold h2. rewrite list_lookup_insert_ne by congruence.
    now apply list_lookup_insert_eq. }
  assert (H2' : h2 !! r2 = Some a2').
  { unfold h2. apply list_lookup_insert_eq. now rewrite length_insert. }
  assert (Hlen : length h2 = length (heap w)).
  { unfold h2. now rewrite !length_insert. }
  assert (Hs1' : state a1' = active) by now apply update_state_active.
  assert (Hs2' : state a2' = active) by now apply update_state_active.
  assert (Hf1' : formula a1' = "A"%string)
    by (unfold a1'; now rewrite update_formula).
  assert (Hf2' : formula a2' = "A"%string)
    by (unfold a2'; now rewrite update_formula).
  assert (Hcands : availableParticles h2 [r1; r2] r1 a1' = [r1; r2]).
  { unfold availableParticles. simpl.
    rewrite Nat.eqb_refl. simpl.
    destruct (Nat.eqb_spec r2 r1) as [->|_]; [congruence|]. simpl.
    rewrite H2', Hs2'. unfold a1', a2'. rewrite !update_radius, Hnear.
    reflexivity. }
  assert (H1r : removeParticles [r1; r2] h2 !! r1
                = Some (set_state a1' removed))
    by (apply removeParticles_listed; [repeat constructor|assumption]).
  assert (H2r : removeParticles [r1; r2] h2 !! r2
                = Some (set_state a2' removed))
    by (apply removeParticles_listed; [repeat constructor|assumption]).
  assert (Hlen3 : length (removeParticles [r1; r2] h2) = length (heap w))
    by now rewrite removeParticles_length.
  set (h3 := removeParticles [r1; r2] h2) in *.
  assert (Hloc : getAvgPos h3 [r1; r2] = loc).
  { unfold getAvgPos, loc. simpl. now rewrite H1r, H2r. }
  set (w1 := mkWorld h2 [r1; r2] [] false temp n).
  set (w2 := mkWorld (h3 ++ [createParticle E "B" loc temp COOLDOWN_DIST n;
                             createParticle E "B" loc temp COOLDOWN_DIST (2 + n)])
                     [r1; r2] [length (heap w); S (length (heap w))]
                     false temp (4 + n)).
  assert (Htry : tryReactions E [rxn1] [r1; r2] w1 = w2).
  { simpl tryReactions. unfold attemptReaction. cbn [heap w1].
    rewrite (consume_two_A h2 r1 r2 a1' a2') by assumption.
    fold h3. rewrite Hloc. unfold fire. cbn [heap w1]. fold h3.
    unfold getFwdProducedParticles. simpl. now rewrite Hlen3. }
  unfold updateFrame, mergeAndSweep. rewrite Hrun, Hlive, Hqueue. simpl app.
  rewrite (sweep_two (canvas E) (heap w) r1 r2 a1 a2) by congruence.
  fold a1' a2' h2. cbv beta iota zeta. cbn [particleList].
  change (collide E [r1; r2] w1 = w2).
  rewrite (collide_active E w1 r1 [r2] a1') by assumption.
  cbn [heap particleList w1]. rewrite Hcands, Hrules, Htry.
  rewrite (collide_skip E w2 r2 [] (set_state a2' removed)).
  - reflexivity.
  - unfold w2. cbn [heap]. apply lookup_app_l_Some, H2r.
  - discriminate.
Qed.
End Scenario.

(** In binary64 a reaction product is created in cooldown, of the species
    and at the place asked for. *)
Lemma float_product (E : Env float) (f : string) (loc : Vector float)
    (temp : float) (n : nat) :
  let p := createParticle E f loc temp COOLDOWN_DIST n in
  formula p = f /\ state p = cooldown /\ pos p = loc.
Proof. repeat split. Qed.

(** C5, amended.  Under the single rule [2A <=> 2B], a tick that runs on
    a live list of exactly two active A particles and an empty queue ends
    with both removed and exactly two B in the queue, each in cooldown at
    the average position of the two A, provided the two still overlap
    once the tick has moved them (they may start at one point or not).
    The average is written out: per coordinate, the sum of the two
    positions after the move, taken from 0 as the code takes it, over
    2. *)
Theorem two_overlapping_A_become_two_B (E : Env float) (w : World float)
    (r1 r2 : ref) (a1 a2 : Particle float) :
  reactionList E = [rxn1] -> containerPaused w = false ->
  particleList w = [r1; r2] -> particleCreationQueue w = [] ->
  r1 <> r2 -> heap w !! r1 = Some a1 -> heap w !! r2 = Some a2 ->
  formula a1 = "A"%string -> formula a2 = "A"%string ->
  state a1 = active -> state a2 = active ->
  (getDist (pos (update (canvas E) a1)) (pos (update (canvas E) a2))
   <? radius a1 + radius a2)%float = true ->
  let w' := updateFrame E w in
  let p1 := pos (update (canvas E) a1) in
  let p2 := pos (update (canvas E) a2) in
  let centroid :=
    mkVector ((0 + x p1 + x p2) / 2)%float ((0 + y p1 + y p2) / 2)%float in
  let n := length (heap w) in
  stateOf (heap w') r1 = Some removed
  /\ stateOf (heap w') r2 = Some removed
  /\ particleCreationQueue w' = [n; S n]
  /\ (forall q : ref, q ∈ [n; S n] ->
        exists b, heap w' !! q = Some b
                  /\ formula b = "B"%string /\ state b = cooldown
                  /\ pos b = centroid).
Proof.
  intros Hrules Hrun Hlive Hqueue Hne H1 H2 Hf1 Hf2 Hs1 Hs2 Hnear
         w' p1 p2 centroid n.
  assert (Hr1 : (r1 < length (heap w))%nat) by eauto using lookup_lt_Some.
  assert (Hr2 : (r2 < length (heap w))%nat) by eauto using lookup_lt_Some.
  pose proof (scenario_generic E w r1 r2 a1 a2 Hrules Hrun Hlive Hqueue
                Hne H1 H2 Hf1 Hf2 Hs1 Hs2 Hnear) as Hw'.
  cbv zeta in Hw'.
  change (getAvgPos [update (canvas E) a1; update (canvas E) a2] [0; 1]%nat)
    with centroid in Hw'.
  fold w' in Hw'.
  set (h2 := <[r2:=update (canvas E) a2]> (<[r1:=update (canvas E) a1]> (heap w)))
    in Hw'.
  assert (Hlen : length (removeParticles [r1; r2] h2) = n).
  { rewrite removeParticles_length. unfold h2. now rewrite !length_insert. }
  assert (H1' : h2 !! r1 = Some (update (canvas E) a1)).
  { unfold h2. rewrite list_lookup_insert_ne by congruence.
    now apply list_lookup_insert_eq. }
  assert (H2' : h2 !! r2 = Some (update (canvas E) a2)).
  { unfold h2. apply list_lookup_insert_eq. now rewrite length_insert. }
  rewrite Hw'. cbn [heap particleCreationQueue]. unfold stateOf.
  split; [|split; [|split; [reflexivity|]]].
  - rewrite lookup_app_l by lia.
    now rewrite (removeParticles_listed [r1; r2] r1 h2 _
                   ltac:(repeat constructor) H1').
  - rewrite lookup_app_l by lia.
    now rewrite (removeParticles_listed [r1; r2] r2 h2 _
                   ltac:(repeat constructor) H2').
  - intros q Hq.
    apply elem_of_cons in Hq as [->|Hq];
      [|apply list_elem_of_singleton in Hq as ->];
      rewrite lookup_app_r by lia; rewrite Hlen.
    + rewrite Nat.sub_diag. eexists. split; [reflexivity|].
      apply float_product.
    + replace (S n - n)%nat with 1%nat by lia.
      eexists. split; [reflexivity|]. apply float_product.
Qed.

Lemma two_overlapping_A_become_two_B_witness :
  let E := hostEnv square800 [rxn1] in
  let w' := updateFrame E restingPair in
  stateOf (heap w') 0%nat = Some removed
  /\ stateOf (heap w') 1%nat = Some removed
  /\ particleCreationQueue w' = [2; 3]%nat
  /\ (forall q : ref, q ∈ [2; 3]%nat ->
        exists b, heap w' !! q = Some b
                  /\ formula b = "B"%string /\ state b = cooldown
                  /\ pos b = mkVector 405%float 402%float).
Proof.
  apply (two_overlapping_A_become_two_B
           (hostEnv square800 [rxn1]) restingPair 0%nat 1%nat
           (particleAt "A" 400 400 0 0) (particleAt "A" 410 404 0 0));
    try reflexivity.
  discriminate.
Defined.

(** C5 as stated fails for two A that start at one point and fly apart:
    after the tick has moved them they are 30 apart, not under the sum of
    their radii, 20; both stay active and nothing is queued. *)
Lemma two_A_at_one_point_fly_apart :
  let w' := updateFrame (hostEnv square800 [rxn1]) fastPair in
  map formula (heap fastPair) = ["A"; "A"]%string
  /\ map state (heap fastPair) = [active; active]
  /\ map pos (heap fastPair)
     = [mkVector 400%float 400%float; mkVector 400%float 400%float]
  /\ map state (heap w') = [active; active]
  /\ particleCreationQueue w' = [].
Proof. vm_compute. repeat split; reflexivity. Qed.

(** * Further properties of the program *)

(** ** Vectors, in exact arithmetic *)

(** Case analysis on the comparisons of real numbers a goal makes. *)
Ltac real_cases :=
  repeat match goal with
         | |- context [Rlt_dec ?a ?b] => destruct (Rlt_dec a b)
         | |- context [Rle_dec ?a ?b] => destruct (Rle_dec a b)
         | |- context [Req_dec_T ?a ?b] => destruct (Req_dec_T a b)
         end.

(** The root in [getMagnitude] and [getDist] is of a sum of two squares,
    never of a negative number. *)
Ltac sum_of_squares :=
  repeat match goal with
         | |- context [Rlt_dec ?a 0] =>
           let Hneg := fresh "Hneg" in
           destruct (Rlt_dec a 0) as [Hneg|_];
             [exfalso; revert Hneg; apply Rle_not_lt;
              apply Rplus_le_le_0_compat; apply Rle_0_sqr|]
         end.

Lemma sqrt_sum_squares_zero (a b : R) :
  sqrt (a * a + b * b) = 0%R -> a = 0%R /\ b = 0%R.
Proof.
  intros Hz. apply sqrt_eq_0 in Hz; [|nra]. split; nra.
Qed.

(** X1.  [getNormalized] returns the zero vector for the zero vector and
    a vector of length 1 for any other. *)
Theorem getNormalized_unit (vx vy : R) :
  let v := mkVector (Some vx) (Some vy) in
  (vx = 0%R /\ vy = 0%R -> getNormalized v = mkVector (Some 0%R) (Some 0%R))
  /\ (~ (vx = 0%R /\ vy = 0%R) ->
      getMagnitude (getNormalized v) = Some 1%R).
Proof.
  intros v. unfold v, getNormalized. rewrite xreal_getMagnitude.
  set (m := sqrt (vx * vx + vy * vy)).
  change (Some m =? #0)%num with (if Req_dec_T m 0 then true else false).
  split.
  - intros [-> ->]. destruct (Req_dec_T m 0) as [|Hm]; [reflexivity|].
    exfalso. apply Hm. unfold m.
    replace (0 * 0 + 0 * 0)%R with 0%R by ring. apply sqrt_0.
  - intros Hnz. destruct (Req_dec_T m 0) as [Hm|Hm].
    + exfalso. apply Hnz. now apply sqrt_sum_squares_zero.
    + cbn [x y]. rewrite !(xreal_div _ m Hm), xreal_getMagnitude. f_equal.
      assert (Hmm : (m * m = vx * vx + vy * vy)%R) by (apply sqrt_sqrt; nra).
      replace (vx / m * (vx / m) + vy / m * (vy / m))%R with 1%R.
      * apply sqrt_1.
      * field_simplify_eq; [nra|assumption].
Qed.

Lemma getNormalized_unit_witness :
  getMagnitude (getNormalized (mkVector (Some 3%R) (Some 4%R))) = Some 1%R.
Proof.
  apply (proj2 (getNormalized_unit 3 4)). intros [H _]. lra.
Defined.

(** X2.  With the real cosine and sine, [getRotated] keeps the length of
    a vector, and rotating back by the opposite angle returns it. *)
Theorem getRotated_round_trip (random : nat -> R) (c : dimensions xreal)
    (rules : list Reaction) (vx vy theta : R) :
  let E := idealEnv random c rules in
  let v := mkVector (Some vx) (Some vy) in
  getRotated E (getRotated E v (Some theta)) (Some (- theta)%R) = v
  /\ getMagnitude (getRotated E v (Some theta)) = getMagnitude v.
Proof.
  intros E v.
  pose proof (sin2_cos2 theta) as Hsc. unfold Rsqr in Hsc.
  assert (Hone : forall u : R,
             (u * (sin theta * sin theta + cos theta * cos theta))%R = u)
    by (intros u; rewrite Hsc; ring).
  unfold getRotated, v. cbn [x y]. simpl. split.
  - rewrite cos_neg, sin_neg.
    f_equal; f_equal;
      match goal with
      | |- _ = ?u =>
        transitivity
          (u * (sin theta * sin theta + cos theta * cos theta))%R;
          [ring|apply Hone]
      end.
  - unfold getMagnitude. simpl. sum_of_squares.
    f_equal. f_equal.
    match goal with
    | |- _ = ?u =>
      transitivity
        (u * (sin theta * sin theta + cos theta * cos theta))%R;
        [ring|apply Hone]
    end.
Qed.

(** X3.  In exact arithmetic, [a.getDifference(b)] is the vector from
    [a] to [b]: added to [a] it gives [b]; the subtraction is [b - a],
    not [a - b]. *)
Theorem getDifference_points_to_other (ax ay bx0 by0 : R) :
  let a := mkVector (Some ax) (Some ay) in
  let b := mkVector (Some bx0) (Some by0) in
  getAddition a (getDifference a b) = b
  /\ getDifference a b = getNeg (getDifference b a).
Proof.
  intros a b. unfold getAddition, getDifference, getNeg, getScaled. simpl.
  split; f_equal; f_equal; ring.
Qed.

(** X4.  [getDist] is the length of the difference vector, it is
    symmetric and never negative, so the overlap test of the collision
    loop gives the same answer for a pair in either order. *)
Theorem getDist_symmetric (ax ay bx0 by0 r1 r2 : R) :
  let a := mkVector (Some ax) (Some ay) in
  let b := mkVector (Some bx0) (Some by0) in
  getDist a b = getMagnitude (getDifference a b)
  /\ getDist a b = getDist b a
  /\ (exists d : R, getDist a b = Some d /\ (0 <= d)%R)
  /\ (getDist a b <? Some r1 + Some r2)%num
     = (getDist b a <? Some r2 + Some r1)%num.
Proof.
  intros a b.
  assert (Hsym : getDist a b = getDist b a).
  { unfold getDist. simpl. sum_of_squares. f_equal. f_equal. ring. }
  split; [|split; [exact Hsym|split]].
  - unfold getDist, getMagnitude, getDifference. simpl. sum_of_squares.
    f_equal. f_equal. ring.
  - unfold getDist. simpl. sum_of_squares.
    eexists. split; [reflexivity|apply sqrt_pos].
  - rewrite Hsym. simpl. now rewrite (Rplus_comm r1 r2).
Qed.

(** ** Particles, in exact arithmetic *)

(** The boundary tests on real numbers give real numbers, and each
    velocity component keeps its absolute value. *)
Lemma reflect_real (hh ww r px py vx vy : R) :
  exists qx qy wx wy : R,
    reflect (mkDimensions (Some hh) (Some ww)) (Some r)
            (getAddition (mkVector (Some px) (Some py))
                         (mkVector (Some vx) (Some vy)))
            (getCopy (mkVector (Some vx) (Some vy)))
    = (mkVector (Some qx) (Some qy), mkVector (Some wx) (Some wy))
    /\ (wx * wx = vx * vx)%R /\ (wy * wy = vy * vy)%R
    /\ ((2 * r <= ww)%R -> (r <= qx <= ww - r)%R)
    /\ ((2 * r <= hh)%R -> (r <= qy <= hh - r)%R).
Proof.
  unfold reflect, getAddition, getCopy. simpl.
  repeat (progress (real_cases; simpl));
    do 4 eexists;
    (split; [reflexivity|split; [ring|split; [ring|split; intros; lra]]]).
Qed.

(** One [update] of a particle whose numbers are real, in a canvas whose
    sizes are. *)
Lemma update_real (c : dimensions xreal) (p : Particle xreal) (d s : R) :
  realCanvas c -> realParticle p ->
  cooldownDist p = Some d -> getMagnitude (vel p) = Some s ->
  realParticle (update c p)
  /\ getMagnitude (vel (update c p)) = Some s
  /\ (state (update c p), cooldownDist (update c p))
     = if Rlt_dec 0 d
       then if Rle_dec (d - s) 0 then (active, Some 0%R)
            else if state_eqb (state p) active then (active, Some 0%R)
                 else (state p, Some (d - s)%R)
       else (active, Some 0%R).
Proof.
  intros (hh & ww & ->) ((px & py & Hpos) & (vx & vy & Hvel) & (r & Hr) & _)
         Hd Hs.
  destruct (reflect_real hh ww r px py vx vy)
    as (qx & qy & wx & wy & Hrefl & Hx & Hy & _).
  rewrite Hvel, xreal_getMagnitude in Hs. injection Hs as Hs.
  assert (Hs' : getMagnitude (mkVector (Some wx) (Some wy)) = Some s).
  { rewrite xreal_getMagnitude, Hx, Hy. now f_equal. }
  pose proof (update_pos_vel (mkDimensions (Some hh) (Some ww)) p) as Hpv.
  rewrite Hpos, Hvel, Hr, Hrefl in Hpv. injection Hpv as Hq Hw.
  assert (Hcd : (state (update (mkDimensions (Some hh) (Some ww)) p),
                 cooldownDist (update (mkDimensions (Some hh) (Some ww)) p))
                = if Rlt_dec 0 d
                  then if Rle_dec (d - s) 0 then (active, Some 0%R)
                       else if state_eqb (state p) active
                            then (active, Some 0%R)
                            else (state p, Some (d - s)%R)
                  else (active, Some 0%R)).
  { unfold update. rewrite Hpos, Hvel, Hr, Hrefl, Hd, Hs'. simpl.
    repeat (progress (real_cases; simpl)); try lra;
      destruct (state p); reflexivity. }
  split; [|split; [now rewrite Hw|exact Hcd]].
  split; [now exists qx, qy|]. split; [now exists wx, wy|].
  split; [exists r; now rewrite update_radius|].
  revert Hcd. real_cases; try destruct (state_eqb _ _);
    intros [= _ ->]; eauto.
Qed.

(** X5.  In exact arithmetic, in a canvas at least one diameter wide and
    high, [update] leaves the particle inside it, wherever it was and
    however fast it moves: its centre is at least [radius] away from
    every wall. *)
Theorem update_keeps_inside (p : Particle xreal) (hh ww r px py vx vy : R) :
  pos p = mkVector (Some px) (Some py) ->
  vel p = mkVector (Some vx) (Some vy) ->
  radius p = Some r ->
  (2 * r <= ww)%R -> (2 * r <= hh)%R ->
  exists qx qy : R,
    pos (update (mkDimensions (Some hh) (Some ww)) p)
    = mkVector (Some qx) (Some qy)
    /\ (r <= qx <= ww - r)%R /\ (r <= qy <= hh - r)%R.
Proof.
  intros Hpos Hvel Hr Hw Hh.
  destruct (reflect_real hh ww r px py vx vy)
    as (qx & qy & wx & wy & Hrefl & _ & _ & Hqx & Hqy).
  pose proof (update_pos_vel (mkDimensions (Some hh) (Some ww)) p) as Hpv.
  rewrite Hpos, Hvel, Hr, Hrefl in Hpv. injection Hpv as Hq _.
  exists qx, qy. auto.
Qed.

Lemma update_keeps_inside_witness :
  exists qx qy : R,
    pos (update (mkDimensions (Some 800%R) (Some 800%R))
                (idealParticle 1000 (-1000) 2))
    = mkVector (Some qx) (Some qy)
    /\ (10 <= qx <= 800 - 10)%R /\ (10 <= qy <= 800 - 10)%R.
Proof.
  apply (update_keeps_inside (idealParticle 1000 (-1000) 2)
           800 800 10 400 400 1000 (-1000)); try reflexivity; lra.
Defined.

(** X6.  [update] never changes the speed of a particle: a wall only
    flips the sign of a velocity component. *)
Theorem update_keeps_speed (c : dimensions xreal) (p : Particle xreal) :
  realCanvas c -> realParticle p ->
  getMagnitude (vel (update c p)) = getMagnitude (vel p).
Proof.
  intros Hc Hp.
  pose proof Hp as (_ & (vx & vy & Hvel) & _ & (d & Hd)).
  assert (Hs : getMagnitude (vel p) = Some (sqrt (vx * vx + vy * vy)))
    by (rewrite Hvel; apply xreal_getMagnitude).
  rewrite Hs. now apply (update_real c p d _ Hc Hp Hd Hs).
Qed.

Lemma update_keeps_speed_witness :
  getMagnitude (vel (update (mkDimensions (Some 800%R) (Some 800%R))
                            (idealParticle 1000 (-1000) 2)))
  = getMagnitude (vel (idealParticle 1000 (-1000) 2)).
Proof.
  apply (update_keeps_speed (mkDimensions (Some 800%R) (Some 800%R))
           (idealParticle 1000 (-1000) 2)).
  - now exists 800%R, 800%R.
  - unfold realParticle, realVector. simpl. repeat split; repeat eexists.
Defined.

(** X7.  In exact arithmetic, a particle in cooldown with budget [d] and
    speed [s] is still in cooldown after [n] updates if it has travelled
    less than [d], and active from the update on which [n * s] reaches
    [d]: faster particles become reactive sooner, and one at rest never
    does. *)
Theorem cooldown_ends_by_distance (c : dimensions xreal)
    (p : Particle xreal) (d s : R) (n : nat) :
  realCanvas c -> realParticle p ->
  state p = cooldown -> cooldownDist p = Some d -> (0 < d)%R ->
  getMagnitude (vel p) = Some s ->
  state (Nat.iter n (update c) p)
  = if Rle_dec d (INR n * s) then active else cooldown.
Proof.
  intros Hc Hp Hstate Hd Hpos Hs.
  assert (Hs0 : (0 <= s)%R).
  { destruct Hp as (_ & (vx & vy & Hvel) & _).
    rewrite Hvel, xreal_getMagnitude in Hs. injection Hs as <-.
    apply sqrt_pos. }
  assert (Hinv : let q := Nat.iter n (update c) p in
                 realParticle q /\ getMagnitude (vel q) = Some s
                 /\ (((d <= INR n * s)%R /\ state q = active
                      /\ cooldownDist q = Some 0%R)
                     \/ ((INR n * s < d)%R /\ state q = cooldown
                         /\ cooldownDist q = Some (d - INR n * s)%R))).
  { induction n as [|n IH].
    - simpl. split; [assumption|split; [assumption|right]].
      rewrite Rmult_0_l, Rminus_0_r. auto.
    - cbv zeta in *. destruct IH as (Hq & Hsq & Hcase).
      rewrite S_INR. simpl Nat.iter.
      set (q := Nat.iter n (update c) p) in *.
      destruct Hcase as [(Hle & Hst & Hcd)|(Hlt & Hst & Hcd)].
      + destruct (update_real c q 0 s Hc Hq Hcd Hsq) as (Hq' & Hs' & Hout).
        split; [assumption|split; [assumption|left]].
        destruct (Rlt_dec 0 0) as [Habs|_]; [lra|].
        injection Hout as -> ->. repeat split; nra.
      + destruct (update_real c q _ s Hc Hq Hcd Hsq) as (Hq' & Hs' & Hout).
        split; [assumption|split; [assumption|]].
        rewrite Hst in Hout. simpl in Hout.
        destruct (Rlt_dec 0 (d - INR n * s)) as [_|Habs]; [|lra].
        destruct (Rle_dec (d - INR n * s - s) 0) as [Hend|Hmore];
          injection Hout as -> ->.
        * left. repeat split; lra.
        * right. repeat split; [lra|f_equal; ring]. }
  destruct Hinv as (_ & _ & [(Hle & -> & _)|(Hlt & -> & _)]);
    destruct (Rle_dec d (INR n * s)); try reflexivity; lra.
Qed.

Lemma cooldown_ends_by_distance_witness :
  let c := mkDimensions (Some 800%R) (Some 800%R) in
  let p := mkParticle "B" "red" (Some 10%R)
                      (mkVector (Some 400%R) (Some 400%R))
                      (mkVector (Some 3%R) (Some 4%R)) (Some 2%R)
                      cooldown (Some 20%R) in
  state (Nat.iter 3 (update c) p) = cooldown
  /\ state (Nat.iter 4 (update c) p) = active.
Proof.
  assert (Hs : sqrt (3 * 3 + 4 * 4) = 5%R).
  { replace (3 * 3 + 4 * 4)%R with (5 * 5)%R by ring.
    apply sqrt_square. lra. }
  assert (Hrun : forall n : nat,
             state (Nat.iter n
                      (update (mkDimensions (Some 800%R) (Some 800%R)))
                      (mkParticle "B" "red" (Some 10%R)
                         (mkVector (Some 400%R) (Some 400%R))
                         (mkVector (Some 3%R) (Some 4%R)) (Some 2%R)
                         cooldown (Some 20%R)))
             = if Rle_dec 20 (INR n * 5) then active else cooldown).
  { intros n. apply cooldown_ends_by_distance; try reflexivity.
    - now exists 800%R, 800%R.
    - unfold realParticle, realVector. simpl. repeat split; repeat eexists.
    - lra.
    - cbn [vel]. rewrite xreal_getMagnitude. now rewrite Hs. }
  split.
  - rewrite (Hrun 3%nat). simpl INR. destruct (Rle_dec _ _); [lra|reflexivity].
  - rewrite (Hrun 4%nat). simpl INR. destruct (Rle_dec _ _); [reflexivity|lra].
Defined.

(** ** Temperature *)

(** In exact arithmetic [changeTemperature] multiplies the velocity by
    [newTemp / temperature] and touches nothing but velocity and
    temperature. *)
Lemma changeTemperature_exact (p : Particle xreal) (t t' vx vy : R) :
  temperature p = Some t -> t <> 0%R ->
  vel p = mkVector (Some vx) (Some vy) ->
  exists wx wy : R,
    changeTemperature p (Some t')
    = mkParticle (formula p) (color p) (radius p) (pos p)
                 (mkVector (Some wx) (Some wy)) (Some t')
                 (state p) (cooldownDist p)
    /\ wx = (vx * (t' / t))%R /\ wy = (vy * (t' / t))%R.
Proof.
  intros Ht Ht0 Hv. unfold changeTemperature. rewrite Ht, Hv.
  change (Some t =? #0)%num with (if Req_dec_T t 0 then true else false).
  destruct (Req_dec_T t 0) as [|_]; [contradiction|].
  cbv zeta. rewrite xreal_getMagnitude.
  set (m := sqrt (vx * vx + vy * vy)).
  rewrite (xreal_div m t Ht0).
  unfold getNormalized. rewrite xreal_getMagnitude. fold m.
  change (Some m =? #0)%num with (if Req_dec_T m 0 then true else false).
  destruct (Req_dec_T m 0) as [Hz|Hnz].
  - apply sqrt_sum_squares_zero in Hz as [-> ->].
    unfold getScaled. cbn [x y]. simpl nmul.
    do 2 eexists. split; [reflexivity|]. split; field; assumption.
  - cbn [x y]. rewrite !(xreal_div _ m Hnz).
    unfold getScaled. cbn [x y]. simpl nmul.
    do 2 eexists. split; [reflexivity|]. split; field; auto.
Qed.

(** X8.  [changeTemperature] scales the velocity by [newTemp /
    temperature], whatever the sign of either: a temperature of the
    opposite sign turns the particle round, and position, state and
    cooldown are as before. *)
Theorem changeTemperature_scales_velocity (p : Particle xreal)
    (t t' vx vy : R) :
  temperature p = Some t -> t <> 0%R ->
  vel p = mkVector (Some vx) (Some vy) ->
  let p' := changeTemperature p (Some t') in
  (exists wx wy : R,
      vel p' = mkVector (Some wx) (Some wy)
      /\ wx = (vx * (t' / t))%R /\ wy = (vy * (t' / t))%R)
  /\ temperature p' = Some t'
  /\ pos p' = pos p /\ state p' = state p
  /\ cooldownDist p' = cooldownDist p /\ radius p' = radius p
  /\ formula p' = formula p.
Proof.
  intros Ht Ht0 Hv p'.
  destruct (changeTemperature_exact p t t' vx vy Ht Ht0 Hv)
    as (wx & wy & Hp' & Hwx & Hwy).
  subst p'. rewrite Hp'. cbn.
  split; [now exists wx, wy|]. now repeat split.
Qed.

Lemma changeTemperature_scales_velocity_witness :
  let p' := changeTemperature (idealParticle 3 4 2) (Some (-4)%R) in
  (exists wx wy : R,
      vel p' = mkVector (Some wx) (Some wy)
      /\ wx = (3 * (-4 / 2))%R /\ wy = (4 * (-4 / 2))%R)
  /\ temperature p' = Some (-4)%R
  /\ pos p' = pos (idealParticle 3 4 2)
  /\ state p' = state (idealParticle 3 4 2)
  /\ cooldownDist p' = cooldownDist (idealParticle 3 4 2)
  /\ radius p' = radius (idealParticle 3 4 2)
  /\ formula p' = formula (idealParticle 3 4 2).
Proof.
  apply (changeTemperature_scales_velocity (idealParticle 3 4 2)
           2 (-4) 3 4); try reflexivity.
  lra.
Defined.

(** X9.  Temperature changes compose: going to [t1] and then to [t2]
    leaves the particle as going to [t2] at once does, as long as [t1] is
    not 0. *)
Theorem changeTemperature_composes (p : Particle xreal)
    (t t1 t2 vx vy : R) :
  temperature p = Some t -> t <> 0%R -> t1 <> 0%R ->
  vel p = mkVector (Some vx) (Some vy) ->
  changeTemperature (changeTemperature p (Some t1)) (Some t2)
  = changeTemperature p (Some t2).
Proof.
  intros Ht Ht0 Ht1 Hv.
  destruct (changeTemperature_exact p t t1 vx vy Ht Ht0 Hv)
    as (ux & uy & Hp1 & Hux & Huy).
  destruct (changeTemperature_exact p t t2 vx vy Ht Ht0 Hv)
    as (wx & wy & Hp2 & Hwx & Hwy).
  rewrite Hp1, Hp2.
  destruct (changeTemperature_exact
              (mkParticle (formula p) (color p) (radius p) (pos p)
                          (mkVector (Some ux) (Some uy)) (Some t1)
                          (state p) (cooldownDist p))
              t1 t2 ux uy eq_refl Ht1 eq_refl)
    as (zx & zy & Hp12 & Hzx & Hzy).
  rewrite Hp12. cbn.
  assert (zx = wx) as -> by (subst; field; auto).
  assert (zy = wy) as -> by (subst; field; auto).
  reflexivity.
Qed.

Lemma changeTemperature_composes_witness :
  changeTemperature (changeTemperature (idealParticle 3 4 2) (Some 7%R))
                    (Some 5%R)
  = changeTemperature (idealParticle 3 4 2) (Some 5%R).
Proof.
  apply (changeTemperature_composes (idealParticle 3 4 2) 2 7 5 3 4);
    try reflexivity; lra.
Defined.

(** X10.  In binary64, temperature 0 is final: once a particle has been
    given temperature 0, no later [changeTemperature] changes it. *)
Theorem zero_temperature_is_final (p : Particle float) (t : float) :
  changeTemperature (changeTemperature p 0%float) t
  = changeTemperature p 0%float.
Proof.
  destruct (temperature p =? #0)%num eqn:Hz.
  - rewrite (changeTemperature_at_zero p 0%float Hz).
    now apply changeTemperature_at_zero.
  - apply changeTemperature_at_zero. unfold changeTemperature.
    rewrite Hz. reflexivity.
Qed.

(** ** Creation *)

(** X11.  With [Math.random] in [0, 1) and the real cosine and sine, a
    particle created at temperature [T >= 0] has a speed between half and
    one and a half times [T], in any direction, whatever its cooldown. *)
Theorem createParticle_speed_range (random : nat -> R)
    (c : dimensions xreal) (rules : list Reaction) (f : string)
    (loc : Vector xreal) (T : R) (cd : xreal) (n : nat) :
  (0 <= random n < 1)%R -> (0 <= T)%R ->
  let p := createParticle (idealEnv random c rules) f loc (Some T) cd n in
  exists s : R,
    getMagnitude (vel p) = Some s /\ (T / 2 <= s <= 3 * T / 2)%R.
Proof.
  intros Hrand HT p.
  pose proof (sin2_cos2 (random (S n) * (2 * PI - 0) + 0)) as Hsc.
  unfold Rsqr in Hsc.
  set (a := (random (S n) * (2 * PI - 0) + 0)%R) in *.
  set (ss := (random n * (1 + 1 / 2 - (1 - 1 / 2)) + (1 - 1 / 2))%R).
  assert (Hvel : vel p
                 = mkVector (Some (ss * T * cos a - ss * 0 * sin a)%R)
                            (Some (ss * T * sin a + ss * 0 * cos a)%R)).
  { subst p. unfold createParticle. destruct (negb _); cbn [vel];
      unfold getRotated, getScaled, getRandFloat, MAX_SPEED_SCALER;
      simpl; destruct (Req_dec_T 2 0); try lra; reflexivity. }
  rewrite Hvel, xreal_getMagnitude.
  exists (ss * T)%R. split.
  - f_equal.
    replace ((ss * T * cos a - ss * 0 * sin a)
             * (ss * T * cos a - ss * 0 * sin a)
             + (ss * T * sin a + ss * 0 * cos a)
               * (ss * T * sin a + ss * 0 * cos a))%R
      with ((ss * T) * (ss * T) * (sin a * sin a + cos a * cos a))%R by ring.
    rewrite Hsc, Rmult_1_r. apply sqrt_square. unfold ss. nra.
  - unfold ss. nra.
Qed.

Lemma createParticle_speed_range_witness :
  let p := createParticle
             (idealEnv (fun _ => (1 / 4)%R)
                       (mkDimensions (Some 800%R) (Some 800%R)) [rxn1])
             "A" (mkVector (Some 400%R) (Some 400%R)) (Some 2%R)
             (Some 0%R) 0 in
  exists s : R,
    getMagnitude (vel p) = Some s /\ (2 / 2 <= s <= 3 * 2 / 2)%R.
Proof.
  apply (createParticle_speed_range (fun _ => (1 / 4)%R)); lra.
Defined.

(** ** Matching and production, for any arithmetic *)

Section ReactionFacts.
Context {num : Type} {NUM : Number num}.
Implicit Types (h : list (Particle num)) (w : World num) (E : Env num).
Implicit Types (cands acc rest consumed : list ref) (side : list molFormula).
Local Open Scope nat_scope.

(** A successful match has split the candidates into the consumed ones
    and the rest, and has consumed as many as the side stands for. *)
Lemma consumeLoop_count h side : forall cands acc consumed rest,
  consumeLoop h side cands acc = (Some consumed, rest) ->
  consumed ++ rest = acc ++ cands
  /\ length consumed = length acc + total side.
Proof.
  induction side as [|mf side IH]; simpl; intros cands acc consumed rest Hrun.
  - injection Hrun as <- <-. split; [reflexivity|lia].
  - destruct (Z.ltb_spec
                (Z.of_nat (length (List.filter (matches h (mol_formula mf))
                                               cands)))
                (molCoeff mf)) as [|Hge]; [discriminate|].
    pose proof (filter_length_le (matches h (mol_formula mf)) cands) as Hle.
    apply IH in Hrun as [Hsplit Hlen]. split.
    + now rewrite Hsplit, <- app_assoc, take_drop.
    + rewrite Hlen, length_app, length_take_le by lia. lia.
Qed.

(** A failed match, too, hands back a tail of the candidate array. *)
Lemma consumeLoop_rest_length h side cands acc
    (res : option (list ref)) rest :
  consumeLoop h side cands acc = (res, rest) -> length rest <= length cands.
Proof.
  intros Hrun. apply consumeLoop_shape in Hrun as (k & -> & _).
  rewrite length_drop. lia.
Qed.

Lemma attemptReaction_too_few E rx cands temp w :
  length cands < total (reactants rx) ->
  length cands < total (products rx) ->
  exists rest, attemptReaction E rx cands temp w = (false, rest, w)
               /\ length rest <= length cands.
Proof.
  intros Hfwd Hrev. unfold attemptReaction.
  destruct (getFwdConsumedParticles (heap w) rx cands) as [fwd rest1] eqn:H1.
  pose proof (consumeLoop_rest_length _ _ _ _ _ _ H1) as Hlen1.
  destruct fwd as [c|].
  { apply consumeLoop_count in H1 as [Hsplit Hlen]. simpl in *.
    apply (f_equal length) in Hsplit. rewrite length_app in Hsplit. lia. }
  destruct (getRevConsumedParticles (heap w) rx rest1) as [rev rest2] eqn:H2.
  pose proof (consumeLoop_rest_length _ _ _ _ _ _ H2) as Hlen2.
  destruct rev as [c|].
  { apply consumeLoop_count in H2 as [Hsplit Hlen]. simpl in *.
    apply (f_equal length) in Hsplit. rewrite length_app in Hsplit. lia. }
  exists rest2. split; [now destruct (reversible rx)|lia].
Qed.

Lemma createMany_spec E f loc temp k : forall n,
  fst (createMany E f loc temp k n)
  = map (fun i => createParticle E f loc temp COOLDOWN_DIST (n + 2 * i))
        (seq 0 k)
  /\ snd (createMany E f loc temp k n) = n + 2 * k.
Proof.
  induction k as [|k IH]; intros n; simpl; [split; [reflexivity|lia]|].
  destruct (IH (S (S n))) as [Hps Hn].
  destruct (createMany E f loc temp k (S (S n))) as [ps n']. simpl in *.
  subst. split; [|lia]. rewrite Nat.add_0_r. f_equal.
  rewrite <- seq_shift, map_map. apply map_ext. intros i. f_equal. lia.
Qed.

Lemma createParticle_fields E f loc temp cd n :
  let p := createParticle E f loc temp cd n in
  formula p = f /\ pos p = loc /\ temperature p = temp /\ radius p = RADIUS.
Proof. unfold createParticle. now destruct (negb _). Qed.

Lemma produceLoop_spec E side loc temp : forall n,
  let out := produceLoop E side loc temp n in
  map formula (fst out) = speciesOf side
  /\ length (fst out) = total side
  /\ snd out = n + 2 * total side
  /\ Forall (fun p => pos p = loc /\ temperature p = temp
                      /\ radius p = RADIUS) (fst out).
Proof.
  induction side as [|mf side IH]; intros n; simpl.
  - repeat split; auto.
  - destruct (createMany_spec E (mol_formula mf) loc temp
                (Z.to_nat (molCoeff mf)) n) as [Hps Hn1].
    destruct (createMany _ _ _ _ _ n) as [ps n1]. simpl in Hps, Hn1.
    specialize (IH n1). cbv zeta in IH.
    destruct (produceLoop E side loc temp n1) as [qs n2]. simpl in *.
    destruct IH as (Hform & Hlen & Hn2 & Hall).
    assert (Hpsf : map formula ps
                   = replicate (Z.to_nat (molCoeff mf)) (mol_formula mf)).
    { assert (Hrep : forall l : list nat,
                 map formula
                     (map (fun i => createParticle E (mol_formula mf) loc temp
                                      COOLDOWN_DIST (n + 2 * i)) l)
                 = replicate (length l) (mol_formula mf)).
      { induction l as [|i l IHl]; simpl; [reflexivity|].
        f_equal; [apply createParticle_fields|exact IHl]. }
      now rewrite Hps, Hrep, length_seq. }
    repeat split.
    + now rewrite map_app, Hpsf, Hform.
    + rewrite length_app, Hlen, Hps, length_map, length_seq. reflexivity.
    + lia.
    + apply Forall_app. split; [|assumption].
      rewrite Hps. apply Forall_map, Forall_forall. intros i _.
      apply createParticle_fields.
Qed.

End ReactionFacts.

(** X12.  A match that succeeds, forward or reverse, has split the
    candidate array in two: the consumed particles followed by what is
    left of the array are the candidates in their order, and the number
    consumed is the sum of the side's coefficients. *)
Theorem match_splits_candidates {num : Type} {NUM : Number num}
    (h : list (Particle num)) (rx : Reaction)
    (cands consumed rest : list ref) :
  (getFwdConsumedParticles h rx cands = (Some consumed, rest) ->
   consumed ++ rest = cands /\ length consumed = total (reactants rx))
  /\ (getRevConsumedParticles h rx cands = (Some consumed, rest) ->
      consumed ++ rest = cands /\ length consumed = total (products rx)).
Proof.
  split; intros Hrun; apply consumeLoop_count in Hrun as [Hsplit Hlen];
    now split.
Qed.

Lemma match_splits_candidates_witness :
  [0; 1]%nat ++ [2]%nat = [0; 1; 2]%nat
  /\ length [0; 1]%nat = total (reactants rxn1).
Proof.
  apply (proj1 (match_splits_candidates
                  (restingHeap ["A"; "A"; "A"]%string) rxn1
                  [0; 1; 2]%nat [0; 1]%nat [2]%nat)).
  reflexivity.
Defined.

(** X13.  A neighbour list shorter than what either side of every rule
    stands for changes nothing: no rule fires, no particle is removed and
    nothing is queued.  So under rules that need two particles, a
    particle that overlaps no other never reacts. *)
Theorem tryReactions_too_few {num : Type} {NUM : Number num}
    (E : Env num) (rules : list Reaction) (cands : list ref)
    (w : World num) :
  Forall (fun rx => (length cands < total (reactants rx))%nat
                    /\ (length cands < total (products rx))%nat) rules ->
  tryReactions E rules cands w = w.
Proof.
  revert cands. induction rules as [|rx rules IH]; intros cands Hall;
    [reflexivity|].
  inversion Hall as [|? ? [Hfwd Hrev] Hrest]; subst. simpl.
  destruct (attemptReaction_too_few E rx cands (containerTemperature w) w
              Hfwd Hrev) as (rest & -> & Hlen).
  apply IH. eapply Forall_impl; [exact Hrest|].
  cbv beta. intros rx' [H1 H2]. split; lia.
Qed.

Lemma tryReactions_too_few_witness :
  tryReactions (hostEnv square800 [rxn1; rxnABCD]) [rxn1; rxnABCD] [0]%nat
               (worldOf (restingHeap ["A"]%string))
  = worldOf (restingHeap ["A"]%string).
Proof.
  apply (tryReactions_too_few (hostEnv square800 [rxn1; rxnABCD])).
  repeat (constructor; [split; vm_compute; lia|]). constructor.
Defined.

(** X14.  The production functions create, in the order of the side and
    coefficient-many per species, particles of the side's species, all at
    the reaction location, at the given temperature and of radius
    [RADIUS]; each costs two calls of [Math.random]. *)
Theorem produced_particles {num : Type} {NUM : Number num}
    (E : Env num) (rx : Reaction) (loc : Vector num) (temp : num) (n : nat) :
  let fwd := getFwdProducedParticles E rx loc temp n in
  let rev := getRevProducedParticles E rx loc temp n in
  (map formula (fst fwd) = speciesOf (products rx)
   /\ snd fwd = (n + 2 * total (products rx))%nat
   /\ Forall (fun p => pos p = loc /\ temperature p = temp
                       /\ radius p = RADIUS) (fst fwd))
  /\ (map formula (fst rev) = speciesOf (reactants rx)
      /\ snd rev = (n + 2 * total (reactants rx))%nat
      /\ Forall (fun p => pos p = loc /\ temperature p = temp
                          /\ radius p = RADIUS) (fst rev)).
Proof.
  intros fwd rev.
  destruct (produceLoop_spec E (products rx) loc temp n) as (H1 & _ & H2 & H3).
  destruct (produceLoop_spec E (reactants rx) loc temp n) as (H4 & _ & H5 & H6).
  now repeat split.
Qed.

Section AttemptFacts.
Context {num : Type} {NUM : Number num}.
Implicit Types (h : list (Particle num)) (w : World num) (E : Env num).
Local Open Scope nat_scope.

Lemma fire_frame w (consumed : list ref)
    (produced : list (Particle num) * nat) :
  let w' := fire consumed produced w in
  particleList w' = particleList w
  /\ containerPaused w' = containerPaused w
  /\ containerTemperature w' = containerTemperature w
  /\ length (heap w') = length (heap w) + length (fst produced)
  /\ particleCreationQueue w'
     = particleCreationQueue w
       ++ seq (length (heap w)) (length (fst produced))
  /\ (forall r p, heap w !! r = Some p ->
        heap w' !! r = Some p
        \/ (r ∈ consumed /\ heap w' !! r = Some (set_state p removed))).
Proof.
  unfold fire. simpl. rewrite length_app, removeParticles_length.
  repeat split.
  intros r p Hp.
  rewrite lookup_app_l
    by (rewrite removeParticles_length; eauto using lookup_lt_Some).
  destruct (decide (r ∈ consumed)) as [Hin|Hnot].
  - right. split; [assumption|]. now apply removeParticles_listed.
  - left. now rewrite removeParticles_other.
Qed.

End AttemptFacts.

(** What one call of [attemptReaction] does to the state. *)
Lemma attemptReaction_effect {num : Type} {NUM : Number num}
    (E : Env num) (rx : Reaction) (cands : list ref) (temp : num)
    (w w' : World num) (ok : bool) (rest : list ref) :
  attemptReaction E rx cands temp w = (ok, rest, w') ->
  particleList w' = particleList w
  /\ containerPaused w' = containerPaused w
  /\ containerTemperature w' = containerTemperature w
  /\ (exists k : nat,
         length (heap w') = (length (heap w) + k)%nat
         /\ particleCreationQueue w'
            = particleCreationQueue w ++ seq (length (heap w)) k)
  /\ (forall (r : ref) (p : Particle num), heap w !! r = Some p ->
        heap w' !! r = Some p
        \/ (r ∈ cands /\ heap w' !! r = Some (set_state p removed))).
Proof.
  unfold attemptReaction.
  destruct (getFwdConsumedParticles (heap w) rx cands) as [fwd rest1] eqn:H1.
  apply consumeLoop_subset in H1 as [Hrest1 Hfwd].
  assert (Hnone : particleList w = particleList w
            /\ containerPaused w = containerPaused w
            /\ containerTemperature w = containerTemperature w
            /\ (exists k : nat,
                   length (heap w) = (length (heap w) + k)%nat
                   /\ particleCreationQueue w
                      = particleCreationQueue w ++ seq (length (heap w)) k)
            /\ (forall (r : ref) (p : Particle num), heap w !! r = Some p ->
                  heap w !! r = Some p
                  \/ (r ∈ cands
                      /\ heap w !! r = Some (set_state p removed)))).
  { repeat split; auto. exists O. simpl. now rewrite app_nil_r, Nat.add_0_r. }
  destruct fwd as [consumed|].
  - intros [= <- <- <-].
    destruct (fire_frame w consumed
                (getFwdProducedParticles E rx
                   (getAvgPos (removeParticles consumed (heap w)) consumed)
                   temp (randomCalls w)))
      as (Hl & Hp & Ht & Hlen & Hq & Hobj).
    repeat split; try assumption; [eauto|].
    intros r p Hrp. destruct (Hobj r p Hrp) as [|[Hin Hrem]]; [now left|].
    right. split; [|assumption]. now apply (Hfwd consumed eq_refl).
  - destruct (getRevConsumedParticles (heap w) rx rest1)
      as [rev rest2] eqn:H2.
    apply consumeLoop_subset in H2 as [Hrest2 Hrev].
    destruct (reversible rx), rev as [consumed|];
      intros [= <- <- <-]; try exact Hnone.
    destruct (fire_frame w consumed
                (getRevProducedParticles E rx
                   (getAvgPos (removeParticles consumed (heap w)) consumed)
                   temp (randomCalls w)))
      as (Hl & Hp & Ht & Hlen & Hq & Hobj).
    repeat split; try assumption; [eauto|].
    intros r p Hrp. destruct (Hobj r p Hrp) as [|[Hin Hrem]]; [now left|].
    right. split; [|assumption]. apply Hrest1. now apply (Hrev consumed eq_refl).
Qed.


(** X15.  Whatever its result, [attemptReaction] leaves the live list,
    the pause flag and the temperature alone, deletes no object, appends
    only new objects to the queue, and changes an existing particle in
    one way only: a candidate may get the state ["removed"].  No
    position, velocity or other field of any particle is touched. *)
Theorem attemptReaction_frame {num : Type} {NUM : Number num}
    (E : Env num) (rx : Reaction) (cands : list ref) (temp : num)
    (w w' : World num) (ok : bool) (rest : list ref) :
  attemptReaction E rx cands temp w = (ok, rest, w') ->
  particleList w' = particleList w
  /\ containerPaused w' = containerPaused w
  /\ containerTemperature w' = containerTemperature w
  /\ (exists k : nat,
         length (heap w') = (length (heap w) + k)%nat
         /\ particleCreationQueue w'
            = particleCreationQueue w ++ seq (length (heap w)) k)
  /\ (forall (r : ref) (p : Particle num), heap w !! r = Some p ->
        heap w' !! r = Some p
        \/ (r ∈ cands /\ heap w' !! r = Some (set_state p removed))).
Proof. apply attemptReaction_effect. Qed.

Lemma attemptReaction_frame_witness :
  let E := hostEnv square800 [rxn1] in
  let w := worldOf (restingHeap ["A"; "A"; "B"]%string) in
  let w' := snd (attemptReaction E rxn1 [0; 1]%nat 2%float w) in
  particleList w' = particleList w
  /\ containerPaused w' = containerPaused w
  /\ containerTemperature w' = containerTemperature w
  /\ (exists k : nat,
         length (heap w') = (length (heap w) + k)%nat
         /\ particleCreationQueue w'
            = particleCreationQueue w ++ seq (length (heap w)) k)
  /\ (forall (r : ref) (p : Particle float), heap w !! r = Some p ->
        heap w' !! r = Some p
        \/ (r ∈ [0; 1]%nat /\ heap w' !! r = Some (set_state p removed))).
Proof.
  apply (attemptReaction_frame (hostEnv square800 [rxn1]) rxn1 [0; 1]%nat
           2%float (worldOf (restingHeap ["A"; "A"; "B"]%string)) _
           true []).
  reflexivity.
Defined.

(** X16.  When the forward match succeeds the reaction balances: as many
    candidates as the reactant side stands for are marked removed, and as
    many new particles as the product side stands for, of its species in
    its order, are allocated and queued. *)
Theorem forward_reaction_balance {num : Type} {NUM : Number num}
    (E : Env num) (rx : Reaction) (cands consumed rest : list ref)
    (temp : num) (w : World num) :
  Forall (fun r : ref => (r < length (heap w))%nat) cands ->
  getFwdConsumedParticles (heap w) rx cands = (Some consumed, rest) ->
  exists w' : World num,
    attemptReaction E rx cands temp w = (true, rest, w')
    /\ length consumed = total (reactants rx)
    /\ Forall (fun r => isRemoved (heap w') r = true) consumed
    /\ particleCreationQueue w'
       = particleCreationQueue w
         ++ seq (length (heap w)) (total (products rx))
    /\ map formula (drop (length (heap w)) (heap w'))
       = speciesOf (products rx).
Proof.
  intros Hvalid Hfwd.
  rewrite (attemptReaction_forward_first E rx cands temp w consumed rest Hfwd).
  eexists. split; [reflexivity|].
  pose proof Hfwd as Hcount. apply consumeLoop_count in Hcount as [_ Hlen].
  apply consumeLoop_subset in Hfwd as [_ Hsub].
  specialize (Hsub consumed eq_refl).
  set (loc := getAvgPos (removeParticles consumed (heap w)) consumed).
  destruct (produceLoop_spec E (products rx) loc temp (randomCalls w))
    as (Hform & Hplen & _ & _).
  fold (getFwdProducedParticles E rx loc temp (randomCalls w))
    in Hform, Hplen.
  split; [exact Hlen|]. split; [|split].
  - rewrite Forall_forall in *. intros r Hr.
    assert (Hlt : (r < length (heap w))%nat) by auto.
    apply lookup_lt_is_Some_2 in Hlt as [p Hp].
    unfold isRemoved, fire. cbn [heap].
    rewrite lookup_app_l by (rewrite removeParticles_length;
                             eauto using lookup_lt_Some).
    now rewrite (removeParticles_listed consumed r (heap w) p Hr Hp).
  - unfold fire. cbn [particleCreationQueue].
    now rewrite removeParticles_length, Hplen.
  - unfold fire. cbn [heap].
    rewrite drop_app_length'
      by now rewrite removeParticles_length.
    exact Hform.
Qed.

Lemma forward_reaction_balance_witness :
  exists w' : World float,
    attemptReaction (hostEnv square800 [rxnABC]) rxnABC [0; 1]%nat 2%float
                    (worldOf (restingHeap ["A"; "B"]%string))
    = (true, [], w')
    /\ length [0; 1]%nat = total (reactants rxnABC)
    /\ Forall (fun r => isRemoved (heap w') r = true) [0; 1]%nat
    /\ particleCreationQueue w'
       = particleCreationQueue (worldOf (restingHeap ["A"; "B"]%string))
         ++ seq (length (heap (worldOf (restingHeap ["A"; "B"]%string))))
                (total (products rxnABC))
    /\ map formula
         (drop (length (heap (worldOf (restingHeap ["A"; "B"]%string))))
               (heap w'))
       = speciesOf (products rxnABC).
Proof.
  apply (forward_reaction_balance (hostEnv square800 [rxnABC]) rxnABC
           [0; 1]%nat [0; 1]%nat [] 2%float
           (worldOf (restingHeap ["A"; "B"]%string))).
  - repeat constructor.
  - reflexivity.
Defined.

(** ** The label of a rule *)

Lemma string_app_assoc (a b c : string) :
  ((a ++ b) ++ c = a ++ (b ++ c))%string.
Proof. induction a as [|ch a IH]; simpl; [reflexivity|now rewrite IH]. Qed.

Lemma string_app_nil_r (a : string) : (a ++ "" = a)%string.
Proof. induction a as [|ch a IH]; simpl; [reflexivity|now rewrite IH]. Qed.

Lemma string_length_app (a b : string) :
  String.length (a ++ b) = (String.length a + String.length b)%nat.
Proof. induction a as [|ch a IH]; simpl; [reflexivity|now rewrite IH]. Qed.

(** Cutting the last characters off: [substring(0, length - k)] of a
    string that ends in [k] given characters. *)
Lemma substring_cut (a b : string) :
  substring 0 (String.length (a ++ b) - String.length b) (a ++ b) = a.
Proof.
  rewrite string_length_app.
  replace (String.length a + String.length b - String.length b)%nat
    with (String.length a) by lia.
  induction a as [|ch a IH]; simpl.
  - now destruct b.
  - now rewrite IH.
Qed.

Lemma appendTerms_app (out : string) (side : list molFormula) :
  appendTerms out side = (out ++ appendTerms "" side)%string.
Proof.
  unfold appendTerms. revert out.
  induction side as [|mf side IH]; intros out; simpl.
  - now rewrite string_app_nil_r.
  - rewrite IH. rewrite (IH (_ ++ " + ")%string).
    now rewrite string_app_assoc.
Qed.

Lemma appendTerms_join (side : list molFormula) :
  side <> [] ->
  appendTerms "" side = ((joinTerms side ++ " ") ++ "+ ")%string.
Proof.
  induction side as [|mf side IH]; [congruence|]. intros _.
  unfold appendTerms. simpl. fold (appendTerms
    ((toString (molCoeff mf) ++ mol_formula mf) ++ " + ")%string side).
  rewrite appendTerms_app.
  destruct side as [|mf' side].
  - unfold joinTerms. simpl. rewrite string_app_nil_r.
    now rewrite !string_app_assoc.
  - rewrite IH by congruence. unfold joinTerms.
    cbn [map String.concat]. now rewrite !string_app_assoc.
Qed.

(** X17.  For a rule with at least one reactant and one product,
    [getFormula] is the reactant terms joined by [" + "], a space, the
    arrow, the product terms joined by [" + "], and a trailing space; the
    arrow is ["-> "] for a reversible rule and ["<=> "] for one that is
    not. *)
Theorem getFormula_format (rx : Reaction) :
  reactants rx <> [] -> products rx <> [] ->
  getFormula rx
  = (joinTerms (reactants rx) ++ " "
     ++ (if reversible rx then "-> " else "<=> ")
     ++ joinTerms (products rx) ++ " ")%string.
Proof.
  intros Hr Hp. unfold getFormula.
  rewrite (appendTerms_join _ Hr), substring_cut.
  rewrite appendTerms_app, (appendTerms_join _ Hp).
  rewrite <- !string_app_assoc.
  rewrite (substring_cut _ "+ "). reflexivity.
Qed.

Lemma getFormula_format_witness :
  getFormula rxn1 = "2A -> 2B "%string
  /\ getFormula rxnABC = "1A + 1B <=> 1C "%string.
Proof.
  split.
  - apply (getFormula_format rxn1); discriminate.
  - apply (getFormula_format rxnABC); discriminate.
Defined.

(** ** The sweep *)

Section SweepFacts.
Context {num : Type} {NUM : Number num}.
Implicit Types (h : list (Particle num)) (l : list ref) (r : ref).
Local Open Scope nat_scope.

Lemma update_not_removed (c : dimensions num) (p : Particle num) :
  state p <> removed -> state (update c p) <> removed.
Proof. intros Hs. destruct (update_state c p) as [H|H]; congruence. Qed.

(** Updating a particle that is not removed changes nobody's being
    removed. *)
Lemma isRemoved_insert_update (c : dimensions num) h r (p : Particle num) r' :
  h !! r = Some p -> state p <> removed ->
  isRemoved (<[r:=update c p]> h) r' = isRemoved h r'.
Proof.
  intros Hp Hs. unfold isRemoved.
  destruct (decide (r = r')) as [<-|Hne].
  - rewrite list_lookup_insert_eq by eauto using lookup_lt_Some.
    rewrite Hp, !state_eqb_removed; auto using update_not_removed.
  - now rewrite list_lookup_insert_ne.
Qed.

Lemma sweep_filter (c : dimensions num) : forall l h,
  fst (sweep c l h) = List.filter (fun r => negb (isRemoved h r)) l
  /\ forall r', isRemoved (snd (sweep c l h)) r' = isRemoved h r'.
Proof.
  induction l as [|r l IH]; intros h; simpl; [now split|].
  unfold isRemoved at 1. destruct (h !! r) as [p|] eqn:Hp.
  - destruct (state_eqb (state p) removed) eqn:Hs; simpl; [apply IH|].
    assert (Hstate : state p <> removed) by (destruct (state p); easy).
    destruct (IH (<[r:=update c p]> h)) as [Hl Hh].
    destruct (sweep c l _) as [l' h']. simpl in *. split.
    + rewrite Hl. f_equal. apply filter_ext. intros r'.
      now rewrite (isRemoved_insert_update c h r p r' Hp Hstate).
    + intros r'. rewrite Hh. now apply isRemoved_insert_update.
  - destruct (IH h) as [Hl Hh].
    destruct (sweep c l h) as [l' h']. simpl in *. split; [|assumption].
    now rewrite Hl.
Qed.

Lemma sweep_lookup (c : dimensions num) : forall l h r (p : Particle num),
  NoDup l -> h !! r = Some p ->
  snd (sweep c l h) !! r
  = Some (if bool_decide (r ∈ l) && negb (state_eqb (state p) removed)
          then update c p else p).
Proof.
  induction l as [|r0 l IH]; intros h r p Hnd Hp; simpl; [assumption|].
  apply NoDup_cons in Hnd as [Hr0 Hnd].
  destruct (decide (r0 = r)) as [->|Hne].
  - rewrite Hp, bool_decide_true by (apply elem_of_cons; now left).
    destruct (state_eqb (state p) removed) eqn:Hs; simpl.
    + rewrite (IH h r p Hnd Hp), Hs. now rewrite andb_false_r.
    + assert (Hin : (<[r:=update c p]> h) !! r = Some (update c p))
        by (apply list_lookup_insert_eq; eauto using lookup_lt_Some).
      specialize (IH _ r _ Hnd Hin).
      destruct (sweep c l _) as [l' h']. simpl in *.
      now rewrite IH, bool_decide_false.
  - assert (Hdec : bool_decide (r ∈ r0 :: l) = bool_decide (r ∈ l)).
    { apply bool_decide_ext. rewrite elem_of_cons. intuition congruence. }
    rewrite Hdec.
    destruct (h !! r0) as [p0|] eqn:Hp0.
    + destruct (state_eqb (state p0) removed); [now apply IH|].
      specialize (IH (<[r0:=update c p0]> h) r p Hnd).
      rewrite list_lookup_insert_ne in IH by assumption.
      specialize (IH Hp). now destruct (sweep c l _).
    + specialize (IH h r p Hnd Hp). now destruct (sweep c l h).
Qed.

End SweepFacts.


(** X19.  When the live list holds no object twice, the sweep applies
    [update] exactly once to every listed particle that is not removed,
    and leaves every other object of the heap as it was. *)
Theorem sweep_updates_each_once {num : Type} {NUM : Number num}
    (c : dimensions num) (l : list ref) (h : list (Particle num))
    (r : ref) (p : Particle num) :
  NoDup l -> h !! r = Some p ->
  snd (sweep c l h) !! r
  = Some (if bool_decide (r ∈ l) && negb (state_eqb (state p) removed)
          then update c p else p).
Proof. apply sweep_lookup. Qed.

Lemma sweep_updates_each_once_witness :
  let h := restingHeap ["A"; "B"; "C"]%string in
  let h' := removeParticles [1]%nat h in
  snd (sweep square800 [0; 1]%nat h') !! 0%nat
  = Some (update square800 (particleAt "A" 400 400 0 0))
  /\ snd (sweep square800 [0; 1]%nat h') !! 1%nat
     = Some (set_state (particleAt "B" 400 400 0 0) removed)
  /\ snd (sweep square800 [0; 1]%nat h') !! 2%nat
     = Some (particleAt "C" 400 400 0 0).
Proof.
  split; [|split].
  - apply (sweep_updates_each_once square800 [0; 1]%nat
             (removeParticles [1]%nat (restingHeap ["A"; "B"; "C"]%string))
             0%nat (particleAt "A" 400 400 0 0)).
    + apply NoDup_cons; split;
        [rewrite list_elem_of_singleton; lia|apply NoDup_singleton].
    + reflexivity.
  - apply (sweep_updates_each_once square800 [0; 1]%nat
             (removeParticles [1]%nat (restingHeap ["A"; "B"; "C"]%string))
             1%nat (set_state (particleAt "B" 400 400 0 0) removed)).
    + apply NoDup_cons; split;
        [rewrite list_elem_of_singleton; lia|apply NoDup_singleton].
    + reflexivity.
  - apply (sweep_updates_each_once square800 [0; 1]%nat
             (removeParticles [1]%nat (restingHeap ["A"; "B"; "C"]%string))
             2%nat (particleAt "C" 400 400 0 0)).
    + apply NoDup_cons; split;
        [rewrite list_elem_of_singleton; lia|apply NoDup_singleton].
    + reflexivity.
Defined.

(** ** Whole ticks and the event loop *)

Section RunFacts.
Context {num : Type} {NUM : Number num}.
Implicit Types (h : list (Particle num)) (w : World num) (E : Env num).
Implicit Types (l : list ref) (r : ref) (p : Particle num).
Local Open Scope nat_scope.

Lemma sameOrRemoved_trans p q q' :
  sameOrRemoved p q -> sameOrRemoved q q' -> sameOrRemoved p q'.
Proof. intros [->| ->] [->| ->]; unfold sameOrRemoved; auto. Qed.

(** The collision phase deletes no object and changes an existing one at
    most by marking it removed. *)
Lemma tryReactions_objects E rules : forall cands w r p,
  heap w !! r = Some p ->
  exists p', heap (tryReactions E rules cands w) !! r = Some p'
             /\ sameOrRemoved p p'.
Proof.
  induction rules as [|rx rules IH]; intros cands w r p Hp; simpl.
  - exists p. split; [assumption|now left].
  - destruct (attemptReaction E rx cands (containerTemperature w) w)
      as [[ok rest] w'] eqn:Hrun.
    apply attemptReaction_effect in Hrun as (_ & _ & _ & _ & Hobj).
    assert (Hstep : exists q, heap w' !! r = Some q /\ sameOrRemoved p q).
    { destruct (Hobj r p Hp) as [Hq|[_ Hq]];
        [exists p|exists (set_state p removed)];
        (split; [assumption|]); [now left|now right]. }
    destruct Hstep as (q & Hq & Hpq).
    destruct ok; [now exists q|].
    destruct (IH rest w' r q Hq) as (q' & Hq' & Hqq').
    exists q'. split; [assumption|]. eapply sameOrRemoved_trans; eassumption.
Qed.

Lemma collide_objects E : forall todo w r p,
  heap w !! r = Some p ->
  exists p', heap (collide E todo w) !! r = Some p' /\ sameOrRemoved p p'.
Proof.
  induction todo as [|r1 todo IH]; intros w r p Hp; simpl.
  - exists p. split; [assumption|now left].
  - destruct (heap w !! r1) as [p1|]; [|now apply IH].
    destruct (state_eqb (state p1) active); [|now apply IH].
    destruct (tryReactions_objects E (reactionList E)
                (availableParticles (heap w) (particleList w) r1 p1) w r p Hp)
      as (q & Hq & Hpq).
    destruct (IH _ r q Hq) as (q' & Hq' & Hqq').
    exists q'. split; [assumption|]. eapply sameOrRemoved_trans; eassumption.
Qed.

(** Known particles stay known. *)
Lemma knownParticle_update E (c : dimensions num) p :
  knownParticle E p -> knownParticle E (update c p).
Proof. unfold knownParticle. now rewrite update_radius, update_formula. Qed.

Lemma knownParticle_changeTemperature E p (temp : num) :
  knownParticle E p -> knownParticle E (changeTemperature p temp).
Proof.
  unfold knownParticle, changeTemperature. now destruct (_ =? _)%num.
Qed.

Lemma speciesOf_named (side : list molFormula) (f : string) :
  f ∈ speciesOf side -> f ∈ map mol_formula side.
Proof.
  unfold speciesOf. induction side as [|mf side IH]; simpl; [easy|].
  rewrite elem_of_app, elem_of_cons. intros [Hin|Hin]; [left|right; auto].
  now apply elem_of_replicate_inv in Hin.
Qed.

Lemma lookup_map_Some {A B} (f : A -> B) (l : list A) (i : nat) (a : A) :
  l !! i = Some a -> map f l !! i = Some (f a).
Proof.
  revert i. induction l as [|b l IH]; intros [|i] Hl; try discriminate.
  - now injection Hl as ->.
  - now apply IH.
Qed.

Lemma produced_known E rx (side : list molFormula) loc (temp : num) n :
  rx ∈ reactionList E ->
  side = reactants rx \/ side = products rx ->
  Forall (knownParticle E) (fst (produceLoop E side loc temp n)).
Proof.
  intros Hrx Hside.
  destruct (produceLoop_spec E side loc temp n) as (Hform & _ & _ & Hall).
  rewrite Forall_lookup in *. intros i p Hp.
  split; [now apply (Hall i p Hp)|]. right. exists rx. split; [assumption|].
  rewrite map_app, elem_of_app.
  assert (Hin : formula p ∈ map mol_formula side).
  { apply speciesOf_named. rewrite <- Hform.
    apply list_elem_of_lookup. exists i. now apply lookup_map_Some. }
  destruct Hside as [->| ->]; auto.
Qed.

Lemma fire_known E w consumed (produced : list (Particle num) * nat) :
  Forall (knownParticle E) (heap w) ->
  Forall (knownParticle E) (fst produced) ->
  Forall (knownParticle E) (heap (fire consumed produced w)).
Proof.
  intros Hh Hp. unfold fire. cbn [heap]. apply Forall_app. split; [|assumption].
  unfold removeParticles. revert Hh. generalize (heap w).
  induction consumed as [|r l IH]; intros h Hh; simpl; [assumption|].
  apply IH. apply Forall_alter; [assumption|]. now intros p _.
Qed.

Lemma attemptReaction_known E rx cands (temp : num) w ok rest w' :
  rx ∈ reactionList E ->
  Forall (knownParticle E) (heap w) ->
  attemptReaction E rx cands temp w = (ok, rest, w') ->
  Forall (knownParticle E) (heap w').
Proof.
  intros Hrx Hh. unfold attemptReaction.
  destruct (getFwdConsumedParticles (heap w) rx cands) as [[c|] rest1].
  - intros [= _ _ <-]. apply fire_known; [assumption|].
    apply (produced_known E rx); auto.
  - destruct (getRevConsumedParticles (heap w) rx rest1) as [[c|] rest2];
      destruct (reversible rx); intros [= _ _ <-]; try assumption.
    apply fire_known; [assumption|]. apply (produced_known E rx); auto.
Qed.

Lemma tryReactions_known E rules : forall cands w,
  (forall rx, rx ∈ rules -> rx ∈ reactionList E) ->
  Forall (knownParticle E) (heap w) ->
  Forall (knownParticle E) (heap (tryReactions E rules cands w)).
Proof.
  induction rules as [|rx rules IH]; intros cands w Hrules Hh; simpl;
    [assumption|].
  destruct (attemptReaction E rx cands (containerTemperature w) w)
    as [[ok rest] w'] eqn:Hrun.
  apply attemptReaction_known in Hrun;
    [|apply Hrules, elem_of_cons; now left|assumption].
  destruct ok; [assumption|]. apply IH; [|assumption].
  intros rx' Hin. apply Hrules, elem_of_cons. now right.
Qed.

Lemma collide_known E : forall todo w,
  Forall (knownParticle E) (heap w) ->
  Forall (knownParticle E) (heap (collide E todo w)).
Proof.
  induction todo as [|r1 todo IH]; intros w Hh; simpl; [assumption|].
  destruct (heap w !! r1) as [p1|]; [|now apply IH].
  destruct (state_eqb (state p1) active); [|now apply IH].
  apply IH. now apply tryReactions_known.
Qed.

Lemma sweep_known E (c : dimensions num) : forall l h,
  Forall (knownParticle E) h ->
  Forall (knownParticle E) (snd (sweep c l h)).
Proof.
  induction l as [|r l IH]; intros h Hh; simpl; [assumption|].
  destruct (h !! r) as [p|] eqn:Hp.
  - destruct (state_eqb (state p) removed); [now apply IH|].
    specialize (IH (<[r:=update c p]> h)).
    destruct (sweep c l _) as [l' h']. apply IH.
    apply Forall_insert; [assumption|]. apply knownParticle_update.
    rewrite Forall_lookup in Hh. eauto.
  - specialize (IH h Hh). now destruct (sweep c l h).
Qed.

(** Each handler keeps the invariant. *)
Lemma updateFrame_reachable E w :
  reachableInv E w -> reachableInv E (updateFrame E w).
Proof.
  intros (Hwf & Hnd & Hknown).
  destruct (containerPaused w) eqn:Hrun.
  { unfold updateFrame. rewrite Hrun. now repeat split. }
  split; [now apply updateFrame_wf|].
  destruct (updateFrame_tickInv E w Hwf Hrun)
    as [(Hlive & Hn0 & Hqueue & _) Hlist].
  split.
  - apply NoDup_app. repeat split.
    + rewrite Hlist.
      destruct (sweep_filter (canvas E)
                  (particleList w ++ particleCreationQueue w) (heap w))
        as [-> _].
      apply NoDup_ListNoDup, List.NoDup_filter, NoDup_ListNoDup, Hnd.
    + intros r Hr. rewrite Hqueue. intros Hq. apply elem_of_seq in Hq.
      rewrite Forall_forall in Hlive. specialize (Hlive r Hr). lia.
    + rewrite Hqueue. apply NoDup_seq.
  - unfold updateFrame. rewrite Hrun. cbv zeta. apply collide_known.
    unfold mergeAndSweep.
    pose proof (sweep_known E (canvas E)
                  (particleList w ++ particleCreationQueue w) (heap w) Hknown).
    now destruct (sweep _ _ _).
Qed.

Lemma pushNewParticle_reachable E position w :
  reachableInv E w -> reachableInv E (pushNewParticle E "A" position w).
Proof.
  intros (Hwf & Hnd & Hknown). unfold reachableInv, wf, pushNewParticle.
  cbn [heap particleList particleCreationQueue].
  unfold wf in Hwf. apply Forall_app in Hwf as [Hlive Hqueue].
  apply NoDup_app in Hnd as (Hnd1 & Hdisj & Hnd2).
  rewrite length_app. cbn [length].
  assert (Hfresh : forall r, r ∈ particleList w ++ particleCreationQueue w ->
                             r <> length (heap w)).
  { intros r Hr. apply elem_of_app in Hr as [Hr|Hr];
      [rewrite Forall_forall in Hlive; specialize (Hlive r Hr)
      |rewrite Forall_forall in Hqueue; specialize (Hqueue r Hr)]; lia. }
  repeat split.
  - rewrite !Forall_app. repeat split.
    + eapply Forall_impl; [exact Hlive|]. cbv beta. intros; lia.
    + repeat constructor. lia.
    + eapply Forall_impl; [exact Hqueue|]. cbv beta. intros; lia.
  - apply NoDup_app. repeat split; [|
      |assumption].
    + apply NoDup_app. repeat split; [assumption| |apply NoDup_singleton].
      intros r Hr. rewrite list_elem_of_singleton.
      apply Hfresh, elem_of_app. now left.
    + intros r Hr Hq. apply elem_of_app in Hr as [Hr|Hr].
      * now apply (Hdisj r).
      * apply list_elem_of_singleton in Hr as ->.
        apply (Hfresh (length (heap w))); [|reflexivity].
        apply elem_of_app. now right.
  - apply Forall_app. split; [assumption|].
    constructor; [|constructor]. split.
    + apply createParticle_fields.
    + left. apply createParticle_fields.
Qed.

Lemma changeTemperatureAll_reachable E l (temp : num) w :
  reachableInv E w -> reachableInv E (changeTemperatureAll l temp w).
Proof.
  intros (Hwf & Hnd & Hknown).
  assert (Hfold : forall h,
             Forall (knownParticle E) h ->
             let h' := foldl (fun h r =>
                                alter (fun p => changeTemperature p temp) r h)
                             h l in
             length h' = length h /\ Forall (knownParticle E) h').
  { induction l as [|r l IH]; intros h Hh; simpl; [now split|].
    destruct (IH (alter (fun p => changeTemperature p temp) r h)) as [Hlen Hk].
    - apply Forall_alter; [assumption|].
      intros p _. apply knownParticle_changeTemperature.
    - split; [|assumption]. cbv zeta in Hlen. now rewrite Hlen, length_alter. }
  destruct (Hfold (heap w) Hknown) as [Hlen Hk].
  unfold reachableInv, wf, changeTemperatureAll.
  cbn [heap particleList particleCreationQueue].
  split; [|now split]. cbv zeta in Hlen. now rewrite Hlen.
Qed.

Lemma handle_reachable E w (ev : Event num) :
  reachableInv E w -> reachableInv E (handle E w ev).
Proof.
  intros Hinv. destruct ev as [|mousePos|value|]; simpl.
  - now apply updateFrame_reachable.
  - now apply pushNewParticle_reachable.
  - unfold tempSlider_oninput. now do 2 apply changeTemperatureAll_reachable.
  - exact Hinv.
Qed.

End RunFacts.

Section RunMore.
Context {num : Type} {NUM : Number num}.
Implicit Types (h : list (Particle num)) (w : World num) (E : Env num).
Implicit Types (l : list ref) (r : ref) (p : Particle num).
Local Open Scope nat_scope.

Lemma seed_reachable E : forall count w,
  reachableInv E w -> reachableInv E (seed E count w).
Proof.
  induction count as [|k IH]; intros w Hinv; simpl; [assumption|].
  now apply IH, pushNewParticle_reachable.
Qed.

Lemma run_reachable E : forall events w,
  reachableInv E w -> reachableInv E (run E events w).
Proof.
  unfold run. induction events as [|ev events IH]; intros w Hinv; simpl;
    [assumption|].
  now apply IH, handle_reachable.
Qed.

(** What the loop of the function [changeTemperature] does to one
    object. *)
Lemma changeTemperatureAll_lookup (temp : num) : forall l h r p,
  h !! r = Some p ->
  exists p',
    foldl (fun h r => alter (fun p => changeTemperature p temp) r h) h l !! r
    = Some p'
    /\ pos p' = pos p /\ state p' = state p
    /\ cooldownDist p' = cooldownDist p
    /\ (r ∉ l -> p' = p)
    /\ (temperature p = temp -> temperature p' = temp)
    /\ (r ∈ l -> (temperature p =? #0)%num = false -> temperature p' = temp).
Proof.
  induction l as [|r0 l IH]; intros h r p Hp; simpl.
  - exists p. repeat split; auto. intros Hin. now apply elem_of_nil in Hin.
  - destruct (decide (r0 = r)) as [->|Hne].
    + set (p1 := changeTemperature p temp).
      assert (H1 : alter (fun p => changeTemperature p temp) r h !! r
                   = Some p1)
        by now rewrite list_lookup_alter_eq, Hp.
      assert (Hp1 : pos p1 = pos p /\ state p1 = state p
                    /\ cooldownDist p1 = cooldownDist p
                    /\ (temperature p = temp -> temperature p1 = temp)
                    /\ ((temperature p =? #0)%num = false ->
                        temperature p1 = temp)).
      { unfold p1, changeTemperature.
        destruct (temperature p =? #0)%num; repeat split; auto; discriminate. }
      destruct Hp1 as (Hpos & Hst & Hcd & Hsame & Hnz).
      destruct (IH _ r p1 H1) as (p' & Hp' & Hpos' & Hst' & Hcd' & _ & Ht' & _).
      exists p'. repeat split; try congruence.
      * intros Hnot. exfalso. apply Hnot, elem_of_cons. now left.
      * auto.
      * intros _ Hz. auto.
    + assert (H1 : alter (fun p => changeTemperature p temp) r0 h !! r
                   = Some p)
        by now rewrite list_lookup_alter_ne.
      destruct (IH _ r p H1) as (p' & Hp' & Hpos' & Hst' & Hcd' & Hnot & Ht' & Hin).
      exists p'. repeat split; auto.
      * intros Hn. apply Hnot. intros Hl. apply Hn, elem_of_cons. now right.
      * intros Hl. apply Hin. apply elem_of_cons in Hl as [->|]; congruence.
Qed.

End RunMore.

(** One running tick, seen from one particle. *)
Lemma tick_moves_once_aux {num : Type} {NUM : Number num}
    (E : Env num) (w : World num) (r : ref) (p : Particle num) :
  wf w -> NoDup (particleList w ++ particleCreationQueue w) ->
  containerPaused w = false ->
  r ∈ particleList w ++ particleCreationQueue w ->
  heap w !! r = Some p -> state p <> removed ->
  exists p' : Particle num,
    heap (updateFrame E w) !! r = Some p'
    /\ sameOrRemoved (update (canvas E) p) p'
    /\ r ∈ particleList (updateFrame E w).
Proof.
  intros Hwf Hnd Hrun Hin Hp Hstate.
  destruct (updateFrame_tickInv E w Hwf Hrun) as [_ Hlist].
  pose proof (sweep_lookup (canvas E) _ (heap w) r p Hnd Hp) as Hswept.
  rewrite bool_decide_true, (state_eqb_removed _ Hstate) in Hswept
    by assumption.
  simpl in Hswept.
  assert (Hlive : r ∈ particleList (updateFrame E w)).
  { rewrite Hlist. now apply (sweep_keeps _ _ _ _ p). }
  unfold updateFrame in *. rewrite Hrun in *. cbv zeta in *.
  unfold mergeAndSweep in *.
  destruct (sweep (canvas E) _ (heap w)) as [l h]. simpl in *.
  destruct (collide_objects E l
              (mkWorld h l [] (containerPaused w) (containerTemperature w)
                       (randomCalls w)) r _ Hswept) as (p' & Hp' & Hrel).
  now exists p'.
Qed.


(** X20.  From a state whose arrays hold no object twice, a tick that
    runs moves every particle of the live list or the queue that is not
    removed exactly once: afterwards the particle is what one [update]
    makes of it, or that with the state ["removed"] if a reaction consumed
    it, and it is in the live list. *)
Theorem tick_moves_each_particle_once {num : Type} {NUM : Number num}
    (E : Env num) (w : World num) (r : ref) (p : Particle num) :
  wf w -> NoDup (particleList w ++ particleCreationQueue w) ->
  containerPaused w = false ->
  r ∈ particleList w ++ particleCreationQueue w ->
  heap w !! r = Some p -> state p <> removed ->
  exists p' : Particle num,
    heap (updateFrame E w) !! r = Some p'
    /\ sameOrRemoved (update (canvas E) p) p'
    /\ r ∈ particleList (updateFrame E w).
Proof. apply tick_moves_once_aux. Qed.

Lemma tick_moves_each_particle_once_witness :
  let E := hostEnv square800 [rxn1] in
  let w := worldOf (restingHeap ["A"; "B"]%string) in
  exists p' : Particle float,
    heap (updateFrame E w) !! 1%nat = Some p'
    /\ sameOrRemoved (update (canvas E) (particleAt "B" 400 400 0 0)) p'
    /\ 1%nat ∈ particleList (updateFrame E w).
Proof.
  apply (tick_moves_each_particle_once (hostEnv square800 [rxn1])
           (worldOf (restingHeap ["A"; "B"]%string)) 1%nat
           (particleAt "B" 400 400 0 0)).
  - repeat constructor.
  - apply NoDup_cons; split;
      [rewrite list_elem_of_singleton; lia|apply NoDup_singleton].
  - reflexivity.
  - repeat constructor.
  - reflexivity.
  - discriminate.
Defined.

(** X21.  Every state the program reaches from its start-up state, by
    any sequence of frames, mouse clicks, slider inputs and pause clicks,
    is well formed: every reference points to an object, no object is
    held twice by the live list and the queue, and every particle has
    the radius [RADIUS] and is of species A or of a species that a rule of
    the rule list names. *)
Theorem reachable_states_well_formed {num : Type} {NUM : Number num}
    (E : Env num) (events : list (Event num)) :
  reachableInv E (run E events (initialWorld E)).
Proof.
  apply run_reachable. unfold initialWorld. apply seed_reachable.
  unfold reachableInv, wf. simpl. repeat split; constructor.
Qed.

(** X22.  A slider input sets the container temperature to 20 times the
    slider value and gives that temperature to every particle of the live
    list and of the queue whose temperature is not 0; it moves nothing,
    changes no state, no cooldown and neither array, and leaves every
    other object as it was. *)
Theorem tempSlider_sets_every_temperature {num : Type} {NUM : Number num}
    (value : num) (w : World num) (r : ref) (p : Particle num) :
  heap w !! r = Some p ->
  let w' := tempSlider_oninput value w in
  let newTemp := (#20 * value)%num in
  containerTemperature w' = newTemp
  /\ particleList w' = particleList w
  /\ particleCreationQueue w' = particleCreationQueue w
  /\ containerPaused w' = containerPaused w
  /\ exists p' : Particle num,
       heap w' !! r = Some p'
       /\ pos p' = pos p /\ state p' = state p
       /\ cooldownDist p' = cooldownDist p
       /\ (r ∈ particleList w ++ particleCreationQueue w ->
           (temperature p =? #0)%num = false -> temperature p' = newTemp)
       /\ (r ∉ particleList w ++ particleCreationQueue w -> p' = p).
Proof.
  intros Hp w' newTemp. unfold w', tempSlider_oninput, changeTemperatureAll.
  cbn [heap particleList particleCreationQueue containerPaused
       containerTemperature]. fold newTemp.
  repeat split.
  destruct (changeTemperatureAll_lookup newTemp (particleList w) (heap w) r p Hp)
    as (p1 & H1 & Hpos1 & Hst1 & Hcd1 & Hnot1 & Hsame1 & Hin1).
  destruct (changeTemperatureAll_lookup newTemp (particleCreationQueue w) _ r p1 H1)
    as (p2 & H2 & Hpos2 & Hst2 & Hcd2 & Hnot2 & Hsame2 & Hin2).
  exists p2. repeat split; try congruence.
  - intros Hin Hz. apply elem_of_app in Hin.
    destruct (decide (r ∈ particleList w)) as [Hl|Hl]; [now auto|].
    destruct Hin as [|Hq]; [contradiction|].
    apply Hin2; [assumption|]. now rewrite (Hnot1 Hl).
  - intros Hnot. rewrite elem_of_app in Hnot.
    rewrite Hnot2, Hnot1; tauto.
Qed.

Lemma tempSlider_sets_every_temperature_witness :
  let w := worldOf (restingHeap ["A"; "B"]%string) in
  let w' := tempSlider_oninput 0.5%float w in
  containerTemperature w' = 10%float
  /\ particleList w' = particleList w
  /\ particleCreationQueue w' = particleCreationQueue w
  /\ containerPaused w' = containerPaused w
  /\ exists p' : Particle float,
       heap w' !! 1%nat = Some p'
       /\ pos p' = pos (particleAt "B" 400 400 0 0)
       /\ state p' = state (particleAt "B" 400 400 0 0)
       /\ cooldownDist p' = cooldownDist (particleAt "B" 400 400 0 0)
       /\ (1%nat ∈ particleList w ++ particleCreationQueue w ->
           (temperature (particleAt "B" 400 400 0 0) =? #0)%num = false ->
           temperature p' = 10%float)
       /\ (1%nat ∉ particleList w ++ particleCreationQueue w ->
           p' = particleAt "B" 400 400 0 0).
Proof.
  change 10%float with (#20 * 0.5%float)%num.
  apply (tempSlider_sets_every_temperature 0.5%float
           (worldOf (restingHeap ["A"; "B"]%string)) 1%nat
           (particleAt "B" 400 400 0 0)).
  reflexivity.
Defined.

(** X23.  Pausing, letting any number of frames pass and resuming gives
    back the state as it was before the pause. *)
Theorem pause_then_resume {num : Type} {NUM : Number num}
    (E : Env num) (w : World num) (n : nat) :
  containerPaused w = false ->
  run E (PauseClick :: replicate n Frame ++ [PauseClick]) w = w.
Proof.
  intros Hrun. unfold run. simpl. rewrite foldl_app. simpl.
  assert (Hidle : forall k (v : World num),
             containerPaused v = true ->
             foldl (handle E) v (replicate k Frame) = v).
  { induction k as [|k IH]; intros v Hv; simpl; [reflexivity|].
    unfold updateFrame at 1. rewrite Hv. now apply IH. }
  rewrite Hidle by (simpl; now rewrite Hrun).
  unfold pauseButton_onclick. simpl. rewrite negb_involutive.
  now destruct w.
Qed.

Lemma pause_then_resume_witness :
  run (hostEnv square800 [rxn1])
      (PauseClick :: replicate 3 Frame ++ [PauseClick])
      (worldOf (restingHeap ["A"; "A"]%string))
  = worldOf (restingHeap ["A"; "A"]%string).
Proof.
  apply (pause_then_resume (hostEnv square800 [rxn1])
           (worldOf (restingHeap ["A"; "A"]%string)) 3).
  reflexivity.
Defined.

(** X24.  A particle made by a mouse click is live at once: it is in the
    live list before the next frame, and a frame that then runs updates
    it and keeps it in the live list (a reaction product, which waits in
    the queue, is not). *)
Theorem clicked_particle_is_live {num : Type} {NUM : Number num}
    (E : Env num) (mousePos : Vector num) (w : World num) :
  reachableInv E w -> containerPaused w = false ->
  let w1 := canvas_mousedown E mousePos w in
  let r := length (heap w) in
  let p := createParticle E "A" mousePos (containerTemperature w) #0%num
                          (randomCalls w) in
  heap w1 !! r = Some p
  /\ r ∈ particleList w1
  /\ (r ∉ particleCreationQueue w1)
  /\ exists p' : Particle num,
       heap (updateFrame E w1) !! r = Some p'
       /\ sameOrRemoved (update (canvas E) p) p'
       /\ r ∈ particleList (updateFrame E w1).
Proof.
  intros Hinv Hrun w1 r p.
  pose proof (pushNewParticle_reachable E mousePos w Hinv)
    as (Hwf1 & Hnd1 & _).
  fold (canvas_mousedown E mousePos w) in Hwf1, Hnd1. fold w1 in Hwf1, Hnd1.
  assert (Hp : heap w1 !! r = Some p).
  { unfold w1, canvas_mousedown, pushNewParticle. cbn [heap].
    rewrite lookup_app_r by reflexivity. now rewrite Nat.sub_diag. }
  assert (Hlive : r ∈ particleList w1).
  { unfold w1, canvas_mousedown, pushNewParticle. cbn [particleList].
    apply elem_of_app. right. now apply list_elem_of_singleton. }
  split; [exact Hp|]. split; [exact Hlive|]. split.
  - apply NoDup_app in Hnd1 as (_ & Hdisj & _). now apply Hdisj.
  - apply (tick_moves_once_aux E w1 r p Hwf1 Hnd1 Hrun); auto.
    + apply elem_of_app. now left.
    + apply createParticle_state.
Qed.

Lemma clicked_particle_is_live_witness :
  let E := hostEnv square800 [rxn1] in
  let w := worldOf (restingHeap ["A"]%string) in
  let mousePos := mkVector 100%float 200%float in
  let w1 := canvas_mousedown E mousePos w in
  let p := createParticle E "A" mousePos (containerTemperature w) #0%num
                          (randomCalls w) in
  heap w1 !! 1%nat = Some p
  /\ 1%nat ∈ particleList w1
  /\ (1%nat ∉ particleCreationQueue w1)
  /\ exists p' : Particle float,
       heap (updateFrame E w1) !! 1%nat = Some p'
       /\ sameOrRemoved (update (canvas E) p) p'
       /\ 1%nat ∈ particleList (updateFrame E w1).
Proof.
  apply (clicked_particle_is_live (hostEnv square800 [rxn1])
           (mkVector 100%float 200%float)
           (worldOf (restingHeap ["A"]%string))).
  - repeat split.
    + repeat constructor.
    + apply NoDup_singleton.
    + repeat constructor.
  - reflexivity.
Defined.

(** ** Averages, in exact arithmetic *)

Lemma positions_sum (h : list (Particle xreal)) (lx hx ly hy : R) :
  forall (particles : list ref) (sx sy : R),
  Forall (fun r => exists p px py,
              h !! r = Some p /\ pos p = mkVector (Some px) (Some py)
              /\ (lx <= px <= hx)%R /\ (ly <= py <= hy)%R) particles ->
  exists tx ty : R,
    foldl (fun t r =>
             match h !! r with
             | Some p => ((fst t + x (pos p))%num, (snd t + y (pos p))%num)
             | None => t
             end) (Some sx, Some sy) particles
    = (Some tx, Some ty)
    /\ (sx + INR (length particles) * lx <= tx
        <= sx + INR (length particles) * hx)%R
    /\ (sy + INR (length particles) * ly <= ty
        <= sy + INR (length particles) * hy)%R.
Proof.
  induction particles as [|r l IH]; intros sx sy Hall.
  - exists sx, sy. simpl. repeat split; lra.
  - inversion Hall as [|? ? (p & px & py & Hp & Hpos & Hx & Hy) Hrest]; subst.
    destruct (IH (sx + px)%R (sy + py)%R Hrest) as (tx & ty & Hsum & Htx & Hty).
    exists tx, ty. split; [cbn [foldl]; rewrite Hp, Hpos; exact Hsum|].
    change (length (r :: l)) with (S (length l)). rewrite S_INR. split; lra.
Qed.

(** X25.  The average position of a non-empty list of particles lies in
    every box that holds all of their positions: with particles kept
    inside the canvas, the products of a reaction are created inside
    it. *)
Theorem getAvgPos_in_bounding_box (h : list (Particle xreal))
    (particles : list ref) (lx hx ly hy : R) :
  particles <> [] ->
  Forall (fun r => exists p px py,
              h !! r = Some p /\ pos p = mkVector (Some px) (Some py)
              /\ (lx <= px <= hx)%R /\ (ly <= py <= hy)%R) particles ->
  exists ax ay : R,
    getAvgPos h particles = mkVector (Some ax) (Some ay)
    /\ (lx <= ax <= hx)%R /\ (ly <= ay <= hy)%R.
Proof.
  intros Hne Hall.
  destruct (positions_sum h lx hx ly hy particles 0 0 Hall)
    as (tx & ty & Hsum & Htx & Hty).
  assert (Hn : (0 < INR (length particles))%R).
  { apply lt_0_INR. destruct particles; [congruence|simpl; lia]. }
  unfold getAvgPos. destruct particles as [|r l] eqn:Hl; [congruence|].
  rewrite <- Hl in *. clear Hl.
  change (#0%num, #0%num) with (Some 0%R, Some 0%R).
  rewrite Hsum. cbn [fst snd].
  change (#(Z.of_nat (length particles)))%num
    with (Some (IZR (Z.of_nat (length particles)))).
  rewrite <- INR_IZR_INZ.
  rewrite !xreal_div by lra.
  exists (tx / INR (length particles))%R, (ty / INR (length particles))%R.
  split; [reflexivity|].
  assert (Hax : (tx / INR (length particles) * INR (length particles) = tx)%R)
    by (field; lra).
  assert (Hay : (ty / INR (length particles) * INR (length particles) = ty)%R)
    by (field; lra).
  split; split; nra.
Qed.

Lemma getAvgPos_in_bounding_box_witness :
  let h := [idealParticle 1 0 2; idealParticle 0 1 2] in
  exists ax ay : R,
    getAvgPos h [0; 1]%nat = mkVector (Some ax) (Some ay)
    /\ (10 <= ax <= 790)%R /\ (10 <= ay <= 790)%R.
Proof.
  apply (getAvgPos_in_bounding_box
           [idealParticle 1 0 2; idealParticle 0 1 2] [0; 1]%nat
           10 790 10 790).
  - discriminate.
  - repeat constructor;
      eexists; exists 400%R, 400%R;
      (split; [reflexivity|split; [reflexivity|split; lra]]).
Defined.

(** ** The concentration sliders *)

Section ConcentrationFacts.
Context {num : Type} {NUM : Number num}.
Implicit Types (h : list (Particle num)) (w : World num) (E : Env num).
Implicit Types (l species taken : list ref) (r : ref) (f : string).
Local Open Scope nat_scope.

Lemma countSpecies_filter h l f :
  countSpecies h l f = length (List.filter (ofSpecies h f) l).
Proof.
  unfold countSpecies.
  assert (Hacc : forall n,
             foldl (fun count r => if ofSpecies h f r then count + 1 else count)
                   n l
             = n + length (List.filter (ofSpecies h f) l)).
  { induction l as [|r l IH]; intros n; simpl; [lia|].
    rewrite IH. destruct (ofSpecies h f r); simpl; lia. }
  apply (Hacc 0).
Qed.

Lemma removeParticles_cons r taken h :
  removeParticles (r :: taken) h
  = removeParticles taken (alter (fun p => set_state p removed) r h).
Proof. reflexivity. Qed.

(** The first loop removes the oldest particles of the species, as many
    as are too many; with a negative target it removes all and throws. *)
Lemma removeExcess_spec (target : Z) : forall species h,
  removeExcess target species h
  = if (target <? 0)%Z then (removeParticles species h, None)
    else (removeParticles
            (take (length species - Z.to_nat target) species) h,
          Some (drop (length species - Z.to_nat target) species)).
Proof.
  induction species as [|r rest IH]; intros h.
  - simpl. destruct (Z.ltb_spec target 0), (Z.gtb_spec 0 target);
      try lia; reflexivity.
  - cbn [removeExcess]. rewrite IH.
    destruct (Z.ltb_spec target 0) as [Hneg|Hpos];
      destruct (Z.gtb_spec (Z.of_nat (length (r :: rest))) target)
        as [Hgt|Hle]; cbn [length] in *; try lia.
    + reflexivity.
    + replace (S (length rest) - Z.to_nat target)
        with (S (length rest - Z.to_nat target)) by lia.
      reflexivity.
    + replace (S (length rest) - Z.to_nat target) with 0 by lia.
      reflexivity.
Qed.

Lemma removeParticles_lookup_None taken h r :
  h !! r = None -> removeParticles taken h !! r = None.
Proof.
  intros Hnone. apply lookup_ge_None. rewrite removeParticles_length.
  now apply lookup_ge_None.
Qed.

(** After some particles have been marked removed, the species test
    holds for those it held for that are not among them. *)
Lemma ofSpecies_removeParticles taken h f r :
  ofSpecies (removeParticles taken h) f r
  = ofSpecies h f r && negb (bool_decide (r ∈ taken)).
Proof.
  unfold ofSpecies. destruct (h !! r) as [p|] eqn:Hp.
  - destruct (decide (r ∈ taken)) as [Hin|Hnot].
    + rewrite (removeParticles_listed taken r h p Hin Hp).
      rewrite bool_decide_true by assumption. simpl. now rewrite andb_false_r.
    + rewrite removeParticles_other, Hp by assumption.
      rewrite bool_decide_false by assumption. now rewrite andb_true_r.
  - now rewrite removeParticles_lookup_None.
Qed.

(** In a list without repetition, the entries that pass a test and are
    not among the first [k] that pass it are the others that pass it. *)
Lemma filter_minus_first (g : ref -> bool) : forall l (k : nat),
  NoDup l ->
  List.filter
    (fun r => g r && negb (bool_decide (r ∈ take k (List.filter g l)))) l
  = drop k (List.filter g l).
Proof.
  induction l as [|a l IH]; intros k Hnd; [now destruct k|].
  apply NoDup_cons in Hnd as [Ha Hnd].
  cbn [List.filter]. destruct (g a) eqn:Hga.
  - destruct k as [|k]; cbn [take drop andb].
    + rewrite bool_decide_false by apply not_elem_of_nil.
      cbn [negb]. f_equal. apply filter_ext. intros r.
      rewrite bool_decide_false by apply not_elem_of_nil.
      apply andb_true_r.
    + rewrite bool_decide_true by (apply elem_of_cons; auto).
      cbn [negb]. rewrite <- (IH k Hnd). apply filter_ext_in.
      intros r Hr. apply list_elem_of_In in Hr. f_equal. f_equal.
      apply bool_decide_ext. rewrite elem_of_cons.
      split; [intros [->|]; [contradiction|assumption]|auto].
  - cbn [andb]. apply IH, Hnd.
Qed.

(** The second loop allocates and queues that many particles of the
    species, none of them removed. *)
Lemma addMissing_spec E (H : Host num) f : forall missing w,
  let w' := addMissing E H f missing w in
  particleList w' = particleList w
  /\ containerPaused w' = containerPaused w
  /\ containerTemperature w' = containerTemperature w
  /\ particleCreationQueue w'
     = particleCreationQueue w ++ seq (length (heap w)) missing
  /\ exists news,
       heap w' = heap w ++ news /\ length news = missing
       /\ Forall (fun p => formula p = f /\ state p <> removed) news.
Proof.
  induction missing as [|k IH]; intros w; simpl.
  - repeat split; try now rewrite app_nil_r.
    exists []. now rewrite app_nil_r.
  - specialize (IH (mkWorld
        (heap w ++ [createParticle E f
                      (getRandPos E H (randomCalls w) (CANVAS_DIMENSIONS H))
                      (containerTemperature w) #0%num (S (S (randomCalls w)))])
        (particleList w) (particleCreationQueue w ++ [length (heap w)])
        (containerPaused w) (containerTemperature w)
        (S (S (S (S (randomCalls w))))))).
    cbv zeta in IH. cbn [heap particleList particleCreationQueue
                         containerPaused containerTemperature] in IH.
    destruct IH as (Hl & Hp & Ht & Hq & news & Hh & Hlen & Hall).
    repeat split; try assumption.
    + rewrite Hq, length_app, <- app_assoc. cbn [length app].
      now rewrite Nat.add_1_r.
    + eexists (_ :: news). rewrite Hh, <- app_assoc. cbn [app].
      split; [reflexivity|]. split; [simpl; lia|].
      constructor; [|assumption]. split.
      * apply createParticle_fields.
      * apply createParticle_state.
Qed.

Lemma ofSpecies_app_old h news f r :
  r < length h -> ofSpecies (h ++ news) f r = ofSpecies h f r.
Proof. intros Hr. unfold ofSpecies. now rewrite lookup_app_l. Qed.

Lemma ofSpecies_new h (news : list (Particle num)) f (i : nat) :
  Forall (fun p => formula p = f /\ state p <> removed) news ->
  i < length news ->
  ofSpecies (h ++ news) f (length h + i) = true.
Proof.
  intros Hall Hi. unfold ofSpecies.
  rewrite lookup_app_r by lia.
  replace (length h + i - length h) with i by lia.
  destruct (lookup_lt_is_Some_2 news i Hi) as [p Hp]. rewrite Hp.
  rewrite Forall_lookup in Hall. destruct (Hall i p Hp) as [-> Hs].
  rewrite String.eqb_refl, (state_eqb_removed _ Hs). reflexivity.
Qed.

End ConcentrationFacts.

(** X26.  For a target that is not negative, [changeConcentration]
    returns with as many particles of the species as the target says,
    counting those of the live list that are not removed and the ones it
    has just queued.  The particles it marks removed are the oldest
    surplus ones: the first [count - target] particles of the species in
    the order of the live list, and no other object changes.  The
    missing ones are queued as new objects, and the live list, and what
    was queued before, stay in place. *)
Theorem changeConcentration_reaches_target {num : Type} {NUM : Number num}
    (E : Env num) (H : Host num) (target : Z) (f : string) (w : World num) :
  wf w -> NoDup (particleList w) -> (0 <= target)%Z ->
  exists (w' : World num) (added : list ref),
    changeConcentration E H target f w = Returned w'
    /\ particleList w' = particleList w
    /\ particleCreationQueue w' = particleCreationQueue w ++ added
    /\ Forall (fun r : ref => (length (heap w) <= r)%nat) added
    /\ (countSpecies (heap w') (particleList w') f
        + countSpecies (heap w') added f)%nat = Z.to_nat target
    /\ countSpecies (heap w') (particleList w') f
       = Nat.min (countSpecies (heap w) (particleList w) f) (Z.to_nat target)
    /\ (forall (r : ref) (p : Particle num), heap w !! r = Some p ->
          let surplus :=
            (countSpecies (heap w) (particleList w) f - Z.to_nat target)%nat in
          let oldest :=
            take surplus
                 (List.filter (ofSpecies (heap w) f) (particleList w)) in
          heap w' !! r
          = Some (if bool_decide (r ∈ oldest) then set_state p removed
                  else p)).
Proof.
  intros Hwf Hnd Htarget. unfold changeConcentration.
  set (species := List.filter (ofSpecies (heap w) f) (particleList w)).
  assert (Hcount : countSpecies (heap w) (particleList w) f = length species)
    by apply countSpecies_filter.
  destruct (Z.eqb_spec (Z.of_nat (length species)) target) as [Heq|Hneq].
  { exists w, []. rewrite app_nil_r. repeat split; auto.
    - rewrite Hcount. change (countSpecies (heap w) [] f) with 0%nat. lia.
    - rewrite Hcount. lia.
    - intros r p Hp. rewrite Hcount.
      replace (length species - Z.to_nat target)%nat with 0%nat by lia.
      cbn [take]. rewrite bool_decide_false by apply not_elem_of_nil.
      exact Hp. }
  rewrite removeExcess_spec.
  destruct (Z.ltb_spec target 0) as [|_]; [lia|].
  set (k := (length species - Z.to_nat target)%nat).
  set (h1 := removeParticles (take k species) (heap w)).
  set (w1 := mkWorld h1 (particleList w) (particleCreationQueue w)
                     (containerPaused w) (containerTemperature w)
                     (randomCalls w)).
  set (missing := Z.to_nat (target - Z.of_nat (length (drop k species)))).
  destruct (addMissing_spec E H f missing w1)
    as (Hl & _ & _ & Hq & news & Hh & Hlen & Hall).
  cbn [heap particleList particleCreationQueue w1] in Hl, Hq, Hh.
  assert (Hlen1 : length h1 = length (heap w))
    by apply removeParticles_length.
  assert (Hlive : forall r, r ∈ particleList w -> (r < length h1)%nat).
  { intros r Hr. unfold wf in Hwf. apply Forall_app in Hwf as [Hwf _].
    rewrite Forall_forall in Hwf. rewrite Hlen1. auto. }
  assert (Hold : List.filter (ofSpecies (h1 ++ news) f) (particleList w)
                 = drop k species).
  { etransitivity;
      [|exact (filter_minus_first (ofSpecies (heap w) f) (particleList w) k Hnd)].
    apply filter_ext_in. intros r Hr. apply list_elem_of_In in Hr.
    rewrite ofSpecies_app_old by auto.
    apply ofSpecies_removeParticles. }
  assert (Hnew : List.filter (ofSpecies (h1 ++ news) f)
                             (seq (length (heap w)) missing)
                 = seq (length (heap w)) missing).
  { rewrite <- Hlen1. clear -Hall Hlen.
    assert (Hgen : forall j m, (j + m <= length news)%nat ->
               List.filter (ofSpecies (h1 ++ news) f) (seq (length h1 + j) m)
               = seq (length h1 + j) m).
    { intros j m. revert j. induction m as [|m IH]; intros j Hj; simpl;
        [reflexivity|].
      rewrite (ofSpecies_new h1 news f j Hall) by lia. f_equal.
      replace (S (length h1 + j)) with (length h1 + S j)%nat by lia.
      apply IH. lia. }
    specialize (Hgen 0%nat missing). rewrite Nat.add_0_r in Hgen.
    apply Hgen. lia. }
  eexists _, (seq (length (heap w)) missing).
  split; [reflexivity|]. rewrite Hl, Hq, Hh, Hlen1.
  split; [reflexivity|]. split; [reflexivity|].
  split; [|split; [|split]].
  - rewrite Forall_forall. intros r Hr. apply elem_of_seq in Hr. lia.
  - rewrite !countSpecies_filter, Hold, Hnew, length_drop, length_seq.
    unfold missing, k. rewrite length_drop. lia.
  - rewrite !countSpecies_filter, Hold, length_drop.
    fold species. unfold k. lia.
  - intros r p Hp. cbv zeta. rewrite Hcount. fold species. fold k.
    assert (Hr : (r < length h1)%nat)
      by (rewrite Hlen1; eauto using lookup_lt_Some).
    rewrite lookup_app_l by exact Hr. unfold h1.
    destruct (decide (r ∈ take k species)) as [Hin|Hnot].
    + rewrite bool_decide_true by assumption.
      now apply removeParticles_listed.
    + rewrite bool_decide_false by assumption.
      now rewrite removeParticles_other.
Qed.

Lemma changeConcentration_reaches_target_witness :
  let E := hostEnv square800 [rxn1] in
  let H := mkHost (fun u => u) (fun u => u) square800 in
  let w := worldOf (restingHeap ["A"; "B"; "A"; "A"]%string) in
  exists (w' : World float) (added : list ref),
    changeConcentration E H 1 "A" w = Returned w'
    /\ particleList w' = particleList w
    /\ particleCreationQueue w' = particleCreationQueue w ++ added
    /\ Forall (fun r : ref => (length (heap w) <= r)%nat) added
    /\ (countSpecies (heap w') (particleList w') "A"
        + countSpecies (heap w') added "A")%nat = Z.to_nat 1
    /\ countSpecies (heap w') (particleList w') "A"
       = Nat.min (countSpecies (heap w) (particleList w) "A") (Z.to_nat 1)
    /\ (forall (r : ref) (p : Particle float), heap w !! r = Some p ->
          heap w' !! r
          = Some (if bool_decide (r ∈ [0; 2]%nat) then set_state p removed
                  else p)).
Proof.
  apply (changeConcentration_reaches_target
           (hostEnv square800 [rxn1])
           (mkHost (fun u => u) (fun u => u) square800) 1 "A"
           (worldOf (restingHeap ["A"; "B"; "A"; "A"]%string))).
  - repeat constructor.
  - apply NoDup_seq.
  - lia.
Defined.

(** X27.  With a negative target [changeConcentration] throws, after it
    has marked every particle of the species in the live list removed;
    nothing is queued. *)
Theorem changeConcentration_negative_target {num : Type} {NUM : Number num}
    (E : Env num) (H : Host num) (target : Z) (f : string) (w : World num) :
  (target < 0)%Z ->
  exists w' : World num,
    changeConcentration E H target f w = Threw w'
    /\ countSpecies (heap w') (particleList w) f = 0%nat
    /\ particleList w' = particleList w
    /\ particleCreationQueue w' = particleCreationQueue w.
Proof.
  intros Hneg. unfold changeConcentration.
  destruct (Z.eqb_spec
              (Z.of_nat (length (List.filter (ofSpecies (heap w) f)
                                             (particleList w)))) target);
    [lia|].
  rewrite removeExcess_spec.
  destruct (Z.ltb_spec target 0) as [_|]; [|lia].
  eexists. split; [reflexivity|]. cbn [heap particleList particleCreationQueue].
  split; [|split; reflexivity].
  rewrite countSpecies_filter.
  assert (Hnone : forall l,
             (forall r, r ∈ l -> ofSpecies (heap w) f r = true ->
                        r ∈ List.filter (ofSpecies (heap w) f)
                                        (particleList w)) ->
             List.filter
               (ofSpecies
                  (removeParticles
                     (List.filter (ofSpecies (heap w) f) (particleList w))
                     (heap w)) f) l = []).
  { induction l as [|r l IH]; intros Hin; simpl; [reflexivity|].
    rewrite ofSpecies_removeParticles.
    destruct (ofSpecies (heap w) f r) eqn:Hr; simpl.
    - rewrite bool_decide_true
        by (apply Hin; [apply elem_of_cons; now left|assumption]).
      simpl. apply IH. intros r' Hr'. apply Hin, elem_of_cons. now right.
    - apply IH. intros r' Hr'. apply Hin, elem_of_cons. now right. }
  rewrite Hnone; [reflexivity|].
  intros r Hr Hf. apply elem_of_List_filter. now split.
Qed.

Lemma changeConcentration_negative_target_witness :
  let E := hostEnv square800 [rxn1] in
  let H := mkHost (fun u => u) (fun u => u) square800 in
  let w := worldOf (restingHeap ["A"; "B"; "A"]%string) in
  exists w' : World float,
    changeConcentration E H (-1) "A" w = Threw w'
    /\ countSpecies (heap w') (particleList w) "A" = 0%nat
    /\ particleList w' = particleList w
    /\ particleCreationQueue w' = particleCreationQueue w.
Proof.
  apply (changeConcentration_negative_target
           (hostEnv square800 [rxn1])
           (mkHost (fun u => u) (fun u => u) square800) (-1) "A"
           (worldOf (restingHeap ["A"; "B"; "A"]%string))).
  lia.
Defined.

(** ** Random integers and positions *)

Lemma Int_part_between (x : R) (lo hi : Z) :
  (IZR lo <= x)%R -> (x < IZR hi)%R -> (lo <= Int_part x < hi)%Z.
Proof.
  intros Hlo Hhi. destruct (base_Int_part x) as [Hle Hgt]. split.
  - assert (Hlt : (IZR (lo - 1) < IZR (Int_part x))%R)
      by (rewrite minus_IZR; lra).
    apply lt_IZR in Hlt. lia.
  - apply lt_IZR. lra.
Qed.

(** [getRandInt] in exact arithmetic: an integer between the ceiling of
    [min] and the floor of [max], when there is one. *)
Lemma getRandInt_real (random : nat -> R) (c : dimensions xreal)
    (rules : list Reaction) (n : nat) (a b : R) (k : Z) :
  (0 <= random n < 1)%R -> (a <= IZR k <= b)%R ->
  exists z : Z,
    getRandInt (idealEnv random c rules) (idealHost c) n (Some a) (Some b)
    = Some (IZR z)
    /\ (a <= IZR z <= b)%R.
Proof.
  intros Hu [Hak Hkb].
  set (lo := (- Int_part (- a))%Z).
  set (hi := Int_part b).
  destruct (base_Int_part (- a)) as [Hca1 Hca2].
  destruct (base_Int_part b) as [Hfb1 Hfb2].
  assert (Hlo : (lo <= k)%Z).
  { unfold lo. assert (Hlt : (IZR (- k - 1) < IZR (Int_part (- a)))%R)
      by (rewrite minus_IZR, opp_IZR; lra).
    apply lt_IZR in Hlt. lia. }
  assert (Hhi : (k <= hi)%Z).
  { unfold hi. assert (Hlt : (IZR (k - 1) < IZR (Int_part b))%R)
      by (rewrite minus_IZR; lra).
    apply lt_IZR in Hlt. lia. }
  set (span := (hi - lo + 1)%Z).
  assert (Hspan : (1 <= span)%Z) by (unfold span; lia).
  assert (Hspan' : (1 <= IZR span)%R) by now apply IZR_le.
  destruct (Int_part_between (random n * IZR span) 0 span) as [Hz1 Hz2].
  { simpl. nra. }
  { nra. }
  exists (Int_part (random n * IZR span) + lo)%Z.
  split.
  - unfold getRandInt, idealEnv, idealHost. simpl.
    f_equal. rewrite plus_IZR. unfold span, lo, hi.
    rewrite plus_IZR, minus_IZR, !opp_IZR. simpl. reflexivity.
  - rewrite plus_IZR.
    assert (H1 : (0 <= IZR (Int_part (random n * IZR span)))%R)
      by now apply IZR_le.
    assert (H2 : (IZR (Int_part (random n * IZR span)) <= IZR (span - 1))%R)
      by (apply IZR_le; lia).
    unfold span in H2 at 2. rewrite minus_IZR, plus_IZR, minus_IZR in H2.
    unfold lo in *. unfold hi in *. rewrite opp_IZR in *. split; lra.
Qed.

(** X28.  In exact arithmetic, with [Math.random] in [[0, 1)],
    [getRandInt(min, max)] is an integer of the closed range from [min]
    to [max] whenever the range holds an integer. *)
Theorem getRandInt_in_range (random : nat -> R) (c : dimensions xreal)
    (rules : list Reaction) (n : nat) (a b : R) (k : Z) :
  (0 <= random n < 1)%R -> (a <= IZR k <= b)%R ->
  exists z : Z,
    getRandInt (idealEnv random c rules) (idealHost c) n (Some a) (Some b)
    = Some (IZR z)
    /\ (a <= IZR z <= b)%R.
Proof. apply getRandInt_real. Qed.

Lemma getRandInt_in_range_witness :
  exists z : Z,
    getRandInt (idealEnv (fun _ => (1 / 2)%R)
                         (mkDimensions (Some 800%R) (Some 800%R)) [rxn1])
               (idealHost (mkDimensions (Some 800%R) (Some 800%R))) 0
               (Some (1 / 2)%R) (Some (7 / 2)%R)
    = Some (IZR z)
    /\ (1 / 2 <= IZR z <= 7 / 2)%R.
Proof.
  apply (getRandInt_in_range (fun _ => (1 / 2)%R)
           (mkDimensions (Some 800%R) (Some 800%R)) [rxn1] 0
           (1 / 2) (7 / 2) 2); lra.
Defined.

(** X29.  In exact arithmetic, with [Math.random] in [[0, 1)],
    [getRandPos] of a rectangle whose sides are not negative is a point
    with integer coordinates in the rectangle, its edges included. *)
Theorem getRandPos_on_canvas (random : nat -> R) (c : dimensions xreal)
    (rules : list Reaction) (n : nat) (hh ww : R) :
  (forall i, 0 <= random i < 1)%R -> (0 <= hh)%R -> (0 <= ww)%R ->
  exists zx zy : Z,
    getRandPos (idealEnv random c rules) (idealHost c) n
               (mkDimensions (Some hh) (Some ww))
    = mkVector (Some (IZR zx)) (Some (IZR zy))
    /\ (0 <= IZR zx <= ww)%R /\ (0 <= IZR zy <= hh)%R.
Proof.
  intros Hu Hh Hw. unfold getRandPos. cbn [width height].
  destruct (getRandInt_real random c rules n 0 ww 0 (Hu n))
    as (zx & Hx & Hbx); [simpl; lra|].
  destruct (getRandInt_real random c rules (S n) 0 hh 0 (Hu (S n)))
    as (zy & Hy & Hby); [simpl; lra|].
  exists zx, zy. change (#0%num : xreal) with (Some 0%R).
  rewrite Hx, Hy. auto.
Qed.

Lemma getRandPos_on_canvas_witness :
  exists zx zy : Z,
    getRandPos (idealEnv (fun _ => (1 / 2)%R)
                         (mkDimensions (Some 800%R) (Some 800%R)) [rxn1])
               (idealHost (mkDimensions (Some 800%R) (Some 800%R))) 0
               (mkDimensions (Some 800%R) (Some 800%R))
    = mkVector (Some (IZR zx)) (Some (IZR zy))
    /\ (0 <= IZR zx <= 800)%R /\ (0 <= IZR zy <= 800)%R.
Proof.
  apply (getRandPos_on_canvas (fun _ => (1 / 2)%R)
           (mkDimensions (Some 800%R) (Some 800%R)) [rxn1] 0 800 800);
    intros; lra.
Defined.

(** ** The average speed *)

Lemma speeds_sum (h : list (Particle xreal)) (lo hi : R) :
  forall (particles : list ref) (s0 : R),
  Forall (fun r => exists p vx vy,
              h !! r = Some p /\ vel p = mkVector (Some vx) (Some vy)
              /\ (lo <= sqrt (vx * vx + vy * vy) <= hi)%R) particles ->
  exists total : R,
    foldl (fun totalSpeed r =>
             match h !! r with
             | Some p => (totalSpeed + getMagnitude (vel p))%num
             | None => totalSpeed
             end) (Some s0) particles
    = Some total
    /\ (s0 + INR (length particles) * lo <= total
        <= s0 + INR (length particles) * hi)%R.
Proof.
  induction particles as [|r l IH]; intros s0 Hall.
  - exists s0. simpl. split; [reflexivity|lra].
  - inversion Hall as [|? ? (p & vx & vy & Hp & Hvel & Hs) Hrest]; subst.
    destruct (IH (s0 + sqrt (vx * vx + vy * vy))%R Hrest)
      as (total & Hsum & Htotal).
    exists total. split.
    + cbn [foldl]. rewrite Hp, Hvel, xreal_getMagnitude. exact Hsum.
    + change (length (r :: l)) with (S (length l)). rewrite S_INR. lra.
Qed.

(** X30.  In exact arithmetic the average speed of a non-empty list of
    particles lies between any two bounds that hold for the speed of
    each of them; of particles that all move at one speed it is that
    speed. *)
Theorem getAvgSpeed_between (h : list (Particle xreal))
    (particles : list ref) (lo hi : R) :
  particles <> [] ->
  Forall (fun r => exists p vx vy,
              h !! r = Some p /\ vel p = mkVector (Some vx) (Some vy)
              /\ (lo <= sqrt (vx * vx + vy * vy) <= hi)%R) particles ->
  exists s : R,
    getAvgSpeed h particles = Some s /\ (lo <= s <= hi)%R.
Proof.
  intros Hne Hall.
  destruct (speeds_sum h lo hi particles 0 Hall) as (total & Hsum & Htotal).
  assert (Hn : (0 < INR (length particles))%R).
  { apply lt_0_INR. destruct particles; [congruence|simpl; lia]. }
  unfold getAvgSpeed.
  change (#0%num : xreal) with (Some 0%R). rewrite Hsum.
  change (#(Z.of_nat (length particles)))%num
    with (Some (IZR (Z.of_nat (length particles)))).
  rewrite <- INR_IZR_INZ, xreal_div by lra.
  exists (total / INR (length particles))%R. split; [reflexivity|].
  assert (Hs : (total / INR (length particles) * INR (length particles)
                = total)%R) by (field; lra).
  split; nra.
Qed.

Lemma getAvgSpeed_between_witness :
  exists s : R,
    getAvgSpeed [idealParticle 3 4 5; idealParticle 4 3 5] [0; 1]%nat = Some s
    /\ (5 <= s <= 5)%R.
Proof.
  apply (getAvgSpeed_between [idealParticle 3 4 5; idealParticle 4 3 5]
                             [0; 1]%nat 5 5); [discriminate|].
  assert (Hfive : sqrt (5 * 5) = 5%R) by (apply sqrt_square; lra).
  repeat constructor.
  - exists (idealParticle 3 4 5), 3%R, 4%R.
    split; [reflexivity|]. split; [reflexivity|].
    replace (3 * 3 + 4 * 4)%R with (5 * 5)%R by ring. lra.
  - exists (idealParticle 4 3 5), 4%R, 3%R.
    split; [reflexivity|]. split; [reflexivity|].
    replace (4 * 4 + 3 * 3)%R with (5 * 5)%R by ring. lra.
Defined.
